(** * apirequest.ts: request construction for Google API calls

    A shallow embedding of [src/apirequest.ts] (getMissingParams,
    createAPIRequest, createAPIRequestAsync, ProgressStream) and the
    properties of its parameter resolution, multipart assembly, header
    assembly and dispatch.

    Conventions of the embedding.
    - JavaScript values are the inductive [value]; an object is the list of
      its own enumerable properties in insertion order.  Numbers are the
      integer-valued ones of magnitude below 10^21, which JavaScript prints
      as their decimal digits; a fraction, a larger number, NaN and the
      infinities have no value here.  Strings are sequences of 8-bit
      characters.
    - Property names are ordinary names.  The properties every object
      inherits from [Object.prototype] are visible to the one lookup of the
      program that takes an arbitrary name, [params[param] === undefined]
      in getMissingParams; the accessor [__proto__], through which an
      assignment replaces the prototype, is not modelled.
    - The position JavaScript gives to integer-like keys in the enumeration
      order is not modelled: the names of the params, options and headers
      are taken not to be integer-like (the indices of an array or of a
      string are, and are enumerated in ascending order).  The order of the
      keys shows in the un-aliasing loop, where no key ending in [_] is
      integer-like, and in the JSON text of the request body.
    - An object is a value: two objects reached by different paths of the
      caller's descriptor are different objects.  The objects the function
      shares with the caller (the headers object, [options.headers],
      [options.userAgentDirectives], the per-client default params) are
      written back into the descriptor where the function writes to them.
    - A value of a shape that the declared types exclude (an array or a
      function where an object of headers is expected) stands for the
      object of its enumerable properties.
    - The collaborators (url-template, uuid, isBrowser, package.json, the
      transports) are the fields of [Env].  A transport answers with a
      promise; [Env] gives what that promise settles to when it does.
      Where only the outcome of a request matters the promise stands for
      that outcome ([run]); for the calling conventions of createAPIRequest
      the promises are pending until they are settled, with their reactions
      and the queue of jobs. *)

From Stdlib Require Import String Ascii List ZArith Bool Lia DecimalString.
Import ListNotations.
Local Open Scope list_scope.
Local Open Scope string_scope.

(** ** JavaScript values and the built-ins the program uses *)

Module JS.

(** A stream as the program sees it: the chunks pushed into it so far, whether
    [push(null)] has ended it, the chunks of the readable piped into it, and
    what its [flush] adds when that readable is exhausted. *)
Record Stream : Type := mkStream {
  pushed : list string;
  ended : bool;
  piped : option (list string);
  trailer : list string
}.

#[local] Unset Elimination Schemes.

Inductive value : Type :=
| VUndef
| VNull
| VBool (b : bool)
| VNum (n : Z)
| VStr (s : string)
| VArr (elems : list value)
| VObj (props : list (string * value))
| VFun (src : string)
| VStream (st : Stream).

#[local] Set Elimination Schemes.

Definition obj : Type := list (string * value).

Inductive jstype : Type :=
| TUndefined | TObject | TBoolean | TNumber | TString | TFunction.

Definition typeof (v : value) : jstype :=
  match v with
  | VUndef => TUndefined
  | VNull => TObject
  | VBool _ => TBoolean
  | VNum _ => TNumber
  | VStr _ => TString
  | VArr _ | VObj _ | VStream _ => TObject
  | VFun _ => TFunction
  end.

Definition is_string (v : value) : bool :=
  match v with VStr _ => true | _ => false end.

Definition is_undefined (v : value) : bool :=
  match v with VUndef => true | _ => false end.

(** ToBoolean. *)
Definition truthy (v : value) : bool :=
  match v with
  | VUndef | VNull => false
  | VBool b => b
  | VNum n => negb (Z.eqb n 0)
  | VStr s => negb (String.eqb s "")
  | VArr _ | VObj _ | VFun _ | VStream _ => true
  end.

(** [a || b] *)
Definition or_else (a b : value) : value := if truthy a then a else b.

(** *** Own properties *)

Fixpoint lookup (o : obj) (k : string) : option value :=
  match o with
  | [] => None
  | (k', v) :: r => if String.eqb k k' then Some v else lookup r k
  end.

Definition has_own (o : obj) (k : string) : bool :=
  match lookup o k with Some _ => true | None => false end.

(** [o[k]] for a name that [Object.prototype] does not define. *)
Definition get (o : obj) (k : string) : value :=
  match lookup o k with Some v => v | None => VUndef end.

(** [o[k] = v]: an existing property keeps its place, a new one goes last
    (for a name that is not integer-like; JavaScript enumerates integer-like
    names first, which a lookup does not see). *)
Fixpoint set_prop (o : obj) (k : string) (v : value) : obj :=
  match o with
  | [] => [(k, v)]
  | (k', v') :: r =>
      if String.eqb k k' then (k, v) :: r else (k', v') :: set_prop r k v
  end.

(** [delete o[k]] *)
Fixpoint delete (o : obj) (k : string) : obj :=
  match o with
  | [] => []
  | (k', v') :: r =>
      if String.eqb k k' then delete r k else (k', v') :: delete r k
  end.

Definition Object_keys (o : obj) : list string := map fst o.

(** The names every plain object inherits from [Object.prototype]; each is
    bound there to a function or an object, never to [undefined]. *)
Definition Object_prototype : list string :=
  [ "constructor"; "hasOwnProperty"; "isPrototypeOf"; "propertyIsEnumerable";
    "toLocaleString"; "toString"; "valueOf"; "__defineGetter__";
    "__defineSetter__"; "__lookupGetter__"; "__lookupSetter__"; "__proto__" ].

Definition inherited (k : string) : bool :=
  existsb (String.eqb k) Object_prototype.

(** [o[k] === undefined], the lookup going through the prototype. *)
Definition prop_undefined (o : obj) (k : string) : bool :=
  match lookup o k with
  | Some v => is_undefined v
  | None => negb (inherited k)
  end.

(** [v.k] for a value [v] that is neither [null] nor [undefined], and a name
    that the prototypes of the primitives do not define. *)
Definition member (v : value) (k : string) : value :=
  match v with
  | VObj o => get o k
  | _ => VUndef
  end.

(** *** Strings *)

Definition string_of_nat (n : nat) : string :=
  NilZero.string_of_uint (Nat.to_uint n).

(** The decimal digits of an integer, as JavaScript prints a Number that
    is an integer of magnitude below 10^21 (beyond that it prints an
    exponent, and such numbers are not values of the embedding). *)
Definition string_of_Z (n : Z) : string :=
  NilZero.string_of_int (Z.to_int n).

Fixpoint chars (s : string) : list string :=
  match s with
  | EmptyString => []
  | String c r => String c EmptyString :: chars r
  end.

(** [key.slice(-1)] *)
Fixpoint slice_last (s : string) : string :=
  match s with
  | EmptyString => EmptyString
  | String c EmptyString => String c EmptyString
  | String c r => slice_last r
  end.

(** [key.slice(0, -1)] *)
Fixpoint slice_init (s : string) : string :=
  match s with
  | EmptyString => EmptyString
  | String c EmptyString => EmptyString
  | String c r => String c (slice_init r)
  end.

(** [a.join(sep)] on strings *)
Definition join (sep : string) (l : list string) : string :=
  String.concat sep l.

(** ToString, as a template literal applies it.  An object is taken not to
    redefine [toString]; a function prints as its source text. *)
Fixpoint to_string (v : value) : string :=
  match v with
  | VUndef => "undefined"
  | VNull => "null"
  | VBool true => "true"
  | VBool false => "false"
  | VNum n => string_of_Z n
  | VStr s => s
  | VArr l =>
      join ","
        ((fix elems (l : list value) : list string :=
            match l with
            | [] => []
            | x :: r =>
                match x with
                | VUndef | VNull => ""
                | _ => to_string x
                end :: elems r
            end) l)
  | VObj _ => "[object Object]"
  | VFun src => src
  | VStream _ => "[object Object]"
  end.

(** *** Enumeration and Object.assign *)

Fixpoint indexed (i : nat) (l : list value) : obj :=
  match l with
  | [] => []
  | x :: r => (string_of_nat i, x) :: indexed (S i) r
  end.

(** The own enumerable properties of a value: those of an object, the
    indices of an array or of a string.  (The internal fields of a stream
    are not carried by the model; a function has none.) *)
Definition props_of (v : value) : obj :=
  match v with
  | VObj o => o
  | VArr l => indexed 0 l
  | VStr s => indexed 0 (map VStr (chars s))
  | _ => []
  end.

(** One source of [Object.assign]: for each own key, get it and set it. *)
Definition assign_from (target : obj) (source : value) : obj :=
  let src := props_of source in
  fold_left (fun t k => set_prop t k (get src k)) (Object_keys src) target.

(** [Object.assign(target, ...sources)] *)
Definition Object_assign (target : obj) (sources : list value) : obj :=
  fold_left assign_from sources target.

(** *** JSON.stringify *)

Definition dquote : string := String (ascii_of_nat 34) EmptyString.
Definition crlf : string :=
  String (ascii_of_nat 13) (String (ascii_of_nat 10) EmptyString).

Definition hex_digit (n : nat) : ascii :=
  nth n [ "0"; "1"; "2"; "3"; "4"; "5"; "6"; "7"; "8"; "9";
          "a"; "b"; "c"; "d"; "e"; "f" ]%char "0"%char.

Definition json_escape (c : ascii) : string :=
  let n := nat_of_ascii c in
  if Nat.eqb n 34 then "\" ++ dquote
  else if Nat.eqb n 92 then "\\"
  else if Nat.eqb n 8 then "\b"
  else if Nat.eqb n 9 then "\t"
  else if Nat.eqb n 10 then "\n"
  else if Nat.eqb n 12 then "\f"
  else if Nat.eqb n 13 then "\r"
  else if Nat.ltb n 32 then
    "\u00" ++ String (hex_digit (n / 16)) (String (hex_digit (n mod 16)) EmptyString)
  else String c EmptyString.

Fixpoint json_escape_all (s : string) : string :=
  match s with
  | EmptyString => EmptyString
  | String c r => json_escape c ++ json_escape_all r
  end.

Definition json_quote (s : string) : string :=
  dquote ++ json_escape_all s ++ dquote.

Definition seen_in (k : string) (seen : list string) : bool :=
  existsb (String.eqb k) seen.

Section Stringify.

(** What [JSON.stringify] prints for a stream object, whose internal fields
    the model does not carry. *)
Variable stream_json : Stream -> string.

(** [JSON.stringify(v)]; [None] is the result [undefined].  A property
    whose value has no JSON text is left out of an object and printed as
    [null] in an array; a key enumerates once, with the value a lookup gives
    it.  An object is taken not to define [toJSON]. *)
Fixpoint JSON_stringify (v : value) : option string :=
  match v with
  | VUndef => None
  | VFun _ => None
  | VNull => Some "null"
  | VBool true => Some "true"
  | VBool false => Some "false"
  | VNum n => Some (string_of_Z n)
  | VStr s => Some (json_quote s)
  | VArr l =>
      Some ("[" ++ join ","
        ((fix elems (l : list value) : list string :=
            match l with
            | [] => []
            | x :: r =>
                match JSON_stringify x with
                | Some s => s
                | None => "null"
                end :: elems r
            end) l) ++ "]")
  | VObj o =>
      Some ("{" ++ join ","
        ((fix entries (seen : list string) (o : obj) : list string :=
            match o with
            | [] => []
            | (k, x) :: r =>
                List.app
                  match (if seen_in k seen then None else JSON_stringify x) with
                  | Some s => [json_quote k ++ ":" ++ s]
                  | None => []
                  end
                  (entries (k :: seen) r)
            end) [] o) ++ "}")
  | VStream st => Some (stream_json st)
  end.

End Stringify.

(** *** extend(true, target, ...sources), the deep merge of the extend package *)

(** The value [extend] stores at [target[name]] when [copy], the value of the
    source at [name], is not [undefined] and [src] is what the target holds
    there: a plain object or an array is merged into the one the target
    holds (or into a fresh one), key by key, anything else is stored as it
    is.  A key enumerates once, with the value a lookup gives it. *)
Fixpoint merged (src copy : value) {struct copy} : value :=
  match copy with
  | VObj co =>
      VObj
        ((fix each (seen : list string) (t : obj) (es : obj) : obj :=
            match es with
            | [] => t
            | (k, v) :: es' =>
                each (k :: seen)
                  (if seen_in k seen then t
                   else match v with
                        | VUndef => t
                        | _ => set_prop t k (merged (get t k) v)
                        end)
                  es'
            end) [] (match src with VObj so => so | _ => [] end) co)
  | VArr ca =>
      VArr
        ((fix each (t : list value) (cs : list value) : list value :=
            match cs with
            | [] => t
            | c :: cs' =>
                match c with
                | VUndef => hd VUndef t
                | _ => merged (hd VUndef t) c
                end :: each (tl t) cs'
            end) (match src with VArr sa => sa | _ => [] end) ca)
  | _ => copy
  end.

(** The properties of the target [extend] works on: those of the argument
    when it is an object (of an array, its indices), none when it is a
    primitive, which [extend] replaces by a fresh object. *)
Definition extend_target (target : value) : obj :=
  match target with
  | VObj t => t
  | VArr l => indexed 0 l
  | _ => []
  end.

(** One source of [extend]: [null] and [undefined] are skipped, any other
    value is enumerated. *)
Definition extend_from (t : obj) (source : value) : obj :=
  match merged (VObj t) (VObj (props_of source)) with
  | VObj r => r
  | _ => t
  end.

(** [extend(true, target, ...sources)] *)
Definition extend (target : value) (sources : list value) : obj :=
  fold_left extend_from sources (extend_target target).

End JS.

Import JS.

(** ** The request descriptor, the collaborators and the effects *)

(** [parameters.context]: the per-client options [_options] and, when the
    client belongs to a top-level [google] object, the options
    [google._options] of that object. *)
Record APIRequestContext : Type := mkContext {
  google : option obj;
  _options : obj
}.

(** [APIRequestParams], the descriptor the caller passes. *)
Record APIRequestParams : Type := mkParameters {
  options : obj;
  params : obj;
  requiredParams : list string;
  pathParams : list string;
  context : APIRequestContext;
  mediaUrl : option string
}.

(** What a promise is rejected with: the [Error] the program throws, a
    [TypeError] of the runtime, or whatever a transport rejects with. *)
Inductive reason : Type :=
| Error (message : string)
| TypeError
| Failure (e : value).

Inductive settled : Type :=
| Fulfilled (response : value)
| Rejected (e : reason).

Record Env : Type := mkEnv {
  isBrowser : bool;
  pkg_version : string;                       (* pkg.version *)
  uuid_v4 : string;                           (* the token uuid.v4() draws *)
  expand : string -> obj -> string;           (* urlTemplate.parse(t).expand(p) *)
  stream_json : Stream -> string;             (* JSON.stringify of a stream *)
  client_request : value -> obj -> settled;   (* authClient.request(opts) *)
  transporter_request : obj -> settled        (* new DefaultTransporter().request(opts) *)
}.

(** The calls made to the collaborators, in order. *)
Inductive call : Type :=
| Expand (template : string) (vars : obj)
| ClientRequest (client : value) (opts : obj)
| TransporterRequest (opts : obj).

(** The state outside the function: the caller's descriptor, with the objects
    it shares with the function, and the calls made so far. *)
Record World : Type := mkWorld {
  caller : APIRequestParams;
  calls : list call
}.

(** Computations that change the world and may throw; what was changed
    before a throw stays changed. *)
Definition M (A : Type) : Type := World -> (A + reason) * World.

Definition ret {A} (a : A) : M A := fun w => (inl a, w).

Definition throw {A} (e : reason) : M A := fun w => (inr e, w).

Definition bind {A B} (m : M A) (k : A -> M B) : M B :=
  fun w =>
    match m w with
    | (inl a, w') => k a w'
    | (inr e, w') => (inr e, w')
    end.

Declare Scope js_scope.
Delimit Scope js_scope with js.
Notation "x <- m ;; k" := (bind m (fun x => k))
  (at level 61, m at next level, right associativity) : js_scope.
Notation "m ;; k" := (bind m (fun _ => k))
  (at level 61, right associativity) : js_scope.
Local Open Scope js_scope.

Definition read : M APIRequestParams := fun w => (inl (caller w), w).

Definition write (f : APIRequestParams -> APIRequestParams) : M unit :=
  fun w => (inl tt, mkWorld (f (caller w)) (calls w)).

Definition record (c : call) : M unit :=
  fun w => (inl tt, mkWorld (caller w) (calls w ++ [c])%list).

Definition settle (p : settled) : M value :=
  match p with
  | Fulfilled r => ret r
  | Rejected e => throw e
  end.

(** ** apirequest.ts *)

(** [isReadableStream] (lines 29-31) *)
Definition isReadableStream (v : value) : bool :=
  match v with VStream _ => true | _ => false end.

(** [getMissingParams] (lines 33-45): the required names whose value in
    [params] is [undefined], in the order of [required]; [None] is [null]. *)
Definition getMissingParams (params : obj) (required : list string)
  : option (list string) :=
  let missing := filter (prop_undefined params) required in
  match missing with
  | [] => None
  | _ :: _ => Some missing
  end.

(** *** createAPIRequestAsync, parameter resolution (lines 71-135) *)

(** Lines 77-82: the global default params. *)
Definition topOptions (parameters : APIRequestParams) : value :=
  match google (context parameters) with
  | Some google_options =>
      if truthy (get google_options "params")
      then get google_options "params"
      else VObj []
  | None => VObj []
  end.

(** The per-client default params, [parameters.context._options.params]. *)
Definition clientParams (parameters : APIRequestParams) : value :=
  get (_options (context parameters)) "params".

(** Lines 83-88: global, then per-client, then per-call params, assigned
    into a new object. *)
Definition mergeParams (parameters : APIRequestParams) : obj :=
  Object_assign []
    [topOptions parameters; clientParams parameters; VObj (params parameters)].

(** Line 90 *)
Definition mediaOf (params : obj) : value :=
  or_else (get params "media") (VObj []).

(** Lines 106-110: the request body, and the params once [requestBody] and,
    when it stood for the body, [resource] are deleted. *)
Definition resolveBody (params : obj) : value * obj :=
  let resource :=
    if truthy (get params "requestBody")
    then get params "requestBody"
    else get params "resource" in
  let params :=
    if negb (truthy (get params "requestBody")) && truthy (get params "resource")
    then delete params "resource"
    else params in
  (resource, delete params "requestBody").

(** Lines 112-117 *)
Definition resolveAuth (parameters : APIRequestParams) (params : obj) : value :=
  or_else (get params "auth")
    (or_else (get (_options (context parameters)) "auth")
       match google (context parameters) with
       | Some google_options => get google_options "auth"
       | None => VNull
       end).

(** Lines 119-120 *)
Definition defaultMimeOf (media : value) : string :=
  if is_string (member media "body")
  then "text/plain"
  else "application/octet-stream".

(** Lines 130-134, the body of the un-aliasing loop. *)
Definition unaliasKey (params : obj) (key : string) : obj :=
  if String.eqb (slice_last key) "_" then
    let newKey := slice_init key in
    delete (set_prop params newKey (get params key)) key
  else params.

(** Lines 129-135: the loop runs over the keys the params have when it
    starts. *)
Definition unalias (params : obj) : obj :=
  fold_left unaliasKey (Object_keys params) params.

(** The local variables when the required-parameter check is reached. *)
Record Resolution : Type := mkResolution {
  res_params : obj;
  res_media : value;
  res_resource : value;
  res_authClient : value;
  res_defaultMime : string;
  res_headers : value
}.

Definition resolve (parameters : APIRequestParams) : Resolution :=
  let params := mergeParams parameters in
  let media := mediaOf params in
  let '(resource, params) := resolveBody params in
  let authClient := resolveAuth parameters params in
  let defaultMime := defaultMimeOf media in
  let params := delete params "media" in
  let params := delete params "auth" in
  let headers := or_else (get params "headers") (VObj []) in
  let params := delete params "headers" in
  let params := unalias params in
  mkResolution params media resource authClient defaultMime headers.

(** The params the un-aliasing loop starts from (line 129). *)
Definition extracted (parameters : APIRequestParams) : obj :=
  delete
    (delete (delete (snd (resolveBody (mergeParams parameters))) "media") "auth")
    "headers".

(** Lines 164-165: the path parameters leave the params. *)
Definition stripPathParams (params : obj) (pathParams : list string) : obj :=
  fold_left delete pathParams params.

(** Lines 176-179: a string credential is an API key; the pair is the params
    and the credential afterwards. *)
Definition injectKey (params : obj) (authClient : value) : obj * value :=
  match authClient with
  | VStr _ =>
      (set_prop params "key" (or_else (get params "key") authClient), VUndef)
  | _ => (params, authClient)
  end.

(** The params the request is built from: resolved, checked, stripped of
    the path parameters, with the API key. *)
Definition resolvedParams (parameters : APIRequestParams) : obj :=
  fst (injectKey
         (stripPathParams (res_params (resolve parameters))
            (pathParams parameters))
         (res_authClient (resolve parameters))).

(** *** createAPIRequestAsync, the objects shared with the caller *)

(** [o[k] = v] on an object that may have lost [k] since it was read. *)
Definition set_existing (o : obj) (k : string) (v : value) : obj :=
  if has_own o k then set_prop o k v else o.

Definition with_mediaUrl (u : option string) (p : APIRequestParams)
  : APIRequestParams :=
  mkParameters (options p) (params p) (requiredParams p) (pathParams p)
    (context p) u.

Definition with_options (o : obj) (p : APIRequestParams) : APIRequestParams :=
  mkParameters o (params p) (requiredParams p) (pathParams p) (context p)
    (mediaUrl p).

Definition with_params (o : obj) (p : APIRequestParams) : APIRequestParams :=
  mkParameters (options p) o (requiredParams p) (pathParams p) (context p)
    (mediaUrl p).

Definition with_context (c : APIRequestContext) (p : APIRequestParams)
  : APIRequestParams :=
  mkParameters (options p) (params p) (requiredParams p) (pathParams p) c
    (mediaUrl p).

(** An update of the object stored at [store[k]], when it is an object. *)
Definition in_member (store : obj) (k : string) (f : obj -> obj) : obj :=
  match lookup store k with
  | Some (VObj o) => set_prop store k (VObj (f o))
  | _ => store
  end.

(** Lines 166-172: the path parameters leave the per-client default params. *)
Definition stripContext (pathParams : list string) (p : APIRequestParams)
  : APIRequestParams :=
  with_context
    (mkContext (google (context p))
       (in_member (_options (context p)) "params"
          (fun o => fold_left delete pathParams o)))
    p.

(** Where the object [params.headers] of the merged params lives: in the
    per-call params, in the per-client default params or in the global
    default params, the last source of the merge that has the key. *)
Inductive owner : Type := PerCall | PerClient | Global | Fresh.

Definition headersOwner (parameters : APIRequestParams) : owner :=
  if negb (truthy (get (mergeParams parameters) "headers")) then Fresh
  else if has_own (params parameters) "headers" then PerCall
  else if has_own (props_of (clientParams parameters)) "headers" then PerClient
  else if has_own (props_of (topOptions parameters)) "headers" then Global
  else Fresh.

(** The caller's descriptor once the headers object it shares with the
    function has become [h]. *)
Definition shareHeaders (o : owner) (h : obj) (p : APIRequestParams)
  : APIRequestParams :=
  match o with
  | PerCall => with_params (set_existing (params p) "headers" (VObj h)) p
  | PerClient =>
      with_context
        (mkContext (google (context p))
           (in_member (_options (context p)) "params"
              (fun o => set_existing o "headers" (VObj h))))
        p
  | Global =>
      with_context
        (mkContext
           (option_map
              (fun g => in_member g "params"
                          (fun o => set_existing o "headers" (VObj h)))
              (google (context p)))
           (_options (context p)))
        p
  | Fresh => p
  end.

(** [headers[k] = v] (line 206): a primitive takes no property, an object
    takes it and the caller sees it.  (For an array, a function or a stream
    the result is the object the later enumeration sees.) *)
Definition assignHeader (o : owner) (headers : value) (k : string) (v : value)
  : M value :=
  match headers with
  | VObj h =>
      write (shareHeaders o (set_prop h k v)) ;;
      ret (VObj (set_prop h k v))
  | VArr _ | VFun _ | VStream _ => ret (VObj (set_prop (props_of headers) k v))
  | _ => throw TypeError
  end.

(** [Object.assign(headers, {k: v})] (line 232): as the assignment, but a
    primitive is left as it is. *)
Definition assignHeaders (o : owner) (headers : value) (k : string) (v : value)
  : M value :=
  match headers with
  | VObj _ | VArr _ | VFun _ | VStream _ => assignHeader o headers k v
  | _ => ret headers
  end.

(** A write to [options.headers] or [options.userAgentDirectives], which
    the copy of line 72 shares with the caller's [parameters.options] when
    the caller has set it. *)
Definition shareOption (shared : bool) (k : string) (v : value) : M unit :=
  if shared
  then write (fun p => with_options (set_existing (options p) k v) p)
  else ret tt.

(** *** createAPIRequestAsync, the multipart body (lines 187-229) *)

(** All that a stream yields: what was pushed, then what is piped in and
    the trailer its exhaustion flushes. *)
Definition stream_chunks (st : Stream) : list string :=
  (pushed st ++
   match piped st with
   | Some cs => cs ++ trailer st
   | None => []
   end)%list.

Definition stream_content (st : Stream) : string :=
  String.concat "" (stream_chunks st).

Definition push (st : Stream) (chunk : string) : Stream :=
  mkStream (pushed st ++ [chunk])%list (ended st) (piped st) (trailer st).

(** [rStream.push(null)] *)
Definition push_null (st : Stream) : Stream :=
  mkStream (pushed st) true (piped st) (trailer st).

(** [ProgressStream._transform] (lines 303-308): the new count of bytes
    read, which the [progress] event carries, and the chunk pushed on. *)
Definition ProgressStream_transform (bytesRead : nat) (chunk : string)
  : nat * string :=
  (bytesRead + String.length chunk, chunk).

(** The chunks of a readable on their way through a [ProgressStream], each
    with the count its [progress] event carries. *)
Fixpoint throughProgress (bytesRead : nat) (chunks : list string)
  : list (nat * string) :=
  match chunks with
  | [] => []
  | chunk :: rest =>
      let '(bytesRead, forwarded) := ProgressStream_transform bytesRead chunk in
      (bytesRead, forwarded) :: throughProgress bytesRead rest
  end.

(** [body.pipe(pStream).pipe(rStream)] *)
Definition pipe_into (st : Stream) (body : Stream) : Stream :=
  mkStream (pushed st) (ended st)
    (Some (map snd (throughProgress 0 (stream_chunks body)))) (trailer st).

(** Lines 208-223, one part: the preamble, then a string body and a line
    end, or a stream body piped in; any other body has no [pipe]. *)
Definition pushPart (boundary : string) (rStream : Stream)
  (contentType body : value) : M Stream :=
  let preamble :=
    "--" ++ boundary ++ crlf ++ "Content-Type: " ++ to_string contentType
      ++ crlf ++ crlf in
  let rStream := push rStream preamble in
  match body with
  | VStr s => ret (push (push rStream s) crlf)
  | VStream source => ret (pipe_into rStream source)
  | _ => throw TypeError
  end.

(** [JSON.stringify(resource)] as a value *)
Definition stringified (env : Env) (v : value) : value :=
  match JSON_stringify (stream_json env) v with
  | Some s => VStr s
  | None => VUndef
  end.

(** Lines 187-228 without the header of line 206: the two parts and, when
    the media body is not a stream, the closing delimiter and the end. *)
Definition assemble (env : Env) (media resource : value) (defaultMime : string)
  : M Stream :=
  let part0_body := stringified env resource in
  let part1_type :=
    or_else (member media "mimeType")
      (or_else (member resource "mimeType") (VStr defaultMime)) in
  let part1_body := member media "body" in
  let boundary := uuid_v4 env in
  let finale := "--" ++ boundary ++ "--" in
  let rStream := mkStream [] false None [crlf; finale] in
  let isStream := isReadableStream part1_body in
  rStream <- pushPart boundary rStream (VStr "application/json") part0_body ;;
  rStream <- pushPart boundary rStream part1_type part1_body ;;
  ret (if isStream then rStream else push_null (push rStream finale)).

(** *** createAPIRequestAsync, the request (lines 137-293) *)

(** [urlTemplate.parse(template).expand(params)]; the template must be a
    string. *)
Definition expandUrl (env : Env) (template : value) (params : obj) : M string :=
  match template with
  | VStr t =>
      record (Expand t params) ;;
      ret (expand env t params)
  | _ => throw TypeError
  end.

(** Lines 181-237: the body of the request; the result is the params, the
    headers and the options afterwards. *)
Definition materializeBody (env : Env) (o : owner) (mediaUrl : option string)
  (r : Resolution) (params : obj) (options : obj) : M (obj * value * obj) :=
  let media := res_media r in
  let resource := res_resource r in
  let headers := res_headers r in
  match mediaUrl with
  | Some url =>
      if truthy (VStr url) && truthy (member media "body") then
        let options := set_prop options "url" (VStr url) in
        if truthy resource then
          let params := set_prop params "uploadType" (VStr "multipart") in
          headers <- assignHeader o headers "Content-Type"
                       (VStr ("multipart/related; boundary=" ++ uuid_v4 env)) ;;
          rStream <- assemble env media resource (res_defaultMime r) ;;
          ret (params, headers, set_prop options "data" (VStream rStream))
        else
          let params := set_prop params "uploadType" (VStr "media") in
          headers <- assignHeaders o headers "Content-Type"
                       (or_else (member media "mimeType")
                          (VStr (res_defaultMime r))) ;;
          ret (params, headers, set_prop options "data" (member media "body"))
      else ret (params, headers, set_prop options "data" (or_else resource VUndef))
  | None => ret (params, headers, set_prop options "data" (or_else resource VUndef))
  end.

(** Lines 250-256 *)
Definition directiveLine (d : value) : M string :=
  match d with
  | VUndef | VNull => throw TypeError
  | _ =>
      let line := to_string (member d "product") ++ "/"
                    ++ to_string (member d "version") in
      ret (if truthy (member d "comment")
           then line ++ " (" ++ to_string (member d "comment") ++ ")"
           else line)
  end.

Fixpoint directiveLines (ds : list value) : M (list string) :=
  match ds with
  | [] => ret []
  | d :: r =>
      line <- directiveLine d ;;
      lines <- directiveLines r ;;
      ret (line :: lines)
  end.

(** Lines 239-259: the headers of the request, and [options.params]; the
    result is the options afterwards. *)
Definition assembleHeaders (env : Env) (options : obj) (headers : value)
  (params : obj) : M obj :=
  let sharedHeaders :=
    match get options "headers" with VObj _ => true | _ => false end in
  let hdrs := extend (or_else (get options "headers") (VObj [])) [headers] in
  shareOption sharedHeaders "headers" (VObj hdrs) ;;
  let options := set_prop options "headers" (VObj hdrs) in
  let options := set_prop options "params" (VObj params) in
  if isBrowser env then ret options
  else
    let hdrs := set_prop hdrs "Accept-Encoding" (VStr "gzip") in
    shareOption sharedHeaders "headers" (VObj hdrs) ;;
    let options := set_prop options "headers" (VObj hdrs) in
    match or_else (get options "userAgentDirectives") (VArr []) with
    | VArr directives =>
        let sharedDirectives := truthy (get options "userAgentDirectives") in
        let directives :=
          (directives ++
           [VObj [("product", VStr "google-api-nodejs-client");
                  ("version", VStr (pkg_version env));
                  ("comment", VStr "gzip")]])%list in
        shareOption sharedDirectives "userAgentDirectives" (VArr directives) ;;
        let options :=
          if sharedDirectives
          then set_prop options "userAgentDirectives" (VArr directives)
          else options in
        lines <- directiveLines directives ;;
        let hdrs := set_prop hdrs "User-Agent" (VStr (join " " lines)) in
        shareOption sharedHeaders "headers" (VObj hdrs) ;;
        ret (set_prop options "headers" (VObj hdrs))
    | _ => throw TypeError
    end.

Definition paramsSerializer : value :=
  VFun "params => qs.stringify(params, {arrayFormat: 'repeat'})".

Definition validateStatus : value :=
  VFun "status => (status >= 200 && status < 300) || status === 304".

(** Lines 276-283 *)
Definition mergeOptions (context : APIRequestContext) (options : obj) : obj :=
  delete
    (extend (VObj [])
       [match google context with
        | Some google_options => VObj google_options
        | None => VObj []
        end;
        VObj (_options context);
        VObj options])
    "auth".

(** Lines 289-293 *)
Definition dispatch (env : Env) (authClient : value) (mergedOptions : obj)
  : M value :=
  if truthy authClient && match typeof authClient with TObject => true | _ => false end
  then
    match member authClient "request" with
    | VFun _ =>
        record (ClientRequest authClient mergedOptions) ;;
        settle (client_request env authClient mergedOptions)
    | _ => throw TypeError
    end
  else
    record (TransporterRequest mergedOptions) ;;
    settle (transporter_request env mergedOptions).

(** Lines 158-283 of [createAPIRequestAsync]: from the expanded URLs to the
    merged options; the result is the credential and the merged options. *)
Definition completeRequest (env : Env) (parameters : APIRequestParams)
  (r : Resolution) (options : obj) (mediaUrl : option string)
  : M (value * obj) :=
  let params := res_params r in
  let options := set_prop options "paramsSerializer" paramsSerializer in
  let params := stripPathParams params (pathParams parameters) in
  write (stripContext (pathParams parameters)) ;;
  let '(params, authClient) := injectKey params (res_authClient r) in
  body <- materializeBody env (headersOwner parameters) mediaUrl r params
            options ;;
  let '(params, headers, options) := body in
  options <- assembleHeaders env options headers params ;;
  let options :=
    if truthy (get options "validateStatus") then options
    else set_prop options "validateStatus" validateStatus in
  let options :=
    set_prop options "retry"
      (if is_undefined (get options "retry") then VBool true
       else get options "retry") in
  current <- read ;;
  ret (authClient, mergeOptions (context current) options).

(** Lines 146-151: the URL templates are expanded; the result is the
    options and [parameters.mediaUrl] afterwards. *)
Definition expandUrls (env : Env) (parameters : APIRequestParams)
  (options params : obj) : M (obj * option string) :=
  options <-
    (if truthy (get options "url") then
       url <- expandUrl env (get options "url") params ;;
       ret (set_prop options "url" (VStr url))
     else ret options) ;;
  mediaUrl <-
    match mediaUrl parameters with
    | Some template =>
        if truthy (VStr template) then
          url <- expandUrl env (VStr template) params ;;
          write (with_mediaUrl (Some url)) ;;
          ret (Some url)
        else ret (Some template)
    | None => ret None
    end ;;
  ret (options, mediaUrl).

(** Lines 70-283 of [createAPIRequestAsync]: all that comes before the
    dispatch. *)
Definition prepareRequest (env : Env) : M (value * obj) :=
  parameters <- read ;;
  let options := Object_assign [] [VObj (options parameters)] in
  let r := resolve parameters in
  let params := res_params r in
  match getMissingParams params (requiredParams parameters) with
  | Some missingParams =>
      throw (Error ("Missing required parameters: " ++ join ", " missingParams))
  | None =>
      urls <- expandUrls env parameters options params ;;
      completeRequest env parameters r (fst urls) (snd urls)
  end.

(** [createAPIRequestAsync] (lines 70-294), run on the caller's descriptor. *)
Definition createAPIRequestAsync (env : Env) : M value :=
  request <- prepareRequest env ;;
  dispatch env (fst request) (snd request).

(** The promise [createAPIRequestAsync(parameters)] settles to, and the world
    it leaves. *)
Definition run (env : Env) (parameters : APIRequestParams) : settled * World :=
  match createAPIRequestAsync env (mkWorld parameters []) with
  | (inl response, w) => (Fulfilled response, w)
  | (inr e, w) => (Rejected e, w)
  end.

(** *** Promises and the job queue *)

(** A promise is known by its place in the order in which the promises were
    created. *)
Definition promise : Type := nat.

(** The arguments of a call of the callback. *)
Inductive argument : Type :=
| ArgNull
| ArgResponse (r : value)
| ArgError (e : reason).

(** The functions that are passed to [then] as the handler of a fulfilment:
    [r => callback(null, r)] of line 64, and a resolving function of a
    promise. *)
Inductive onFulfilled : Type :=
| CallbackWithNull (callback : value)
| ResolveFunction (p : promise).

(** The functions that are passed to [then] as the handler of a rejection:
    [callback] itself, line 64, and a rejecting function of a promise. *)
Inductive onRejected : Type :=
| Callback (callback : value)
| RejectFunction (p : promise).

(** What [then] registers: the two handlers, one of them absent when the
    argument is not callable, and the promise [then] returns. *)
Record reaction : Type := mkReaction {
  fulfil : option onFulfilled;
  reject : option onRejected;
  derived : promise
}.

Inductive promiseState : Type :=
| Pending (reactions : list reaction)
| Settled (outcome : settled).

(** The jobs of the queue: the reaction to a fulfilment or to a rejection,
    and the job that resolves the promise [p] with a thenable. *)
Inductive job : Type :=
| FulfilReaction (handler : option onFulfilled) (derived : promise) (v : value)
| RejectReaction (handler : option onRejected) (derived : promise) (e : reason)
| ResolveThenable (p thenable : promise).

(** The promises, the job queue, the promise of the transport with what it
    settles to when it does, and the calls of the callback so far. *)
Record Loop : Type := mkLoop {
  promises : list promiseState;
  jobs : list job;
  transport : option (promise * settled);
  invocations : list (list argument)
}.

Definition stateOf (L : Loop) (p : promise) : promiseState :=
  nth p (promises L) (Pending []).

Fixpoint replace_nth {A : Type} (n : nat) (x : A) (l : list A) : list A :=
  match l, n with
  | [], _ => []
  | _ :: r, O => x :: r
  | y :: r, S n => y :: replace_nth n x r
  end.

Definition setState (p : promise) (st : promiseState) (L : Loop) : Loop :=
  mkLoop (replace_nth p st (promises L)) (jobs L) (transport L) (invocations L).

Definition enqueue (js : list job) (L : Loop) : Loop :=
  mkLoop (promises L) (jobs L ++ js)%list (transport L) (invocations L).

Definition newPromise (L : Loop) : promise * Loop :=
  (length (promises L),
   mkLoop (promises L ++ [Pending []])%list (jobs L) (transport L)
     (invocations L)).

Definition reactionJob (outcome : settled) (r : reaction) : job :=
  match outcome with
  | Fulfilled v => FulfilReaction (fulfil r) (derived r) v
  | Rejected e => RejectReaction (reject r) (derived r) e
  end.

(** A pending promise is fulfilled or rejected and its reactions become
    jobs; a promise that is settled stays as it is. *)
Definition settlePromise (p : promise) (outcome : settled) (L : Loop) : Loop :=
  match stateOf L p with
  | Pending reactions =>
      enqueue (map (reactionJob outcome) reactions)
        (setState p (Settled outcome) L)
  | Settled _ => L
  end.

(** [p.then(onFulfilled, onRejected)]: the reaction waits while [p] is
    pending and is a job at once when [p] is settled; the result is the
    promise [then] returns. *)
Definition then_ (p : promise) (f : option onFulfilled) (r : option onRejected)
  (L : Loop) : promise * Loop :=
  let '(d, L) := newPromise L in
  (d,
   match stateOf L p with
   | Pending reactions => setState p (Pending (reactions ++ [mkReaction f r d])) L
   | Settled outcome => enqueue [reactionJob outcome (mkReaction f r d)] L
   end).

(** A call of the callback: it is recorded, and what the callback returns is
    taken to be [undefined]; a value that is not a function cannot be
    called. *)
Definition invoke (callback : value) (args : list argument) (L : Loop)
  : (value + reason) * Loop :=
  match callback with
  | VFun _ =>
      (inl VUndef,
       mkLoop (promises L) (jobs L) (transport L) (invocations L ++ [args])%list)
  | _ => (inr TypeError, L)
  end.

Definition callOnFulfilled (h : onFulfilled) (v : value) (L : Loop)
  : (value + reason) * Loop :=
  match h with
  | CallbackWithNull callback => invoke callback [ArgNull; ArgResponse v] L
  | ResolveFunction p => (inl VUndef, settlePromise p (Fulfilled v) L)
  end.

Definition callOnRejected (h : onRejected) (e : reason) (L : Loop)
  : (value + reason) * Loop :=
  match h with
  | Callback callback => invoke callback [ArgError e] L
  | RejectFunction p => (inl VUndef, settlePromise p (Rejected e) L)
  end.

(** The promise [then] returned is settled with what the handler returned
    or threw. *)
Definition settleWith (d : promise) (completion : value + reason) (L : Loop)
  : Loop :=
  match completion with
  | inl v => settlePromise d (Fulfilled v) L
  | inr e => settlePromise d (Rejected e) L
  end.

(** One job.  A reaction without a handler passes the outcome on to the
    promise [then] returned; the job of a thenable calls its [then] with the
    resolving functions of the promise. *)
Definition runJob (j : job) (L : Loop) : Loop :=
  match j with
  | FulfilReaction (Some h) d v =>
      let '(completion, L) := callOnFulfilled h v L in
      settleWith d completion L
  | FulfilReaction None d v => settlePromise d (Fulfilled v) L
  | RejectReaction (Some h) d e =>
      let '(completion, L) := callOnRejected h e L in
      settleWith d completion L
  | RejectReaction None d e => settlePromise d (Rejected e) L
  | ResolveThenable p thenable =>
      snd (then_ thenable (Some (ResolveFunction p)) (Some (RejectFunction p)) L)
  end.

(** What happens once [createAPIRequest] has returned: the next job of the
    queue runs, or the transport settles its promise. *)
Inductive event : Type :=
| Tick
| TransportSettles.

Definition step (L : Loop) (e : event) : Loop :=
  match e with
  | Tick =>
      match jobs L with
      | [] => L
      | j :: rest =>
          runJob j (mkLoop (promises L) rest (transport L) (invocations L))
      end
  | TransportSettles =>
      match transport L with
      | Some (p, outcome) => settlePromise p outcome L
      | None => L
      end
  end.

Definition advance (L : Loop) (schedule : list event) : Loop :=
  fold_left step schedule L.

(** *** createAPIRequestAsync as an async function *)

(** Lines 289-293 with the promise left as it is returned: the request is
    handed to a transport, whose promise is known by what it settles to
    when it does. *)
Definition dispatched (env : Env) (authClient : value) (mergedOptions : obj)
  : M settled :=
  if truthy authClient && match typeof authClient with TObject => true | _ => false end
  then
    match member authClient "request" with
    | VFun _ =>
        record (ClientRequest authClient mergedOptions) ;;
        ret (client_request env authClient mergedOptions)
    | _ => throw TypeError
    end
  else
    record (TransporterRequest mergedOptions) ;;
    ret (transporter_request env mergedOptions).

(** The body of [createAPIRequestAsync] (lines 71-293), run until it
    returns the promise of a transport or throws. *)
Definition createAPIRequestAsync_body (env : Env) : M settled :=
  request <- prepareRequest env ;;
  dispatched env (fst request) (snd request).

(** A call of the async function: its promise is created and the body runs
    at once; a throw rejects the promise, and the promise of a transport
    that the body returns is a thenable, with which a job will resolve the
    promise. *)
Definition callAsync (env : Env) (parameters : APIRequestParams) (L : Loop)
  : promise * Loop * World :=
  let '(p, L) := newPromise L in
  match createAPIRequestAsync_body env (mkWorld parameters []) with
  | (inl outcome, w) =>
      let '(t, L) := newPromise L in
      (p,
       enqueue [ResolveThenable p t]
         (mkLoop (promises L) (jobs L) (Some (t, outcome)) (invocations L)),
       w)
  | (inr e, w) => (p, settlePromise p (Rejected e) L, w)
  end.

(** *** createAPIRequest (lines 59-68) *)

Inductive returned : Type :=
| ReturnsUndefined
| ReturnsPromise (p : promise).

(** What [createAPIRequest] returns, the promises and jobs it leaves, and
    the caller's descriptor and the calls made. *)
Record Outcome : Type := mkOutcome {
  result : returned;
  loop : Loop;
  world : World
}.

Definition isCallable (v : value) : bool :=
  match v with VFun _ => true | _ => false end.

Definition createAPIRequest (env : Env) (parameters : APIRequestParams)
  (callback : value) : Outcome :=
  if truthy callback then
    let '(p, L, w) := callAsync env parameters (mkLoop [] [] None []) in
    let '(_, L) :=
      then_ p (Some (CallbackWithNull callback))
        (if isCallable callback then Some (Callback callback) else None) L in
    mkOutcome ReturnsUndefined L w
  else
    let '(p, L, w) := callAsync env parameters (mkLoop [] [] None []) in
    mkOutcome (ReturnsPromise p) L w.

(** The arguments the callback is to be called with for an outcome: [null]
    and the response, or the error alone. *)
Definition callbackArguments (outcome : settled) : list argument :=
  match outcome with
  | Fulfilled r => [ArgNull; ArgResponse r]
  | Rejected e => [ArgError e]
  end.

(** The promise of the request is or will be settled: the body threw, or
    the transport settles its promise in the schedule. *)
Definition requestSettles (L : Loop) (schedule : list event) : Prop :=
  transport L = None \/ In TransportSettles schedule.

(** ** A concrete environment *)

(** Modelled from the spec: the URL template expander, a collaborator outside
    the repository, as the substitution of [{var}] by the string of the
    variable's value, or by nothing when it has none; the percent-encoding
    and the operators of RFC 6570, such as [{+var}], are left out.  It
    serves the examples only: the theorems hold for every expander. *)
Fixpoint simpleExpand (vars : obj) (name : option string) (template : string)
  : string :=
  match template with
  | EmptyString =>
      match name with
      | Some n => "{" ++ n
      | None => EmptyString
      end
  | String c r =>
      match name with
      | None =>
          if Ascii.eqb c "{" then simpleExpand vars (Some EmptyString) r
          else String c (simpleExpand vars None r)
      | Some n =>
          if Ascii.eqb c "}" then
            match get vars n with
            | VUndef | VNull => EmptyString
            | v => to_string v
            end ++ simpleExpand vars None r
          else simpleExpand vars (Some (n ++ String c EmptyString)) r
      end
  end.

(** A node.js target whose transports answer with the options they are
    given, and whose boundary token is [B]. *)
Definition node : Env :=
  mkEnv false "1.0.0" "B"
    (fun template vars => simpleExpand vars None template)
    (fun _ => "{}")
    (fun _ opts => Fulfilled (VObj opts))
    (fun opts => Fulfilled (VObj opts)).

Definition noContext : APIRequestContext := mkContext None [].


(** A call that gives both a [requestBody] and a parameter named
    [resource]. *)
Definition bodyAndResource : obj :=
  [("requestBody", VObj [("title", VStr "t")]); ("resource", VStr "r")].

(** The [data] of the request that is prepared for a descriptor, when it is
    a stream. *)
Definition requestStream (env : Env) (parameters : APIRequestParams)
  : option Stream :=
  match fst (prepareRequest env (mkWorld parameters [])) with
  | inl (_, mergedOptions) =>
      match get mergedOptions "data" with
      | VStream st => Some st
      | _ => None
      end
  | inr _ => None
  end.

(** An upload of the string [hello] with the metadata [{title: t}]. *)
Definition uploadHello : APIRequestParams :=
  mkParameters []
    [("requestBody", VObj [("title", VStr "t")]);
     ("media", VObj [("body", VStr "hello")])]
    [] [] noContext (Some "https://www.googleapis.com/upload/drive/v3/files").

(** The multipart body with the boundary [B], the metadata [{title: t}],
    the media [hello] and the media type [mediaType]. *)
Definition multipartHello (mediaType : string) : string :=
  "--B" ++ crlf ++ "Content-Type: application/json" ++ crlf ++ crlf
    ++ "{" ++ dquote ++ "title" ++ dquote ++ ":" ++ dquote ++ "t" ++ dquote
    ++ "}" ++ crlf
    ++ "--B" ++ crlf ++ "Content-Type: " ++ mediaType ++ crlf ++ crlf
    ++ "hello" ++ crlf ++ "--B--".

(** The names [getMissingParams] reports for a descriptor. *)
Definition missingParams (parameters : APIRequestParams) : list string :=
  filter (prop_undefined (res_params (resolve parameters)))
    (requiredParams parameters).

(** A call that requires [id] and does not give it. *)
Definition withoutId : APIRequestParams :=
  mkParameters [("url", VStr "https://www.googleapis.com/drive/v3/files/{id}")]
    [("q", VStr "x")] ["id"] ["id"] noContext None.

(** A call whose params are a chain of aliases, [a__] before [a_]. *)
Definition aliasChain : APIRequestParams :=
  mkParameters [] [("a__", VNum 1); ("a_", VNum 2)] [] [] noContext None.

(** A call with a parameter named [resource_] and none named [resource]. *)
Definition resourceAlias : APIRequestParams :=
  mkParameters [] [("resource_", VStr "x"); ("q", VStr "y")] [] [] noContext None.

(** The resolved params: merged, un-aliased, checked and stripped of the
    path parameters (lines 83-173). *)
Definition strippedParams (parameters : APIRequestParams) : obj :=
  stripPathParams (res_params (resolve parameters)) (pathParams parameters).

(** A call whose required parameter [id] is a path parameter. *)
Definition getFile : APIRequestParams :=
  mkParameters [("url", VStr "https://www.googleapis.com/drive/v3/files/{id}")]
    [("id", VStr "42"); ("q", VStr "x")] ["id"] ["id"] noContext None.

(** The loop of [extend] over the properties of one source, as a function of
    its own. *)
Fixpoint extend_each (seen : list string) (t : obj) (es : obj) : obj :=
  match es with
  | [] => t
  | (k, v) :: es' =>
      extend_each (k :: seen)
        (if seen_in k seen then t
         else match v with
              | VUndef => t
              | _ => set_prop t k (merged (get t k) v)
              end)
        es'
  end.

(** ** Relations between the world before and after a computation *)

(** [m] keeps [P]: whatever the world it starts from, the world it leaves is
    related to it by [P]. *)
Definition keeps (P : World -> World -> Prop) {A : Type} (m : M A) : Prop :=
  forall w, P w (snd (m w)).

Definition isExpand (c : call) : Prop :=
  match c with
  | Expand _ _ => True
  | _ => False
  end.

(** Only template expansions were added to the calls. *)
Definition expandsOnly (w w' : World) : Prop :=
  exists added, calls w' = (calls w ++ added)%list /\ Forall isExpand added.



(** A call that gives an empty [key] and the API key [APIKEY] as its
    credential. *)
Definition emptyKey : APIRequestParams :=
  mkParameters [] [("key", VStr ""); ("auth", VStr "APIKEY")] [] []
    noContext None.

(** A call that gives only the API key [APIKEY] as its credential. *)
Definition apiKeyOnly : APIRequestParams :=
  mkParameters [] [("q", VStr "x"); ("auth", VStr "APIKEY")] [] []
    noContext None.



(** The header [name] of the request that is prepared for a descriptor. *)
Definition requestHeader (env : Env) (parameters : APIRequestParams)
  (name : string) : value :=
  match fst (prepareRequest env (mkWorld parameters [])) with
  | inl (_, mergedOptions) => member (get mergedOptions "headers") name
  | inr _ => VUndef
  end.

(** A call that asks for no content encoding. *)
Definition identityEncoding : APIRequestParams :=
  mkParameters [("url", VStr "https://www.googleapis.com/drive/v3/files")]
    [("headers",
      VObj [("Accept-Encoding", VStr "identity"); ("X-Goog-Trace", VStr "1")])]
    [] [] noContext None.

(** The product this client adds to the [User-Agent]. *)
Definition ownProduct (env : Env) : string :=
  "google-api-nodejs-client/" ++ pkg_version env ++ " (gzip)".

(** The condition of the multipart path (lines 181-183): an upload URL that
    expands to a non-empty string, a media body and a request body. *)
Definition isMultipart (env : Env) (parameters : APIRequestParams) : Prop :=
  exists template,
    mediaUrl parameters = Some template /\
    truthy (VStr template) = true /\
    truthy (VStr (expand env template (res_params (resolve parameters)))) = true /\
    truthy (member (res_media (resolve parameters)) "body") = true /\
    truthy (res_resource (resolve parameters)) = true.

(** A multipart upload whose caller supplies headers of its own. *)
Definition uploadWithHeaders : APIRequestParams :=
  mkParameters []
    [("requestBody", VObj [("title", VStr "t")]);
     ("media", VObj [("body", VStr "hello")]);
     ("headers",
      VObj [("Content-Type", VStr "text/csv");
            ("Accept-Encoding", VStr "identity");
            ("X-Goog-Trace", VStr "1")])]
    [] [] noContext (Some "https://www.googleapis.com/upload/drive/v3/files").

(** The request prepared for it on node.js: the credential, the merged
    options and the world. *)
Definition preparedUpload : value * obj * World :=
  Eval vm_compute in
    match prepareRequest node (mkWorld uploadWithHeaders []) with
    | (inl request, w) => (request, w)
    | (inr _, w) => (VUndef, [], w)
    end.

(** The names the program takes out of the params before un-aliasing. *)
Definition reservedNames : list string :=
  ["requestBody"; "media"; "auth"; "headers"].

(** A call that requires a parameter named as a method of every object. *)
Definition requiresToString : APIRequestParams :=
  mkParameters [] [("q", VStr "x")] ["toString"; "id"] [] noContext None.

(** A call that gives its body as [resource], among other params. *)
Definition resourceOnly : obj :=
  [("resource", VObj [("title", VStr "t")]); ("q", VStr "x")].

(** A call that gives [media_] and [q], and a body. *)
Definition mediaAlias : APIRequestParams :=
  mkParameters []
    [("media_", VStr "photo"); ("q", VStr "x");
     ("requestBody", VObj [("title", VStr "t")])]
    [] [] noContext None.

(** The values the deep merge stores as they are: all but [undefined],
    plain objects and arrays. *)
Definition leaf (v : value) : bool :=
  match v with
  | VUndef | VObj _ | VArr _ => false
  | _ => true
  end.

(** [options.url] can be expanded: it is falsy, and left alone, or a
    string. *)
Definition urlExpands (parameters : APIRequestParams) : bool :=
  negb (truthy (get (options parameters) "url"))
  || is_string (get (options parameters) "url").

(** The upload URL once expanded (line 150). *)
Definition expandedMediaUrl (env : Env) (parameters : APIRequestParams)
  : option string :=
  match mediaUrl parameters with
  | Some template =>
      if truthy (VStr template)
      then Some (expand env template (res_params (resolve parameters)))
      else Some template
  | None => None
  end.

(** The condition of the media paths (line 181): an upload URL that expands
    to the non-empty [url], and a media body. *)
Definition isUpload (env : Env) (parameters : APIRequestParams) (url : string)
  : Prop :=
  expandedMediaUrl env parameters = Some url /\
  truthy (VStr url) = true /\
  truthy (member (res_media (resolve parameters)) "body") = true.

(** The per-client default params, as the object they are. *)
Definition clientStore (parameters : APIRequestParams) : obj :=
  match get (_options (context parameters)) "params" with
  | VObj store => store
  | _ => []
  end.

(** The calls that dispatch a request. *)
Definition isRequest (c : call) : Prop :=
  match c with
  | Expand _ _ => False
  | _ => True
  end.

(** A simple media upload: a media body and no request body. *)
Definition uploadMedia : APIRequestParams :=
  mkParameters [("retry", VBool false)]
    [("fileId", VStr "42"); ("q", VStr "x");
     ("media", VObj [("body", VStr "hello"); ("mimeType", VStr "text/csv")])]
    ["fileId"] ["fileId"] noContext
    (Some "https://www.googleapis.com/upload/drive/v3/files/{fileId}").

(** The request prepared for it on node.js. *)
Definition preparedMedia : value * obj * World :=
  Eval vm_compute in
    match prepareRequest node (mkWorld uploadMedia []) with
    | (inl request, w) => (request, w)
    | (inr _, w) => (VUndef, [], w)
    end.

(** The calls stay as they are. *)
Definition sameCalls (w w' : World) : Prop := calls w' = calls w.

(** The per-client default params keep their bindings, but for a [headers]
    object they hold, and gain none. *)
Definition storeKept (w w' : World) : Prop :=
  forall k,
    k <> "headers" \/ lookup (clientStore (caller w)) k = None ->
    lookup (clientStore (caller w')) k = lookup (clientStore (caller w)) k.

(** An OAuth2 client, as the object with a [request] method it is. *)
Definition oauth2Client : value :=
  VObj [("request", VFun "request"); ("credentials", VObj [])].

(** A call to a client with default params and a credential of its own. *)
Definition getWithClient : APIRequestParams :=
  mkParameters [("url", VStr "https://www.googleapis.com/drive/v3/files/{fileId}")]
    [("fileId", VStr "42"); ("auth", oauth2Client)]
    ["fileId"] ["fileId"]
    (mkContext None
       [("params", VObj [("fileId", VStr "7"); ("fields", VStr "id")]);
        ("auth", VStr "APIKEY")])
    None.

(** The request prepared for it on node.js. *)
Definition preparedWithClient : value * obj * World :=
  Eval vm_compute in
    match prepareRequest node (mkWorld getWithClient []) with
    | (inl request, w) => (request, w)
    | (inr _, w) => (VUndef, [], w)
    end.

(** The number of characters read once the chunks are read. *)
Definition totalLength (chunks : list string) : nat :=
  String.length (String.concat "" chunks).

(** A multipart upload of a readable stream. *)
Definition uploadStream : APIRequestParams :=
  mkParameters []
    [("requestBody", VObj [("title", VStr "t")]);
     ("media", VObj [("body", VStream (mkStream ["hel"; "lo"] true None []))])]
    [] [] noContext (Some "https://www.googleapis.com/upload/drive/v3/files").

(** A multipart upload of a media body that is neither a string nor a
    stream. *)
Definition uploadBytes : APIRequestParams :=
  mkParameters []
    [("requestBody", VObj [("title", VStr "t")]);
     ("media", VObj [("body", VArr [VNum 104; VNum 105])])]
    [] [] noContext (Some "https://www.googleapis.com/upload/drive/v3/files").

(** The caller's options stay as they are. *)
Definition sameOptions (w w' : World) : Prop :=
  options (caller w') = options (caller w).

(** The directive this client adds to [userAgentDirectives] (lines
    244-248). *)
Definition ownDirective (env : Env) : value :=
  VObj [("product", VStr "google-api-nodejs-client");
        ("version", VStr (pkg_version env));
        ("comment", VStr "gzip")].

(** A call whose options name a product for the [User-Agent]. *)
Definition withDirectives : APIRequestParams :=
  mkParameters
    [("url", VStr "https://www.googleapis.com/drive/v3/files");
     ("userAgentDirectives",
      VArr [VObj [("product", VStr "my-app"); ("version", VStr "2.0")]])]
    [("q", VStr "x")] [] [] noContext None.

(** The request prepared for it on node.js. *)
Definition preparedDirectives : value * obj * World :=
  Eval vm_compute in
    match prepareRequest node (mkWorld withDirectives []) with
    | (inl request, w) => (request, w)
    | (inr _, w) => (VUndef, [], w)
    end.

(** Lines 251-255: the text of one directive, [product/version] and the
    comment in parentheses when there is one. *)
Definition directiveText (d : value) : string :=
  let line := to_string (member d "product") ++ "/"
                ++ to_string (member d "version") in
  if truthy (member d "comment")
  then line ++ " (" ++ to_string (member d "comment") ++ ")"
  else line.

(** The directives the caller's options give, when they are an array or
    falsy. *)
Definition callerDirectives (parameters : APIRequestParams)
  : option (list value) :=
  match or_else (get (options parameters) "userAgentDirectives") (VArr []) with
  | VArr ds => Some ds
  | _ => None
  end.

(** The request prepared on node.js for the call that gives only an API
    key. *)
Definition preparedApiKey : value * obj * World :=
  Eval vm_compute in
    match prepareRequest node (mkWorld apiKeyOnly []) with
    | (inl request, w) => (request, w)
    | (inr _, w) => (VUndef, [], w)
    end.

(** The request prepared on node.js for the call that reads a file. *)
Definition preparedGetFile : value * obj * World :=
  Eval vm_compute in
    match prepareRequest node (mkWorld getFile []) with
    | (inl request, w) => (request, w)
    | (inr _, w) => (VUndef, [], w)
    end.

(** A call that requires only a parameter named as a method of every
    object, and does not give it. *)
Definition requiresInherited : APIRequestParams :=
  mkParameters [("url", VStr "https://www.googleapis.com/drive/v3/files")]
    [("q", VStr "x")] ["toString"] [] noContext None.

(** The same two aliases, [a_] before [a__]. *)
Definition aliasChainReversed : APIRequestParams :=
  mkParameters [] [("a_", VNum 2); ("a__", VNum 1)] [] [] noContext None.

(** A call whose one parameter is doubly marked. *)
Definition doubleAlias : APIRequestParams :=
  mkParameters [] [("b__", VNum 3)] [] [] noContext None.

(** The values that take a property when one is assigned: all but the
    primitives. *)
Definition takesProperties (v : value) : bool :=
  match v with
  | VObj _ | VArr _ | VFun _ | VStream _ => true
  | _ => false
  end.

(** A multipart upload whose caller supplies headers both in the [headers]
    parameter and in [options.headers]. *)
Definition uploadOverOptions : APIRequestParams :=
  mkParameters
    [("headers",
      VObj [("X-Goog-Trace", VStr "0"); ("X-Goog-Api-Client", VStr "app")])]
    [("requestBody", VObj [("title", VStr "t")]);
     ("media", VObj [("body", VStr "hello")]);
     ("headers",
      VObj [("Content-Type", VStr "text/csv");
            ("Accept-Encoding", VStr "identity");
            ("X-Goog-Trace", VStr "1")])]
    [] [] noContext (Some "https://www.googleapis.com/upload/drive/v3/files").

(** The request prepared for it on node.js. *)
Definition preparedOverOptions : value * obj * World :=
  Eval vm_compute in
    match prepareRequest node (mkWorld uploadOverOptions []) with
    | (inl request, w) => (request, w)
    | (inr _, w) => (VUndef, [], w)
    end.

(** A simple media upload whose caller supplies a [Content-Type] of its
    own. *)
Definition uploadMediaTyped : APIRequestParams :=
  mkParameters []
    [("media", VObj [("body", VStr "a,b"); ("mimeType", VStr "text/csv")]);
     ("headers", VObj [("Content-Type", VStr "application/json")])]
    [] [] noContext (Some "https://www.googleapis.com/upload/drive/v3/files").

(** The request prepared for it on node.js. *)
Definition preparedMediaTyped : value * obj * World :=
  Eval vm_compute in
    match prepareRequest node (mkWorld uploadMediaTyped []) with
    | (inl request, w) => (request, w)
    | (inr _, w) => (VUndef, [], w)
    end.










(** A multipart upload through a client whose default params hold the
    headers and the path parameter [fileId]. *)
Definition uploadWithClient : APIRequestParams :=
  mkParameters [("url", VStr "https://www.googleapis.com/drive/v3/files")]
    [("fileId", VStr "42");
     ("requestBody", VObj [("title", VStr "t")]);
     ("media", VObj [("body", VStr "hello")])]
    ["fileId"] ["fileId"]
    (mkContext (Some [("params", VObj [("fields", VStr "id")])])
       [("params",
         VObj [("fileId", VStr "7");
               ("headers", VObj [("X-Goog-Trace", VStr "1")])]);
        ("retry", VBool false)])
    (Some "https://www.googleapis.com/upload/drive/v3/files/{fileId}").

(** The stages of a request that was handed to a transport, as the job
    queue sees them: the job of the thenable is queued; it has run and the
    promise of the request waits for the transport; the transport has
    settled before that job ran; the reaction that settles the promise of
    the request is queued; that promise is settled and the reaction of
    [then] is queued; all jobs have run. *)
Inductive phase : Type :=
| Waiting
| Listening
| Early
| Adopting
| Notifying
| Finished.

Definition nextPhase (i : phase) (e : event) : phase :=
  match e, i with
  | Tick, Waiting => Listening
  | Tick, Early => Adopting
  | Tick, Adopting => Notifying
  | Tick, Notifying => Finished
  | TransportSettles, Waiting => Early
  | TransportSettles, Listening => Adopting
  | _, _ => i
  end.

Definition transportSettled (i : phase) : bool :=
  match i with
  | Waiting | Listening => false
  | _ => true
  end.

(** The reaction line 64 registers, and the one the job of a thenable
    registers. *)
Definition callbackReaction (callback : value) (d : promise) : reaction :=
  mkReaction (Some (CallbackWithNull callback)) (Some (Callback callback)) d.

Definition adoptReaction (p d : promise) : reaction :=
  mkReaction (Some (ResolveFunction p)) (Some (RejectFunction p)) d.

(** The promises and the jobs at each stage, for a call with a callback:
    the promise of the request, that of the transport, the one [then]
    returns and the one the [then] of the thenable returns. *)
Definition callbackPhase (callback : value) (s : settled) (i : phase) : Loop :=
  match i with
  | Waiting =>
      mkLoop [Pending [callbackReaction callback 2]; Pending []; Pending []]
        [ResolveThenable 0 1] (Some (1, s)) []
  | Listening =>
      mkLoop [Pending [callbackReaction callback 2];
              Pending [adoptReaction 0 3]; Pending []; Pending []]
        [] (Some (1, s)) []
  | Early =>
      mkLoop [Pending [callbackReaction callback 2]; Settled s; Pending []]
        [ResolveThenable 0 1] (Some (1, s)) []
  | Adopting =>
      mkLoop [Pending [callbackReaction callback 2]; Settled s; Pending [];
              Pending []]
        [reactionJob s (adoptReaction 0 3)] (Some (1, s)) []
  | Notifying =>
      mkLoop [Settled s; Settled s; Pending []; Settled (Fulfilled VUndef)]
        [reactionJob s (callbackReaction callback 2)] (Some (1, s)) []
  | Finished =>
      mkLoop [Settled s; Settled s; Settled (Fulfilled VUndef);
              Settled (Fulfilled VUndef)]
        [] (Some (1, s)) [callbackArguments s]
  end.

(** The same for a call without a callback: the promise of the request,
    that of the transport and the one the [then] of the thenable
    returns. *)
Definition promisePhase (s : settled) (i : phase) : Loop :=
  match i with
  | Waiting =>
      mkLoop [Pending []; Pending []] [ResolveThenable 0 1] (Some (1, s)) []
  | Listening =>
      mkLoop [Pending []; Pending [adoptReaction 0 2]; Pending []]
        [] (Some (1, s)) []
  | Early =>
      mkLoop [Pending []; Settled s] [ResolveThenable 0 1] (Some (1, s)) []
  | Adopting =>
      mkLoop [Pending []; Settled s; Pending []]
        [reactionJob s (adoptReaction 0 2)] (Some (1, s)) []
  | Notifying | Finished =>
      mkLoop [Settled s; Settled s; Settled (Fulfilled VUndef)]
        [] (Some (1, s)) []
  end.

(** The promises and the jobs of a request whose body threw, for a call
    with a callback: before and after the reaction of [then] has run. *)
Definition thrownPhase (callback : value) (e : reason) (called : bool) : Loop :=
  if called then
    mkLoop [Settled (Rejected e); Settled (Fulfilled VUndef)] [] None
      [[ArgError e]]
  else
    mkLoop [Settled (Rejected e); Pending []]
      [RejectReaction (Some (Callback callback)) 1 e] None [].

(** A call that gives no parameter and requires none. *)
Definition listFiles : APIRequestParams :=
  mkParameters [("url", VStr "https://www.googleapis.com/drive/v3/files")]
    [("q", VStr "x")] [] [] noContext None.

(** ** Own properties: lookups after an assignment and after a deletion *)

Section Properties.

Implicit Types (o t : obj) (k : string) (v : value).

Lemma lookup_set_prop_eq o k v : lookup (set_prop o k v) k = Some v.
Proof.
  induction o as [|[k' v'] r IH]; simpl.
  - now rewrite String.eqb_refl.
  - destruct (String.eqb_spec k k') as [->|Hne]; simpl.
    + now rewrite String.eqb_refl.
    + destruct (String.eqb_spec k k'); [contradiction | exact IH].
Qed.

Lemma lookup_set_prop_neq o k k' v :
  k <> k' -> lookup (set_prop o k v) k' = lookup o k'.
Proof.
  intros Hne. induction o as [|[k0 v0] r IH]; simpl.
  - destruct (String.eqb_spec k' k); [congruence | reflexivity].
  - destruct (String.eqb_spec k k0) as [->|Hk]; simpl.
    + destruct (String.eqb_spec k' k0); [congruence | reflexivity].
    + destruct (String.eqb_spec k' k0); [reflexivity | exact IH].
Qed.

Lemma lookup_delete_eq o k : lookup (delete o k) k = None.
Proof.
  induction o as [|[k' v'] r IH]; simpl; [reflexivity|].
  destruct (String.eqb_spec k k') as [->|Hne]; simpl; [exact IH|].
  destruct (String.eqb_spec k k'); [contradiction | exact IH].
Qed.

Lemma lookup_delete_neq o k k' :
  k <> k' -> lookup (delete o k) k' = lookup o k'.
Proof.
  intros Hne. induction o as [|[k0 v0] r IH]; simpl; [reflexivity|].
  destruct (String.eqb_spec k k0) as [->|Hk]; simpl.
  - destruct (String.eqb_spec k' k0); [congruence | exact IH].
  - destruct (String.eqb_spec k' k0); [reflexivity | exact IH].
Qed.

Lemma lookup_delete_other o k k' :
  lookup (delete o k) k' = if String.eqb k k' then None else lookup o k'.
Proof.
  destruct (String.eqb_spec k k') as [->|Hne].
  - apply lookup_delete_eq.
  - now apply lookup_delete_neq.
Qed.

Lemma lookup_set_prop o k k' v :
  lookup (set_prop o k v) k' = if String.eqb k k' then Some v else lookup o k'.
Proof.
  destruct (String.eqb_spec k k') as [->|Hne].
  - apply lookup_set_prop_eq.
  - now apply lookup_set_prop_neq.
Qed.

Lemma lookup_In_keys o k v : lookup o k = Some v -> In k (Object_keys o).
Proof.
  induction o as [|[k' v'] r IH]; simpl; [discriminate|].
  destruct (String.eqb_spec k k') as [->|Hne]; auto.
Qed.

Lemma lookup_None_keys o k : lookup o k = None <-> ~ In k (Object_keys o).
Proof.
  induction o as [|[k' v'] r IH]; simpl.
  - tauto.
  - destruct (String.eqb_spec k k') as [->|Hne].
    + split; [discriminate | intros H; exfalso; apply H; now left].
    + rewrite IH. split; intros H; [intros [->|Hin]; tauto | tauto].
Qed.

(** The keys stay without repetition. *)
Lemma keys_set_prop o k v :
  Object_keys (set_prop o k v) =
    if has_own o k then Object_keys o else (Object_keys o ++ [k])%list.
Proof.
  unfold has_own. induction o as [|[k' v'] r IH]; simpl; [reflexivity|].
  destruct (String.eqb_spec k k') as [->|Hne]; simpl; [reflexivity|].
  rewrite IH. now destruct (lookup r k).
Qed.

Lemma NoDup_set_prop o k v :
  NoDup (Object_keys o) -> NoDup (Object_keys (set_prop o k v)).
Proof.
  intros Hnd. rewrite keys_set_prop. unfold has_own.
  destruct (lookup o k) eqn:Hl; [exact Hnd|].
  apply lookup_None_keys in Hl.
  apply NoDup_app; [exact Hnd | repeat constructor; simpl; tauto |].
  intros x Hx [<-|[]]. contradiction.
Qed.

Lemma In_keys_delete o k k' :
  In k' (Object_keys (delete o k)) -> In k' (Object_keys o).
Proof.
  induction o as [|[k0 v0] r IH]; simpl; [tauto|].
  destruct (String.eqb k k0); simpl; tauto.
Qed.

Lemma NoDup_delete o k :
  NoDup (Object_keys o) -> NoDup (Object_keys (delete o k)).
Proof.
  induction o as [|[k0 v0] r IH]; simpl; [trivial|].
  intros Hnd. inversion Hnd as [|? ? Hnotin Hr]; subst.
  destruct (String.eqb k k0); simpl; [auto|].
  constructor; [|auto]. intros Hin. apply Hnotin. eapply In_keys_delete; eauto.
Qed.

End Properties.

(** ** Object.assign *)

Lemma assign_keys_lookup (src : obj) (ks : list string) (t : obj) (k : string) :
  lookup (fold_left (fun t k => set_prop t k (get src k)) ks t) k =
    if existsb (String.eqb k) ks then Some (get src k) else lookup t k.
Proof.
  revert t. induction ks as [|k0 ks IH]; intros t; simpl; [reflexivity|].
  rewrite IH, lookup_set_prop.
  destruct (String.eqb_spec k k0) as [->|Hne]; simpl.
  - rewrite String.eqb_refl. now destruct (existsb _ ks).
  - destruct (String.eqb_spec k0 k); [congruence | reflexivity].
Qed.

Lemma existsb_keys (o : obj) (k : string) :
  existsb (String.eqb k) (Object_keys o) = has_own o k.
Proof.
  unfold has_own. induction o as [|[k' v'] r IH]; simpl; [reflexivity|].
  destruct (String.eqb k k'); simpl; [reflexivity | exact IH].
Qed.

(** A source overwrites what the target has under each of its keys and
    leaves the rest. *)
Lemma lookup_assign_from (t : obj) (source : value) (k : string) :
  lookup (assign_from t source) k =
    match lookup (props_of source) k with
    | Some v => Some v
    | None => lookup t k
    end.
Proof.
  unfold assign_from. rewrite assign_keys_lookup, existsb_keys.
  unfold has_own, get. now destruct (lookup (props_of source) k).
Qed.

Lemma NoDup_assign_from (t : obj) (source : value) :
  NoDup (Object_keys t) -> NoDup (Object_keys (assign_from t source)).
Proof.
  unfold assign_from. generalize (Object_keys (props_of source)) as ks.
  intros ks. revert t. induction ks as [|k0 ks IH]; intros t Hnd; simpl.
  - exact Hnd.
  - apply IH. now apply NoDup_set_prop.
Qed.

Lemma NoDup_Object_assign (t : obj) (sources : list value) :
  NoDup (Object_keys t) -> NoDup (Object_keys (Object_assign t sources)).
Proof.
  unfold Object_assign. revert t.
  induction sources as [|s r IH]; intros t Hnd; simpl; [exact Hnd|].
  apply IH. now apply NoDup_assign_from.
Qed.

(** ** C1: precedence of the parameter sources *)

(** The properties the global default params contribute: those of
    [context.google._options.params] when there is a top-level object and
    the value is truthy. *)
Lemma props_of_topOptions (parameters : APIRequestParams) :
  props_of (topOptions parameters) =
    match google (context parameters) with
    | Some google_options => props_of (get google_options "params")
    | None => []
    end.
Proof.
  unfold topOptions. destruct (google (context parameters)) as [g|];
    [|reflexivity].
  destruct (get g "params") as [| |[|]|n|s| | | |]; try reflexivity.
  - simpl. destruct (Z.eqb_spec n 0); [now subst | reflexivity].
  - simpl. destruct (String.eqb_spec s ""); [now subst | reflexivity].
Qed.

(** C1.  The merged parameter map built at the start of resolution binds
    every key to the per-call value when the per-call params
    ([parameters.params]) have the key, else to the per-client value when
    the per-client default params ([context._options.params]) have it, else
    to the value the global default params ([context.google._options.params])
    have for it, if any; the value is taken as it is, not merged with the
    values of the lower sources. *)
Theorem mergeParams_precedence (parameters : APIRequestParams) (k : string) :
  lookup (mergeParams parameters) k =
    match lookup (params parameters) k with
    | Some perCall => Some perCall
    | None =>
        match
          lookup (props_of (get (_options (context parameters)) "params")) k
        with
        | Some perClient => Some perClient
        | None =>
            match google (context parameters) with
            | Some google_options =>
                lookup (props_of (get google_options "params")) k
            | None => None
            end
        end
    end.
Proof.
  unfold mergeParams, Object_assign. simpl.
  rewrite !lookup_assign_from, props_of_topOptions. unfold clientParams. simpl.
  destruct (lookup (params parameters) k); [reflexivity|].
  destruct (lookup (props_of (get (_options (context parameters)) "params")) k);
    [reflexivity|].
  destruct (google (context parameters)) as [g|]; [|reflexivity].
  now destruct (lookup (props_of (get g "params")) k).
Qed.

(** ** C2: the request body *)

(** With both a [requestBody] and a [resource], the body is the
    [requestBody], which leaves the params, but the [resource] stays in
    them, so it is not true that neither key remains. *)
Lemma resolveBody_keeps_resource :
  ~ (fst (resolveBody bodyAndResource) = VObj [("title", VStr "t")] /\
     lookup (snd (resolveBody bodyAndResource)) "requestBody" = None /\
     lookup (snd (resolveBody bodyAndResource)) "resource" = None).
Proof.
  intros (_ & _ & H). vm_compute in H. discriminate.
Qed.

(** C2, amended.  For a parameter map with a [requestBody] B and a
    [resource] R, body resolution removes [requestBody]; when B is truthy
    the body is B and [resource] stays in the map with the value R; when B
    is falsy the body is R, and [resource] is removed when R is truthy. *)
Theorem resolveBody_both (m : obj) (B R : value) :
  lookup m "requestBody" = Some B ->
  lookup m "resource" = Some R ->
  lookup (snd (resolveBody m)) "requestBody" = None /\
  (truthy B = true ->
     fst (resolveBody m) = B /\
     lookup (snd (resolveBody m)) "resource" = Some R) /\
  (truthy B = false ->
     fst (resolveBody m) = R /\
     (truthy R = true -> lookup (snd (resolveBody m)) "resource" = None)).
Proof.
  intros HB HR. unfold resolveBody, get. rewrite HB, HR. simpl.
  split; [apply lookup_delete_eq|].
  split; intros Ht; rewrite Ht; simpl.
  - split; [reflexivity|].
    rewrite lookup_delete_neq by discriminate. exact HR.
  - split; [reflexivity|]. intros HtR. rewrite HtR.
    rewrite lookup_delete_neq by discriminate. apply lookup_delete_eq.
Qed.

Lemma resolveBody_both_witness :
  lookup (snd (resolveBody bodyAndResource)) "requestBody" = None /\
  (truthy (VObj [("title", VStr "t")]) = true ->
     fst (resolveBody bodyAndResource) = VObj [("title", VStr "t")] /\
     lookup (snd (resolveBody bodyAndResource)) "resource" = Some (VStr "r")) /\
  (truthy (VObj [("title", VStr "t")]) = false ->
     fst (resolveBody bodyAndResource) = VStr "r" /\
     (truthy (VStr "r") = true ->
        lookup (snd (resolveBody bodyAndResource)) "resource" = None)).
Proof.
  apply (resolveBody_both bodyAndResource (VObj [("title", VStr "t")]) (VStr "r"));
    reflexivity.
Defined.

(** ** C3: the multipart body of a string upload *)

Lemma append_assoc (a b c : string) : (a ++ b) ++ c = a ++ b ++ c.
Proof.
  induction a as [|x a IH]; simpl; [reflexivity | now rewrite IH].
Qed.

(** The progress stream forwards the chunks as they are, in order. *)
Lemma throughProgress_forwards (bytesRead : nat) (chunks : list string) :
  map snd (throughProgress bytesRead chunks) = chunks.
Proof.
  revert bytesRead. induction chunks as [|c r IH]; intros n; simpl;
    [reflexivity | now rewrite IH].
Qed.

(** C3.  For a string media body [s], a body payload whose JSON text is
    [json], the default MIME type [defaultMime] and the boundary token [B]
    drawn for the call, each part is pushed as its preamble
    [--B CRLF Content-Type: T CRLF CRLF], its body and a line end, the
    closing delimiter [--B--] is pushed at once and the stream is ended; the
    media part is labelled with the media's [mimeType], else the payload's
    [mimeType], else the default.  So for [hello], the metadata [{title: t}],
    no [mimeType] and the default [application/octet-stream] the content is
    exactly
    [--B CRLF Content-Type: application/json CRLF CRLF {title: t} CRLF
     --B CRLF Content-Type: application/octet-stream CRLF CRLF hello CRLF
     --B--]. *)
Theorem assemble_string_body (env : Env) (media resource : value)
  (s json defaultMime : string) (w : World) :
  member media "body" = VStr s ->
  JSON_stringify (stream_json env) resource = Some json ->
  exists st,
    assemble env media resource defaultMime w = (inl st, w) /\
    ended st = true /\
    piped st = None /\
    pushed st =
      ["--" ++ uuid_v4 env ++ crlf ++ "Content-Type: application/json"
         ++ crlf ++ crlf;
       json; crlf;
       "--" ++ uuid_v4 env ++ crlf ++ "Content-Type: "
         ++ to_string
              (or_else (member media "mimeType")
                 (or_else (member resource "mimeType") (VStr defaultMime)))
         ++ crlf ++ crlf;
       s; crlf;
       "--" ++ uuid_v4 env ++ "--"] /\
    stream_content st =
      "--" ++ uuid_v4 env ++ crlf ++ "Content-Type: application/json"
        ++ crlf ++ crlf ++ json ++ crlf
        ++ "--" ++ uuid_v4 env ++ crlf ++ "Content-Type: "
        ++ to_string
             (or_else (member media "mimeType")
                (or_else (member resource "mimeType") (VStr defaultMime)))
        ++ crlf ++ crlf ++ s ++ crlf ++ "--" ++ uuid_v4 env ++ "--".
Proof.
  intros Hbody Hjson.
  unfold assemble, stringified. rewrite Hbody, Hjson. simpl.
  eexists. split; [reflexivity|]. split; [reflexivity|].
  split; [reflexivity|].
  split; [cbn; rewrite ?append_assoc; reflexivity|].
  unfold stream_content, stream_chunks. simpl.
  rewrite !append_assoc. simpl. rewrite !append_assoc. simpl.
  reflexivity.
Qed.

Lemma assemble_string_body_witness :
  exists st,
    assemble node (VObj [("body", VStr "hello")]) (VObj [("title", VStr "t")])
      "application/octet-stream" (mkWorld uploadHello [])
      = (inl st, mkWorld uploadHello []) /\
    ended st = true /\
    piped st = None /\
    pushed st =
      ["--B" ++ crlf ++ "Content-Type: application/json" ++ crlf ++ crlf;
       "{" ++ dquote ++ "title" ++ dquote ++ ":" ++ dquote ++ "t" ++ dquote
         ++ "}";
       crlf;
       "--B" ++ crlf ++ "Content-Type: application/octet-stream" ++ crlf
         ++ crlf;
       "hello"; crlf; "--B--"] /\
    stream_content st = multipartHello "application/octet-stream".
Proof.
  apply (assemble_string_body node (VObj [("body", VStr "hello")])
           (VObj [("title", VStr "t")]) "hello"
           ("{" ++ dquote ++ "title" ++ dquote ++ ":" ++ dquote ++ "t"
              ++ dquote ++ "}") "application/octet-stream"
           (mkWorld uploadHello []));
    reflexivity.
Defined.

(** In a request, the default is computed from the media body (lines
    119-120): with no media type given, the media part of a string upload
    is labelled [text/plain]. *)
Lemma multipart_default_is_text_plain :
  option_map stream_content (requestStream node uploadHello)
    = Some (multipartHello "text/plain").
Proof.
  vm_compute. reflexivity.
Qed.

(** ** C4: missing required parameters *)

Lemma getMissingParams_Some (params : obj) (required : list string) (name : string) :
  In name required ->
  prop_undefined params name = true ->
  getMissingParams params required
    = Some (filter (prop_undefined params) required).
Proof.
  intros Hin Hundef. unfold getMissingParams.
  destruct (filter (prop_undefined params) required) eqn:Hf; [|reflexivity].
  assert (Hx : In name (filter (prop_undefined params) required))
    by (apply filter_In; auto).
  rewrite Hf in Hx. destruct Hx.
Qed.

(** C4.  A required name that the resolved params do not hold passes the
    check when every object inherits a property of that name: for the call
    that requires [toString] and gives only [q], the resolved params have
    no [toString], yet no name is reported missing, the request is not
    rejected and goes to the transporter; and where [toString] and [id] are
    both required and both absent, the error lists [id] alone. *)
Theorem inherited_required_name_passes :
  lookup (res_params (resolve requiresInherited)) "toString" = None /\
  getMissingParams (res_params (resolve requiresInherited))
    (requiredParams requiresInherited) = None /\
  (exists response opts,
     fst (run node requiresInherited) = Fulfilled response /\
     In (TransporterRequest opts) (calls (snd (run node requiresInherited)))) /\
  lookup (res_params (resolve requiresToString)) "toString" = None /\
  fst (run node requiresToString)
    = Rejected (Error "Missing required parameters: id").
Proof.
  split; [reflexivity|]. split; [reflexivity|].
  split; [|split; [reflexivity | vm_compute; reflexivity]].
  destruct (run node requiresInherited) as [promise w] eqn:Hrun.
  vm_compute in Hrun. injection Hrun as <- <-.
  do 2 eexists. split; [reflexivity|]. simpl. right. left. reflexivity.
Qed.

(** X24.  When some required name reads as [undefined] in the params as
    they are after merging, extraction and un-aliasing
    ([params[name] === undefined], a read that goes through
    [Object.prototype]), the request is rejected with the error that lists
    exactly those required names, in the order of [requiredParams]; nothing
    was expanded or dispatched and the caller's descriptor is as it was.
    With [id] the one required name, the error lists exactly [id]. *)
Theorem missing_required_parameters (env : Env) (parameters : APIRequestParams) :
  (exists name,
     In name (requiredParams parameters) /\
     prop_undefined (res_params (resolve parameters)) name = true) ->
  run env parameters =
    (Rejected
       (Error ("Missing required parameters: "
                 ++ join ", " (missingParams parameters))),
     mkWorld parameters []) /\
  (requiredParams parameters = ["id"] ->
   fst (run env parameters) = Rejected (Error "Missing required parameters: id")).
Proof.
  intros (name & Hin & Hundef).
  assert (Hrun : run env parameters =
    (Rejected
       (Error ("Missing required parameters: "
                 ++ join ", " (missingParams parameters))),
     mkWorld parameters [])).
  { unfold run, createAPIRequestAsync, prepareRequest, bind, read.
    cbn [caller fst].
    rewrite (getMissingParams_Some _ _ name Hin Hundef). reflexivity. }
  split; [exact Hrun|].
  intros Hreq. rewrite Hrun. cbn [fst]. unfold missingParams.
  rewrite Hreq in Hin |- *. destruct Hin as [<-|[]].
  cbn [filter]. rewrite Hundef. reflexivity.
Qed.

Lemma missing_required_parameters_witness :
  run node withoutId =
    (Rejected
       (Error ("Missing required parameters: "
                 ++ join ", " (missingParams withoutId))),
     mkWorld withoutId []) /\
  (requiredParams withoutId = ["id"] ->
   fst (run node withoutId) = Rejected (Error "Missing required parameters: id")).
Proof.
  apply (missing_required_parameters node withoutId).
  exists "id". split; [simpl; auto | reflexivity].
Defined.

(** ** The un-aliasing loop *)

Lemma slice_last_app (k : string) : slice_last (k ++ "_") = "_".
Proof.
  induction k as [|c k IH]; simpl; [reflexivity|].
  rewrite IH. now destruct k.
Qed.

Lemma slice_init_app (k : string) : slice_init (k ++ "_") = k.
Proof.
  induction k as [|c k IH]; simpl; [reflexivity|].
  rewrite IH. now destruct k.
Qed.

Lemma slice_split (k : string) :
  slice_last k = "_" -> k = slice_init k ++ "_".
Proof.
  induction k as [|c k IH]; simpl; [discriminate|].
  destruct k as [|c' k'].
  - now intros [= ->].
  - intros H. simpl. f_equal. exact (IH H).
Qed.

Lemma lookup_unaliasKey (m : obj) (j x : string) :
  lookup (unaliasKey m j) x =
    if String.eqb (slice_last j) "_" then
      if String.eqb j x then None
      else if String.eqb (slice_init j) x then Some (get m j)
      else lookup m x
    else lookup m x.
Proof.
  unfold unaliasKey. destruct (String.eqb (slice_last j) "_"); [|reflexivity].
  rewrite lookup_delete_other. destruct (String.eqb j x); [reflexivity|].
  apply lookup_set_prop.
Qed.

(** A key that no step of the loop deletes or writes keeps its binding. *)
Lemma lookup_unalias_frame (ks : list string) (m : obj) (x : string) :
  (forall j, In j ks -> slice_last j = "_" -> j <> x /\ slice_init j <> x) ->
  lookup (fold_left unaliasKey ks m) x = lookup m x.
Proof.
  revert m. induction ks as [|j ks IH]; intros m Hks; simpl; [reflexivity|].
  rewrite IH by (intros j' Hj'; apply Hks; now right).
  rewrite lookup_unaliasKey.
  destruct (String.eqb_spec (slice_last j) "_") as [Hm|]; [|reflexivity].
  destruct (Hks j (or_introl eq_refl) Hm) as [H1 H2].
  destruct (String.eqb_spec j x); [contradiction|].
  destruct (String.eqb_spec (slice_init j) x); [contradiction | reflexivity].
Qed.

Lemma append_mark_neq (a : string) : a ++ "_" <> a.
Proof.
  induction a as [|c a IH]; simpl; [discriminate|].
  intros [= H]. exact (IH H).
Qed.

(** The renaming of one key by the loop, for a map without repeated keys. *)
Lemma unalias_renames_key (m : obj) (k : string) (v : value) :
  NoDup (Object_keys m) ->
  lookup m k = Some v ->
  slice_last k = "_" ->
  lookup m (slice_init k) = None \/ slice_last (slice_init k) <> "_" ->
  lookup m (k ++ "_") = None ->
  lookup (unalias m) (slice_init k) = Some v /\ lookup (unalias m) k = None.
Proof.
  intros Hnd Hk Hmark Hbase Hnext. unfold unalias.
  assert (Hin : In k (Object_keys m)) by (eapply lookup_In_keys; eauto).
  apply lookup_None_keys in Hnext.
  assert (Hbase' : In (slice_init k) (Object_keys m) ->
                   slice_last (slice_init k) <> "_").
  { intros Hi. destruct Hbase as [Hb|Hb]; [|exact Hb].
    apply lookup_None_keys in Hb. contradiction. }
  destruct (in_split _ _ Hin) as (l1 & l2 & Hsplit).
  rewrite Hsplit in Hnd, Hnext, Hbase' |- *.
  assert (Hk1 : ~ In k l1 /\ ~ In k l2).
  { apply NoDup_remove_2 in Hnd. rewrite in_app_iff in Hnd. tauto. }
  assert (Hstep : forall l, ~ In k l -> ~ In (k ++ "_") l ->
            incl l (l1 ++ k :: l2) ->
            forall j, In j l -> slice_last j = "_" ->
              (j <> k /\ slice_init j <> k) /\
              (j <> slice_init k /\ slice_init j <> slice_init k)).
  { intros l Hkl Hnl Hincl j Hj Hjm. repeat split.
    - intros ->. contradiction.
    - intros Heq. apply Hnl. rewrite <- Heq, <- (slice_split j Hjm). exact Hj.
    - intros ->. exact (Hbase' (Hincl _ Hj) Hjm).
    - intros Heq. apply Hkl.
      rewrite (slice_split k Hmark), <- Heq, <- (slice_split j Hjm). exact Hj. }
  assert (Hn1 : ~ In (k ++ "_") l1 /\ ~ In (k ++ "_") l2).
  { split; intros H; apply Hnext; rewrite in_app_iff; simpl; tauto. }
  assert (Hi1 : incl l1 (l1 ++ k :: l2)) by (apply incl_appl, incl_refl).
  assert (Hi2 : incl l2 (l1 ++ k :: l2))
    by (apply incl_appr, incl_tl, incl_refl).
  rewrite fold_left_app. simpl.
  set (m1 := fold_left unaliasKey l1 m).
  assert (Hm1 : lookup m1 k = Some v).
  { unfold m1. rewrite lookup_unalias_frame; [exact Hk|].
    intros j Hj Hjm. apply (Hstep l1); tauto. }
  split.
  - rewrite lookup_unalias_frame
      by (intros j Hj Hjm; apply (Hstep l2); tauto).
    rewrite lookup_unaliasKey, Hmark. simpl.
    destruct (String.eqb_spec k (slice_init k)) as [Heq|_].
    + exfalso. apply (append_mark_neq (slice_init k)).
      rewrite <- (slice_split k Hmark). exact Heq.
    + rewrite String.eqb_refl. unfold get. now rewrite Hm1.
  - rewrite lookup_unalias_frame
      by (intros j Hj Hjm; apply (Hstep l2); tauto).
    rewrite lookup_unaliasKey, Hmark. simpl. now rewrite String.eqb_refl.
Qed.

Lemma res_params_resolve (parameters : APIRequestParams) :
  res_params (resolve parameters) = unalias (extracted parameters).
Proof.
  unfold resolve, extracted.
  now destruct (resolveBody (mergeParams parameters)).
Qed.

Lemma NoDup_extracted (parameters : APIRequestParams) :
  NoDup (Object_keys (extracted parameters)).
Proof.
  unfold extracted, resolveBody. cbn [snd].
  repeat apply NoDup_delete.
  destruct (_ && _); repeat apply NoDup_delete;
    apply NoDup_Object_assign; constructor.
Qed.

(** ** C7: un-aliasing *)

(** C7.  In a chain of aliases the loop renames the value of the wrong key.
    With the params [a__: 1] and then [a_: 2], both keys end with [_]; the
    first step overwrites [a_] with the value of [a__] and the second
    renames that, so the params end as [a: 1] alone: the value of [a_] is
    lost.  With the same two params in the other order each key is renamed
    by stripping its mark, [a_] to [a] and [a__] to [a_]. *)
Theorem unalias_chain_loses_value :
  lookup (extracted aliasChain) "a__" = Some (VNum 1) /\
  lookup (extracted aliasChain) "a_" = Some (VNum 2) /\
  slice_last "a_" = "_" /\
  slice_init "a_" = "a" /\
  res_params (resolve aliasChain) = [("a", VNum 1)] /\
  res_params (resolve aliasChainReversed) = [("a", VNum 2); ("a_", VNum 1)].
Proof.
  repeat split; vm_compute; reflexivity.
Qed.

(** X25.  For every key [k] that remains after the extraction of body,
    media, auth and headers and ends with [_], provided [k] followed by
    [_] is not itself a key and [k] without its last character is not a
    key that ends with [_], un-aliasing binds [k] without its last
    character to the value of [k], whatever was bound there before, and
    removes [k]; so a parameter [resource_], with no [resource__] beside
    it, yields [resource] with its value and no [resource_], and [b__]
    alone yields [b_]. *)
Theorem unalias_renames (parameters : APIRequestParams) (k : string) (v : value) :
  lookup (extracted parameters) k = Some v ->
  slice_last k = "_" ->
  lookup (extracted parameters) (slice_init k) = None
    \/ slice_last (slice_init k) <> "_" ->
  lookup (extracted parameters) (k ++ "_") = None ->
  lookup (res_params (resolve parameters)) (slice_init k) = Some v /\
  lookup (res_params (resolve parameters)) k = None.
Proof.
  intros Hk Hmark Hbase Hnext. rewrite res_params_resolve.
  apply unalias_renames_key; auto using NoDup_extracted.
Qed.

Lemma unalias_renames_witness :
  (lookup (res_params (resolve resourceAlias)) "resource" = Some (VStr "x") /\
   lookup (res_params (resolve resourceAlias)) "resource_" = None) /\
  (lookup (res_params (resolve doubleAlias)) "b_" = Some (VNum 3) /\
   lookup (res_params (resolve doubleAlias)) "b__" = None).
Proof.
  split.
  - apply (unalias_renames resourceAlias "resource_" (VStr "x"));
      [reflexivity | reflexivity | right; simpl; discriminate | reflexivity].
  - apply (unalias_renames doubleAlias "b__" (VNum 3));
      [reflexivity | reflexivity | left; reflexivity | reflexivity].
Defined.

(** ** C6: the resolved params *)

Lemma lookup_stripPathParams (m : obj) (ps : list string) (k : string) :
  lookup (stripPathParams m ps) k =
    if existsb (String.eqb k) ps then None else lookup m k.
Proof.
  unfold stripPathParams. revert m.
  induction ps as [|p ps IH]; intros m; simpl; [reflexivity|].
  rewrite IH, lookup_delete_other, (String.eqb_sym k p).
  destruct (existsb (String.eqb k) ps); [now rewrite orb_true_r|].
  now rewrite orb_false_r.
Qed.

Lemma existsb_eqb_In (k : string) (l : list string) :
  existsb (String.eqb k) l = true <-> In k l.
Proof.
  rewrite existsb_exists. split.
  - intros (x & Hx & Heq). apply String.eqb_eq in Heq. now subst.
  - intros H. exists k. split; [exact H | apply String.eqb_refl].
Qed.






(** ** The deep merge *)

Lemma merged_obj (src : value) (co : obj) :
  merged src (VObj co) =
    VObj (extend_each [] (match src with VObj so => so | _ => [] end) co).
Proof.
  reflexivity.
Qed.

Lemma extend_from_each (t : obj) (source : value) :
  extend_from t source = extend_each [] t (props_of source).
Proof.
  unfold extend_from. now rewrite merged_obj.
Qed.

(** What the loop leaves under a key: the first binding of the key in the
    source, merged into what the target had, unless that binding is
    [undefined] or the key was met before. *)
Lemma lookup_extend_each (seen : list string) (t es : obj) (k : string) :
  lookup (extend_each seen t es) k =
    if seen_in k seen then lookup t k
    else match lookup es k with
         | None | Some VUndef => lookup t k
         | Some v => Some (merged (get t k) v)
         end.
Proof.
  revert seen t. induction es as [|[k0 v0] es IH]; intros seen t; simpl.
  - now destruct (seen_in k seen).
  - rewrite IH. unfold seen_in at 1. simpl. fold (seen_in k seen).
    destruct (String.eqb_spec k k0) as [->|Hne]; simpl.
    + destruct (seen_in k0 seen); [reflexivity|].
      destruct v0; try reflexivity; now rewrite lookup_set_prop_eq.
    + destruct (seen_in k0 seen), (seen_in k seen); try reflexivity;
        destruct v0; try reflexivity;
        unfold get; rewrite lookup_set_prop_neq by congruence; reflexivity.
Qed.

Lemma lookup_extend_from (t : obj) (source : value) (k : string) :
  lookup (extend_from t source) k =
    match lookup (props_of source) k with
    | None | Some VUndef => lookup t k
    | Some v => Some (merged (get t k) v)
    end.
Proof.
  rewrite extend_from_each, lookup_extend_each. reflexivity.
Qed.

(** ** The effects of the phases *)

Section Keeps.

Variable P : World -> World -> Prop.
Hypothesis P_refl : forall w, P w w.
Hypothesis P_trans : forall a b c, P a b -> P b c -> P a c.

Lemma keeps_ret {A} (a : A) : keeps P (ret a).
Proof. intros w. apply P_refl. Qed.

Lemma keeps_throw {A} (e : reason) : keeps P (@throw A e).
Proof. intros w. apply P_refl. Qed.

Lemma keeps_read : keeps P read.
Proof. intros w. apply P_refl. Qed.

Lemma keeps_settle (p : settled) : keeps P (settle p).
Proof. destruct p; [apply keeps_ret | apply keeps_throw]. Qed.

Lemma keeps_bind {A B} (m : M A) (k : A -> M B) :
  keeps P m -> (forall a, keeps P (k a)) -> keeps P (bind m k).
Proof.
  intros Hm Hk w. unfold bind. specialize (Hm w).
  destruct (m w) as [[a|e] w1]; simpl in *; [|exact Hm].
  eapply P_trans; [exact Hm | apply Hk].
Qed.

(** The writes and the calls of the phases that follow the expansion of the
    URLs. *)
Hypothesis P_strip : forall ps, keeps P (write (stripContext ps)).
Hypothesis P_headers : forall o h, keeps P (write (shareHeaders o h)).
Hypothesis P_option : forall k v,
  k = "headers" \/ k = "userAgentDirectives" ->
  keeps P (write (fun p => with_options (set_existing (options p) k v) p)).

Ltac keeps_step :=
  match goal with
  | |- keeps _ (bind _ _) => apply keeps_bind; [|intro]
  | |- keeps _ (ret _) => apply keeps_ret
  | |- keeps _ (throw _) => apply keeps_throw
  | |- keeps _ read => apply keeps_read
  | |- keeps _ (settle _) => apply keeps_settle
  | |- keeps _ (write (stripContext _)) => apply P_strip
  | |- keeps _ (write (shareHeaders _ _)) => apply P_headers
  | |- keeps _ (write (fun p => with_options _ _)) => apply P_option; auto
  | |- keeps _ (if ?b then _ else _) => destruct b
  | |- keeps _ (match ?x with _ => _ end) => destruct x
  end.

Lemma keeps_shareOption (shared : bool) (k : string) (v : value) :
  k = "headers" \/ k = "userAgentDirectives" ->
  keeps P (shareOption shared k v).
Proof. intros Hk. unfold shareOption. repeat keeps_step. Qed.

Lemma keeps_assignHeader (o : owner) (headers : value) (k : string) (v : value) :
  keeps P (assignHeader o headers k v).
Proof. unfold assignHeader. repeat keeps_step. Qed.

Lemma keeps_assignHeaders (o : owner) (headers : value) (k : string) (v : value) :
  keeps P (assignHeaders o headers k v).
Proof.
  unfold assignHeaders.
  destruct headers; try apply keeps_ret; apply keeps_assignHeader.
Qed.

Lemma keeps_pushPart (boundary : string) (st : Stream) (ct body : value) :
  keeps P (pushPart boundary st ct body).
Proof. unfold pushPart. repeat keeps_step. Qed.

Lemma keeps_assemble (env : Env) (media resource : value) (dm : string) :
  keeps P (assemble env media resource dm).
Proof.
  unfold assemble. cbv zeta.
  apply keeps_bind; [apply keeps_pushPart | intro].
  apply keeps_bind; [apply keeps_pushPart | intro].
  apply keeps_ret.
Qed.

Lemma keeps_materializeBody (env : Env) (o : owner) (mediaUrl : option string)
  (r : Resolution) (params options : obj) :
  keeps P (materializeBody env o mediaUrl r params options).
Proof.
  unfold materializeBody. cbv zeta.
  destruct mediaUrl as [url|]; [|apply keeps_ret].
  destruct (truthy (VStr url) && truthy (member (res_media r) "body"));
    [|apply keeps_ret].
  destruct (truthy (res_resource r)).
  - apply keeps_bind; [apply keeps_assignHeader | intro].
    apply keeps_bind; [apply keeps_assemble | intro]. apply keeps_ret.
  - apply keeps_bind; [apply keeps_assignHeaders | intro]. apply keeps_ret.
Qed.

Lemma keeps_directiveLine (d : value) : keeps P (directiveLine d).
Proof. unfold directiveLine. destruct d; repeat keeps_step. Qed.

Lemma keeps_directiveLines (ds : list value) : keeps P (directiveLines ds).
Proof.
  induction ds as [|d ds IH]; simpl; [apply keeps_ret|].
  apply keeps_bind; [apply keeps_directiveLine | intro].
  apply keeps_bind; [exact IH | intro]. apply keeps_ret.
Qed.

Lemma keeps_assembleHeaders (env : Env) (options : obj) (headers : value)
  (params : obj) :
  keeps P (assembleHeaders env options headers params).
Proof.
  unfold assembleHeaders. cbv zeta.
  apply keeps_bind; [apply keeps_shareOption; auto | intro].
  destruct (isBrowser env); [apply keeps_ret|].
  apply keeps_bind; [apply keeps_shareOption; auto | intro].
  match goal with |- keeps _ (match ?x with _ => _ end) => destruct x end;
    try apply keeps_throw.
  apply keeps_bind; [apply keeps_shareOption; auto | intro].
  apply keeps_bind; [apply keeps_directiveLines | intro].
  apply keeps_bind; [apply keeps_shareOption; auto | intro].
  apply keeps_ret.
Qed.

Lemma keeps_completeRequest (env : Env) (parameters : APIRequestParams)
  (r : Resolution) (options : obj) (mediaUrl : option string) :
  keeps P (completeRequest env parameters r options mediaUrl).
Proof.
  unfold completeRequest. cbv zeta.
  apply keeps_bind; [apply P_strip | intro].
  destruct (injectKey _ _) as [params authClient].
  apply keeps_bind; [apply keeps_materializeBody | intros [[? ?] ?]].
  apply keeps_bind; [apply keeps_assembleHeaders | intro].
  apply keeps_bind; [apply keeps_read | intro]. apply keeps_ret.
Qed.

(** The calls and the write of the expansion of the URLs. *)
Hypothesis P_expand : forall t vars, keeps P (record (Expand t vars)).

Lemma keeps_expandUrl (env : Env) (template : value) (params : obj) :
  keeps P (expandUrl env template params).
Proof.
  unfold expandUrl. destruct template; try apply keeps_throw.
  apply keeps_bind; [apply P_expand | intro]. apply keeps_ret.
Qed.

Hypothesis P_mediaUrl : forall u, keeps P (write (with_mediaUrl u)).

Lemma keeps_expandUrls (env : Env) (parameters : APIRequestParams)
  (options params : obj) :
  keeps P (expandUrls env parameters options params).
Proof.
  unfold expandUrls.
  apply keeps_bind.
  { destruct (truthy _); [|apply keeps_ret].
    apply keeps_bind; [apply keeps_expandUrl | intro]. apply keeps_ret. }
  intro. apply keeps_bind; [|intro; apply keeps_ret].
  destruct (mediaUrl parameters) as [t|]; [|apply keeps_ret].
  destruct (truthy (VStr t)); [|apply keeps_ret].
  apply keeps_bind; [apply keeps_expandUrl | intro].
  apply keeps_bind; [apply P_mediaUrl | intro]. apply keeps_ret.
Qed.

Lemma keeps_prepareRequest (env : Env) : keeps P (prepareRequest env).
Proof.
  unfold prepareRequest.
  apply keeps_bind; [apply keeps_read | intro parameters]. cbv zeta.
  destruct (getMissingParams _ _); [apply keeps_throw|].
  apply keeps_bind; [apply keeps_expandUrls | intro].
  apply keeps_completeRequest.
Qed.

End Keeps.

Lemma expandsOnly_refl (w : World) : expandsOnly w w.
Proof. exists []. now rewrite app_nil_r. Qed.

Lemma expandsOnly_trans (a b c : World) :
  expandsOnly a b -> expandsOnly b c -> expandsOnly a c.
Proof.
  intros (l1 & H1 & F1) (l2 & H2 & F2). exists (l1 ++ l2)%list.
  rewrite H2, H1, app_assoc. split; [reflexivity | now apply Forall_app].
Qed.

(** Before the dispatch, the only calls are expansions of templates. *)
Lemma prepareRequest_expandsOnly (env : Env) :
  keeps expandsOnly (prepareRequest env).
Proof.
  apply keeps_prepareRequest;
    try exact expandsOnly_refl; try exact expandsOnly_trans;
    unfold keeps; intros; simpl;
    first [ exists []; simpl; rewrite app_nil_r; split; [reflexivity | constructor]
          | eexists; split; [reflexivity | repeat constructor] ].
Qed.











(** ** C8: a string credential is an API key *)

Lemma bind_inl {A B} (m : M A) (k : A -> M B) (w w' : World) (b : B) :
  bind m k w = (inl b, w') ->
  exists a w1, m w = (inl a, w1) /\ k a w1 = (inl b, w').
Proof.
  unfold bind. destruct (m w) as [[a|e] w1]; [|discriminate].
  intros H. now exists a, w1.
Qed.

Lemma completeRequest_credential (env : Env) (parameters : APIRequestParams)
  (r : Resolution) (options : obj) (mediaUrl : option string)
  (w w' : World) (a : value) (opts : obj) :
  completeRequest env parameters r options mediaUrl w = (inl (a, opts), w') ->
  a = snd (injectKey
             (stripPathParams (res_params r) (pathParams parameters))
             (res_authClient r)).
Proof.
  unfold completeRequest. cbv zeta. intros H.
  apply bind_inl in H. destruct H as (_ & w1 & _ & H).
  destruct (injectKey _ _) as [params authClient]. simpl.
  apply bind_inl in H. destruct H as ([[? ?] ?] & w2 & _ & H).
  apply bind_inl in H. destruct H as (? & w3 & _ & H).
  apply bind_inl in H. destruct H as (? & w4 & _ & H).
  unfold ret in H. congruence.
Qed.

Lemma prepareRequest_credential (env : Env) (parameters : APIRequestParams)
  (w' : World) (a : value) (opts : obj) :
  prepareRequest env (mkWorld parameters []) = (inl (a, opts), w') ->
  a = snd (injectKey (strippedParams parameters)
             (res_authClient (resolve parameters))).
Proof.
  unfold prepareRequest. intros H.
  apply bind_inl in H. destruct H as (p & w1 & Hread & H).
  unfold read in Hread. simpl in Hread. injection Hread as <- <-.
  cbv zeta in H. destruct (getMissingParams _ _); [discriminate|].
  apply bind_inl in H. destruct H as (? & w2 & _ & H).
  now apply completeRequest_credential in H.
Qed.

Lemma run_prepared (env : Env) (parameters : APIRequestParams)
  (w : World) (a : value) (opts : obj) :
  prepareRequest env (mkWorld parameters []) = (inl (a, opts), w) ->
  run env parameters =
    match dispatch env a opts w with
    | (inl response, w') => (Fulfilled response, w')
    | (inr e, w') => (Rejected e, w')
    end.
Proof.
  intros H. unfold run, createAPIRequestAsync, bind. now rewrite H.
Qed.

Lemma run_not_prepared (env : Env) (parameters : APIRequestParams)
  (w : World) (e : reason) :
  prepareRequest env (mkWorld parameters []) = (inr e, w) ->
  run env parameters = (Rejected e, w).
Proof.
  intros H. unfold run, createAPIRequestAsync, bind. now rewrite H.
Qed.

(** An empty [key] given by the caller is replaced by the API key. *)
Lemma api_key_replaces_empty_key :
  res_authClient (resolve emptyKey) = VStr "APIKEY" /\
  lookup (strippedParams emptyKey) "key" = Some (VStr "") /\
  get (resolvedParams emptyKey) "key" <> VStr "".
Proof.
  split; [reflexivity|]. split; [reflexivity|]. vm_compute. discriminate.
Qed.

(** C8, amended.  When the resolved credential is a string, it is stored in
    the params under [key] unless they hold a truthy [key] already, which
    then stays (a caller's [key] that is falsy is replaced); the other
    params are untouched; the credential is cleared, no request goes to a
    credential capability and a request that is dispatched goes to the
    default transporter. *)
Theorem string_credential_is_api_key (env : Env) (parameters : APIRequestParams)
  (s : string) :
  res_authClient (resolve parameters) = VStr s ->
  get (resolvedParams parameters) "key" =
    (if truthy (get (strippedParams parameters) "key")
     then get (strippedParams parameters) "key"
     else VStr s) /\
  (forall k, k <> "key" ->
     lookup (resolvedParams parameters) k
       = lookup (strippedParams parameters) k) /\
  (forall client opts,
     ~ In (ClientRequest client opts) (calls (snd (run env parameters)))) /\
  (forall a opts w,
     prepareRequest env (mkWorld parameters []) = (inl (a, opts), w) ->
     a = VUndef /\
     run env parameters =
       (transporter_request env opts,
        mkWorld (caller w) (calls w ++ [TransporterRequest opts])%list)).
Proof.
  intros Hcred.
  assert (Hprep : forall a opts w,
    prepareRequest env (mkWorld parameters []) = (inl (a, opts), w) ->
    a = VUndef /\
    run env parameters =
      (transporter_request env opts,
       mkWorld (caller w) (calls w ++ [TransporterRequest opts])%list)).
  { intros a opts w H.
    assert (Ha : a = VUndef).
    { rewrite (prepareRequest_credential _ _ _ _ _ H), Hcred. reflexivity. }
    split; [exact Ha|]. rewrite (run_prepared _ _ _ _ _ H). subst a.
    unfold dispatch, bind, record, settle. simpl.
    now destruct (transporter_request env opts). }
  unfold resolvedParams, strippedParams in *. rewrite Hcred. simpl.
  split; [|split; [|split; [|exact Hprep]]].
  - unfold get at 1. rewrite lookup_set_prop_eq. reflexivity.
  - intros k Hk. now apply lookup_set_prop_neq.
  - intros client opts Hin.
    destruct (prepareRequest env (mkWorld parameters [])) as [[[a o]|e] w] eqn:H.
    + destruct (Hprep _ _ _ eq_refl) as [_ Hrun]. rewrite Hrun in Hin.
      simpl in Hin. apply in_app_iff in Hin.
      destruct (prepareRequest_expandsOnly env (mkWorld parameters []))
        as (added & Hcalls & Hall).
      rewrite H in Hcalls. simpl in Hcalls.
      destruct Hin as [Hin|[Hin|[]]]; [|discriminate].
      rewrite Hcalls in Hin. rewrite Forall_forall in Hall.
      apply (Hall _ Hin).
    + rewrite (run_not_prepared _ _ _ _ H) in Hin. simpl in Hin.
      destruct (prepareRequest_expandsOnly env (mkWorld parameters []))
        as (added & Hcalls & Hall).
      rewrite H in Hcalls. simpl in Hcalls.
      rewrite Hcalls in Hin. rewrite Forall_forall in Hall.
      apply (Hall _ Hin).
Qed.

Lemma string_credential_is_api_key_witness :
  get (resolvedParams apiKeyOnly) "key" =
    (if truthy (get (strippedParams apiKeyOnly) "key")
     then get (strippedParams apiKeyOnly) "key"
     else VStr "APIKEY") /\
  (forall k, k <> "key" ->
     lookup (resolvedParams apiKeyOnly) k = lookup (strippedParams apiKeyOnly) k) /\
  (forall client opts,
     ~ In (ClientRequest client opts) (calls (snd (run node apiKeyOnly)))) /\
  (forall a opts w,
     prepareRequest node (mkWorld apiKeyOnly []) = (inl (a, opts), w) ->
     a = VUndef /\
     run node apiKeyOnly =
       (transporter_request node opts,
        mkWorld (caller w) (calls w ++ [TransporterRequest opts])%list)).
Proof.
  apply (string_credential_is_api_key node apiKeyOnly "APIKEY"). reflexivity.
Defined.

(** ** The descriptor after the request *)

Lemma get_options_copy (o : obj) (k : string) :
  get (Object_assign [] [VObj o]) k = get o k.
Proof.
  unfold get, Object_assign. simpl. rewrite lookup_assign_from. simpl.
  now destruct (lookup o k).
Qed.






(** ** The headers that are assembled *)

Lemma directiveLines_last (ds : list value) (d : value) (w w' : World)
  (lines : list string) :
  directiveLines (ds ++ [d]) w = (inl lines, w') ->
  exists before line w1,
    lines = (before ++ [line])%list /\ directiveLine d w1 = (inl line, w1).
Proof.
  revert w lines. induction ds as [|d0 ds IH]; intros w lines H; simpl in H.
  - apply bind_inl in H. destruct H as (line & w1 & Hd & H).
    apply bind_inl in H. destruct H as (rest & w2 & Hr & H).
    unfold ret in Hr, H. injection Hr as <- <-. injection H as <- <-.
    exists [], line, w1. split; [reflexivity|].
    unfold directiveLine in *. destruct d; try discriminate;
      unfold ret in *; congruence.
  - apply bind_inl in H. destruct H as (line0 & w1 & Hd & H).
    apply bind_inl in H. destruct H as (rest & w2 & Hr & H).
    unfold ret in H. injection H as <- <-.
    destruct (IH _ _ Hr) as (before & line & w3 & -> & Hl).
    now exists (line0 :: before), line, w3.
Qed.

(** The headers that [assembleHeaders] leaves in the options. *)
Lemma assembleHeaders_result (env : Env) (options : obj) (headers : value)
  (params : obj) (w w' : World) (options' : obj) :
  assembleHeaders env options headers params w = (inl options', w') ->
  exists hdrs,
    lookup options' "headers" = Some (VObj hdrs) /\
    (forall k, k <> "headers" -> k <> "params" -> k <> "userAgentDirectives" ->
       lookup options' k = lookup options k) /\
    (isBrowser env = false ->
       lookup hdrs "Accept-Encoding" = Some (VStr "gzip") /\
       exists before,
         lookup hdrs "User-Agent"
           = Some (VStr (join " " (before ++ [ownProduct env])))) /\
    (forall k, isBrowser env = true \/
               (k <> "Accept-Encoding" /\ k <> "User-Agent") ->
       lookup hdrs k =
         lookup (extend (or_else (get options "headers") (VObj [])) [headers]) k).
Proof.
  unfold assembleHeaders. cbv zeta. intros H.
  apply bind_inl in H. destruct H as ([] & w1 & _ & H).
  destruct (isBrowser env) eqn:Hb.
  - unfold ret in H. injection H as <- <-. eexists. split; [|split; [|split]].
    + rewrite lookup_set_prop_neq by discriminate. apply lookup_set_prop_eq.
    + intros k H1 H2 H3. now rewrite !lookup_set_prop_neq by congruence.
    + discriminate.
    + reflexivity.
  - apply bind_inl in H. destruct H as ([] & w2 & _ & H).
    match type of H with
    | (match ?x with _ => _ end) _ = _ => destruct x as [| | | |?|ds| | |] eqn:Hd
    end; try discriminate.
    apply bind_inl in H. destruct H as ([] & w3 & _ & H).
    apply bind_inl in H. destruct H as (lines & w4 & Hlines & H).
    apply bind_inl in H. destruct H as ([] & w5 & _ & H).
    unfold ret in H. injection H as <- <-.
    destruct (directiveLines_last _ _ _ _ _ Hlines) as (before & line & w6 & -> & Hl).
    eexists. split; [|split; [|split]].
    + apply lookup_set_prop_eq.
    + intros k H1 H2 H3. rewrite lookup_set_prop_neq by congruence.
      destruct (truthy _);
        now rewrite !lookup_set_prop_neq by congruence.
    + intros _. split.
      * rewrite lookup_set_prop_neq by discriminate. apply lookup_set_prop_eq.
      * exists before. rewrite lookup_set_prop_eq. do 3 f_equal.
        unfold directiveLine, ret in Hl. simpl in Hl. injection Hl as <-.
        reflexivity.
    + intros k [Hk|[Hk1 Hk2]]; [discriminate|].
      now rewrite !lookup_set_prop_neq by congruence.
Qed.

(** A string header of the options is a header of the merged options. *)
Lemma mergeOptions_header (context : APIRequestContext) (options hdrs : obj)
  (k s : string) :
  lookup options "headers" = Some (VObj hdrs) ->
  lookup hdrs k = Some (VStr s) ->
  member (get (mergeOptions context options) "headers") k = VStr s.
Proof.
  intros Hh Hk. unfold mergeOptions, get at 1.
  rewrite lookup_delete_neq by discriminate.
  unfold extend. simpl. rewrite lookup_extend_from. simpl. rewrite Hh.
  rewrite merged_obj. simpl. unfold get. rewrite lookup_extend_each. simpl.
  now rewrite Hk.
Qed.

Lemma assignHeader_result (o : owner) (headers : value) (k : string)
  (v : value) (w1 w2 : World) (h : value) :
  assignHeader o headers k v w1 = (inl h, w2) ->
  (forall k', k <> k' ->
     lookup (props_of h) k' = lookup (props_of headers) k') /\
  lookup (props_of h) k = Some v.
Proof.
  intros Ha. unfold assignHeader in Ha.
  destruct headers; try discriminate;
    try (apply bind_inl in Ha; destruct Ha as (? & ? & _ & Ha));
    unfold ret in Ha; injection Ha as <- <-; cbn [props_of];
    (split;
     [ intros k' Hk';
       first [ now apply lookup_set_prop_neq
             | exact (lookup_set_prop_neq [] k k' v Hk') ]
     | first [ apply lookup_set_prop_eq | exact (lookup_set_prop_eq [] k v) ] ]).
Qed.

Lemma assignHeaders_result (o : owner) (headers : value) (k : string)
  (v : value) (w1 w2 : World) (h : value) :
  assignHeaders o headers k v w1 = (inl h, w2) ->
  forall k', k <> k' -> lookup (props_of h) k' = lookup (props_of headers) k'.
Proof.
  intros Ha. unfold assignHeaders in Ha.
  destruct headers;
    try (unfold ret in Ha; injection Ha as <- <-; reflexivity);
    apply (assignHeader_result _ _ _ _ _ _ _ Ha).
Qed.

(** The headers once the body is in place: the media path assigns
    [Content-Type] and nothing else. *)
Lemma materializeBody_headers (env : Env) (o : owner) (mediaUrl : option string)
  (r : Resolution) (params options : obj) (w w' : World)
  (params' : obj) (headers' : value) (options' : obj) :
  materializeBody env o mediaUrl r params options w
    = (inl (params', headers', options'), w') ->
  (forall k, k <> "Content-Type" ->
     lookup (props_of headers') k = lookup (props_of (res_headers r)) k) /\
  lookup options' "headers" = lookup options "headers" /\
  ((exists url,
      mediaUrl = Some url /\ truthy (VStr url) = true /\
      truthy (member (res_media r) "body") = true /\
      truthy (res_resource r) = true) ->
   lookup (props_of headers') "Content-Type"
     = Some (VStr ("multipart/related; boundary=" ++ uuid_v4 env))).
Proof.
  unfold materializeBody. cbv zeta. intros H.
  destruct mediaUrl as [url|].
  - destruct (truthy (VStr url)) eqn:Hu;
      [destruct (truthy (member (res_media r) "body")) eqn:Hb|]; simpl in H.
    + destruct (truthy (res_resource r)) eqn:Hres.
      * apply bind_inl in H. destruct H as (h & w1 & Ha & H).
        apply bind_inl in H. destruct H as (st & w2 & _ & H).
        unfold ret in H. injection H as <- <- <- <-.
        destruct (assignHeader_result _ _ _ _ _ _ _ Ha) as [Hother Hct].
        split; [intros k Hk; apply Hother; congruence|].
        split; [now rewrite !lookup_set_prop_neq by discriminate|].
        intros _. exact Hct.
      * apply bind_inl in H. destruct H as (h & w1 & Ha & H).
        unfold ret in H. injection H as <- <- <- <-.
        split; [|split; [now rewrite !lookup_set_prop_neq by discriminate|]].
        -- intros k Hk. apply (assignHeaders_result _ _ _ _ _ _ _ Ha).
           congruence.
        -- intros (url' & _ & _ & _ & Hfalse). congruence.
    + unfold ret in H. injection H as <- <- <- <-.
      split; [reflexivity|].
      split; [now rewrite lookup_set_prop_neq by discriminate|].
      intros (url' & _ & _ & Hfalse & _). congruence.
    + unfold ret in H. injection H as <- <- <- <-.
      split; [reflexivity|].
      split; [now rewrite lookup_set_prop_neq by discriminate|].
      intros (url' & Heq & Hfalse & _). congruence.
  - unfold ret in H. injection H as <- <- <- <-.
    split; [reflexivity|].
    split; [now rewrite lookup_set_prop_neq by discriminate|].
    intros (url' & Heq & _). discriminate.
Qed.

Lemma expandUrls_result (env : Env) (parameters : APIRequestParams)
  (options params : obj) (w w1 : World) (urls : obj * option string) :
  expandUrls env parameters options params w = (inl urls, w1) ->
  snd urls =
    match mediaUrl parameters with
    | Some template =>
        if truthy (VStr template) then Some (expand env template params)
        else Some template
    | None => None
    end.
Proof.
  unfold expandUrls. intros H.
  apply bind_inl in H. destruct H as (options1 & w2 & _ & H).
  apply bind_inl in H. destruct H as (mediaUrl1 & w3 & Hm & H).
  unfold ret in H. injection H as <- <-. cbn [snd].
  destruct (mediaUrl parameters) as [t|].
  - destruct (truthy (VStr t)).
    + unfold expandUrl in Hm.
      apply bind_inl in Hm. destruct Hm as (url & w4 & Hu & Hm).
      apply bind_inl in Hu. destruct Hu as ([] & w5 & _ & Hu).
      apply bind_inl in Hm. destruct Hm as ([] & w6 & _ & Hm).
      unfold ret in *. congruence.
    + unfold ret in Hm. congruence.
  - unfold ret in Hm. congruence.
Qed.

(** The phases a prepared request went through. *)
Lemma prepareRequest_phases (env : Env) (parameters : APIRequestParams)
  (a : value) (opts : obj) (w : World) :
  prepareRequest env (mkWorld parameters []) = (inl (a, opts), w) ->
  exists urls w1 w2 params2 headers2 options2 w3 options3,
    expandUrls env parameters (Object_assign [] [VObj (options parameters)])
      (res_params (resolve parameters)) (mkWorld parameters [])
      = (inl urls, w1) /\
    materializeBody env (headersOwner parameters) (snd urls)
      (resolve parameters) (resolvedParams parameters)
      (set_prop (fst urls) "paramsSerializer" paramsSerializer) w2
      = (inl (params2, headers2, options2), w3) /\
    assembleHeaders env options2 headers2 params2 w3 = (inl options3, w) /\
    opts =
      mergeOptions (context (caller w))
        (set_prop
           (if truthy (get options3 "validateStatus") then options3
            else set_prop options3 "validateStatus" validateStatus)
           "retry"
           (if is_undefined
                 (get (if truthy (get options3 "validateStatus") then options3
                       else set_prop options3 "validateStatus" validateStatus)
                    "retry")
            then VBool true
            else get (if truthy (get options3 "validateStatus") then options3
                      else set_prop options3 "validateStatus" validateStatus)
                   "retry")).
Proof.
  unfold prepareRequest. intros H.
  apply bind_inl in H. destruct H as (p & w0 & Hread & H).
  unfold read in Hread. simpl in Hread. injection Hread as <- <-.
  cbv zeta in H. destruct (getMissingParams _ _); [discriminate|].
  apply bind_inl in H. destruct H as (urls & w1 & Hurls & H).
  unfold completeRequest in H. cbv zeta in H.
  apply bind_inl in H. destruct H as ([] & w2 & _ & H).
  unfold resolvedParams.
  destruct (injectKey _ _) as [params authClient]. cbn [fst].
  apply bind_inl in H. destruct H as ([[params2 headers2] options2] & w3 & Hbody & H).
  apply bind_inl in H. destruct H as (options3 & w4 & Hhdrs & H).
  apply bind_inl in H. destruct H as (current & w5 & Hread & H).
  unfold read in Hread. injection Hread as <- <-.
  unfold ret in H. injection H as <- <- <-.
  exists urls, w1, w2, params2, headers2, options2, w3, options3.
  repeat split; assumption.
Qed.

Lemma lookup_extend_string (target headers : value) (k s : string) :
  lookup (props_of headers) k = Some (VStr s) ->
  lookup (extend target [headers]) k = Some (VStr s).
Proof.
  intros H. unfold extend. simpl. rewrite lookup_extend_from. now rewrite H.
Qed.

(** ** More on getMissingParams *)

(** X1.  [getMissingParams] returns [null] exactly when no required name
    has the value [undefined], and otherwise a non-empty array that holds
    exactly the required names whose value is [undefined]. *)
Theorem getMissingParams_characterized (params : obj) (required : list string) :
  (getMissingParams params required = None <->
   forall name, In name required -> prop_undefined params name = false) /\
  (forall missing,
     getMissingParams params required = Some missing ->
     missing <> [] /\
     forall name,
       In name missing <->
       In name required /\ prop_undefined params name = true).
Proof.
  unfold getMissingParams. split.
  - split.
    + intros H name Hin.
      destruct (prop_undefined params name) eqn:Hu; [|reflexivity].
      assert (Hx : In name (filter (prop_undefined params) required))
        by (apply filter_In; auto).
      destruct (filter _ required); [destruct Hx | discriminate].
    + intros H.
      destruct (filter (prop_undefined params) required) as [|x l] eqn:Hf;
        [reflexivity|].
      assert (Hx : In x (filter (prop_undefined params) required))
        by (rewrite Hf; now left).
      apply filter_In in Hx. destruct Hx as [Hin Hu].
      rewrite (H x Hin) in Hu. discriminate.
  - intros missing H.
    destruct (filter (prop_undefined params) required) as [|x l] eqn:Hf;
      [discriminate|].
    injection H as <-. split; [discriminate|].
    intros name. rewrite <- Hf. apply filter_In.
Qed.

(** X2.  A required name that every object inherits from [Object.prototype]
    ([toString], [constructor], ...) is never reported missing when the
    params do not bind it themselves: the check reads [params[param]]
    through the prototype. *)
Theorem inherited_name_is_never_missing (params : obj) (required : list string)
  (name : string) (missing : list string) :
  inherited name = true ->
  lookup params name = None ->
  getMissingParams params required = Some missing ->
  ~ In name missing.
Proof.
  intros Hinh Hnone H Hin. unfold getMissingParams in H.
  destruct (filter (prop_undefined params) required) as [|x l] eqn:Hf;
    [discriminate|].
  injection H as <-. rewrite <- Hf in Hin. apply filter_In in Hin.
  destruct Hin as [_ Hu]. unfold prop_undefined in Hu.
  rewrite Hnone, Hinh in Hu. discriminate.
Qed.

Lemma inherited_name_is_never_missing_witness :
  getMissingParams (res_params (resolve requiresToString))
    (requiredParams requiresToString) = Some ["id"] /\
  ~ In "toString" ["id"].
Proof.
  split; [reflexivity|].
  apply (inherited_name_is_never_missing
           (res_params (resolve requiresToString))
           (requiredParams requiresToString) "toString" ["id"]);
    reflexivity.
Defined.

(** ** More on the request body *)

(** X3.  Without a [requestBody], the body is the [resource], which leaves
    the params when it is truthy; no other parameter is touched by body
    resolution, with or without a [requestBody]. *)
Theorem resolveBody_resource_only (m : obj) :
  (lookup m "requestBody" = None ->
   fst (resolveBody m) = get m "resource" /\
   (truthy (get m "resource") = true ->
    lookup (snd (resolveBody m)) "resource" = None)) /\
  (forall k, k <> "requestBody" -> k <> "resource" ->
     lookup (snd (resolveBody m)) k = lookup m k).
Proof.
  unfold resolveBody. cbn [fst snd]. split.
  - intros Hnone.
    assert (Hget : get m "requestBody" = VUndef)
      by (unfold get; now rewrite Hnone).
    rewrite Hget. cbn [truthy negb andb].
    split; [reflexivity|]. intros Ht. rewrite Ht.
    rewrite lookup_delete_neq by discriminate. apply lookup_delete_eq.
  - intros k Hb Hr. rewrite lookup_delete_neq by congruence.
    destruct (_ && _); [|reflexivity].
    now rewrite lookup_delete_neq by congruence.
Qed.

Lemma resolveBody_resource_only_witness :
  fst (resolveBody resourceOnly) = VObj [("title", VStr "t")] /\
  lookup (snd (resolveBody resourceOnly)) "resource" = None /\
  lookup (snd (resolveBody resourceOnly)) "q" = Some (VStr "x").
Proof.
  destruct (resolveBody_resource_only resourceOnly) as [Hbody Hframe].
  destruct (Hbody eq_refl) as [Hfst Hgone].
  split; [exact Hfst|]. split; [apply Hgone; reflexivity|].
  rewrite Hframe by discriminate. reflexivity.
Defined.

(** ** More on un-aliasing *)

(** X4.  Un-aliasing changes nothing when no key ends with [_]. *)
Theorem unalias_without_aliases (m : obj) :
  (forall k, In k (Object_keys m) -> slice_last k <> "_") ->
  unalias m = m.
Proof.
  unfold unalias. generalize (Object_keys m) as ks.
  intros ks. induction ks as [|k ks IH]; intros H; simpl; [reflexivity|].
  unfold unaliasKey at 2.
  destruct (String.eqb_spec (slice_last k) "_") as [Hk|_].
  - exfalso. apply (H k); [now left | exact Hk].
  - apply IH. intros j Hj. apply H. now right.
Qed.

Lemma unalias_without_aliases_witness :
  unalias [("id", VStr "42"); ("q", VStr "x")]
    = [("id", VStr "42"); ("q", VStr "x")].
Proof.
  apply (unalias_without_aliases [("id", VStr "42"); ("q", VStr "x")]).
  intros k [<-|[<-|[]]]; simpl; discriminate.
Defined.

(** X5.  A parameter whose name does not end with [_], and which has no
    alias (its name followed by [_]) among the params, keeps its binding
    through un-aliasing, whatever aliases the other params have. *)
Theorem unalias_keeps_plain_key (parameters : APIRequestParams) (k : string) :
  slice_last k <> "_" ->
  lookup (extracted parameters) (k ++ "_") = None ->
  lookup (res_params (resolve parameters)) k = lookup (extracted parameters) k.
Proof.
  intros Hplain Hnone. rewrite res_params_resolve. unfold unalias.
  apply lookup_unalias_frame. intros j Hj Hmark. split.
  - intros ->. contradiction.
  - intros Heq. apply lookup_None_keys in Hnone. apply Hnone.
    rewrite <- Heq, <- (slice_split j Hmark). exact Hj.
Qed.

Lemma unalias_keeps_plain_key_witness :
  lookup (res_params (resolve mediaAlias)) "q" = Some (VStr "x").
Proof.
  rewrite (unalias_keeps_plain_key mediaAlias "q");
    [reflexivity | simpl; discriminate | reflexivity].
Defined.

(** Any key of the params after the loop was a key before it, or is the
    stripped name of a key before it. *)
Lemma unalias_key_origin (ks : list string) (t : obj) (x : string) :
  lookup (fold_left unaliasKey ks t) x <> None ->
  lookup t x <> None \/ In (x ++ "_") ks.
Proof.
  revert t. induction ks as [|j ks IH]; intros t Hl; simpl in *; [tauto|].
  destruct (IH _ Hl) as [Hl'|Hin]; [|tauto].
  rewrite lookup_unaliasKey in Hl'.
  destruct (String.eqb_spec (slice_last j) "_") as [Hj|Hj]; [|tauto].
  destruct (String.eqb_spec j x) as [->|Hne]; [congruence|].
  destruct (String.eqb_spec (slice_init j) x) as [Heq|Hne']; [|tauto].
  right. left. rewrite <- Heq. now apply slice_split.
Qed.

(** X6.  The fields [requestBody], [media], [auth] and [headers] are out
    of the params when un-aliasing starts, and one of these names is a
    parameter afterwards only if the caller gave its alias, the name
    followed by [_]. *)
Theorem reserved_names_leave_params (parameters : APIRequestParams)
  (name : string) :
  In name reservedNames ->
  lookup (extracted parameters) name = None /\
  (lookup (res_params (resolve parameters)) name <> None ->
   lookup (extracted parameters) (name ++ "_") <> None).
Proof.
  intros Hin.
  assert (Hout : lookup (extracted parameters) name = None).
  { unfold extracted, resolveBody. cbn [snd].
    destruct Hin as [<-|[<-|[<-|[<-|[]]]]];
      repeat first [ apply lookup_delete_eq
                   | rewrite lookup_delete_neq by discriminate ]. }
  split; [exact Hout|].
  intros Hl. rewrite res_params_resolve in Hl. unfold unalias in Hl.
  destruct (unalias_key_origin _ _ _ Hl) as [H|H]; [congruence|].
  intros Hnone. apply lookup_None_keys in Hnone. contradiction.
Qed.

Lemma reserved_names_leave_params_witness :
  lookup (extracted mediaAlias) "media" = None /\
  (lookup (res_params (resolve mediaAlias)) "media" <> None ->
   lookup (extracted mediaAlias) ("media" ++ "_") <> None).
Proof.
  apply (reserved_names_leave_params mediaAlias "media").
  simpl. tauto.
Defined.

(** ** The merged options *)

Lemma merged_leaf (src v : value) : leaf v = true -> merged src v = v.
Proof. destruct v; simpl; congruence. Qed.

Lemma mergeOptions_leaf (context : APIRequestContext) (options : obj)
  (k : string) (v : value) :
  k <> "auth" ->
  lookup options k = Some v ->
  leaf v = true ->
  lookup (mergeOptions context options) k = Some v.
Proof.
  intros Hk Hl Hleaf. unfold mergeOptions.
  rewrite lookup_delete_neq by congruence.
  unfold extend. simpl. rewrite lookup_extend_from. simpl. rewrite Hl.
  rewrite merged_leaf by exact Hleaf. now destruct v.
Qed.

Lemma mergeOptions_member (context : APIRequestContext) (options o : obj)
  (name k : string) (v : value) :
  name <> "auth" ->
  lookup options name = Some (VObj o) ->
  lookup o k = Some v ->
  leaf v = true ->
  member (get (mergeOptions context options) name) k = v.
Proof.
  intros Hname Hl Hk Hleaf. unfold mergeOptions, get at 1.
  rewrite lookup_delete_neq by congruence.
  unfold extend. simpl. rewrite lookup_extend_from. simpl. rewrite Hl.
  rewrite merged_obj. simpl. unfold get. rewrite lookup_extend_each. simpl.
  rewrite Hk, merged_leaf by exact Hleaf. now destruct v.
Qed.

(** ** The results of the phases *)

Lemma expandUrl_string (env : Env) (t : string) (params : obj) (w : World) :
  expandUrl env (VStr t) params w =
    (inl (expand env t params),
     mkWorld (caller w) (calls w ++ [Expand t params])%list).
Proof. reflexivity. Qed.

(** When [options.url] is falsy or a string, the expansion of the URLs does
    not throw; this is what it returns and the world it leaves. *)
Lemma expandUrls_succeeds (env : Env) (parameters : APIRequestParams)
  (opts vars : obj) (w : World) :
  negb (truthy (get opts "url")) || is_string (get opts "url") = true ->
  exists options1 w1,
    expandUrls env parameters opts vars w
      = (inl (options1,
              match mediaUrl parameters with
              | Some template =>
                  if truthy (VStr template)
                  then Some (expand env template vars)
                  else Some template
              | None => None
              end), w1) /\
    (forall k, k <> "url" -> lookup options1 k = lookup opts k) /\
    context (caller w1) = context (caller w) /\
    options (caller w1) = options (caller w) /\
    calls w1 =
      (calls w
       ++ (if truthy (get opts "url")
           then [Expand (to_string (get opts "url")) vars]
           else [])
       ++ match mediaUrl parameters with
          | Some template =>
              if truthy (VStr template) then [Expand template vars] else []
          | None => []
          end)%list.
Proof.
  intros Hurl. unfold expandUrls, bind.
  destruct (truthy (get opts "url")) eqn:Ht.
  - destruct (get opts "url") as [| | | |u| | | |] eqn:Hg;
      try discriminate Hurl; try discriminate Ht.
    rewrite expandUrl_string. cbn [ret].
    destruct (mediaUrl parameters) as [t|].
    + destruct (truthy (VStr t)).
      * rewrite expandUrl_string. unfold write, ret. cbn.
        do 2 eexists. split; [reflexivity|].
        split; [intros k Hk; now apply lookup_set_prop_neq|].
        split; [reflexivity|]. split; [reflexivity|].
        now rewrite <- app_assoc.
      * unfold ret. cbn. do 2 eexists. split; [reflexivity|].
        split; [intros k Hk; now apply lookup_set_prop_neq|].
        split; [reflexivity|]. split; reflexivity.
    + unfold ret. cbn. do 2 eexists. split; [reflexivity|].
      split; [intros k Hk; now apply lookup_set_prop_neq|].
      split; [reflexivity|]. split; reflexivity.
  - unfold ret at 1. cbn [fst snd].
    destruct (mediaUrl parameters) as [t|].
    + destruct (truthy (VStr t)).
      * rewrite expandUrl_string. unfold write, ret. cbn.
        do 2 eexists. repeat split; reflexivity.
      * unfold ret. cbn. do 2 eexists. repeat split.
        now rewrite app_nil_r.
    + unfold ret. cbn. do 2 eexists. repeat split. now rewrite app_nil_r.
Qed.

Lemma materializeBody_frame (env : Env) (o : owner) (mediaUrl : option string)
  (r : Resolution) (params0 options0 : obj) (w w' : World)
  (params' : obj) (headers' : value) (options' : obj) :
  materializeBody env o mediaUrl r params0 options0 w
    = (inl (params', headers', options'), w') ->
  (forall k, k <> "uploadType" -> lookup params' k = lookup params0 k) /\
  (forall k, k <> "url" -> k <> "data" ->
     lookup options' k = lookup options0 k).
Proof.
  unfold materializeBody. cbv zeta. intros H.
  destruct mediaUrl as [url|];
    [destruct (truthy (VStr url) && truthy (member (res_media r) "body"));
     [destruct (truthy (res_resource r))|]|].
  - apply bind_inl in H. destruct H as (h & w1 & _ & H).
    apply bind_inl in H. destruct H as (st & w2 & _ & H).
    unfold ret in H. injection H as <- <- <- <-.
    split; intros; now rewrite ?lookup_set_prop_neq by congruence.
  - apply bind_inl in H. destruct H as (h & w1 & _ & H).
    unfold ret in H. injection H as <- <- <- <-.
    split; intros; now rewrite ?lookup_set_prop_neq by congruence.
  - unfold ret in H. injection H as <- <- <- <-.
    split; intros; now rewrite ?lookup_set_prop_neq by congruence.
  - unfold ret in H. injection H as <- <- <- <-.
    split; intros; now rewrite ?lookup_set_prop_neq by congruence.
Qed.

Lemma materializeBody_media (env : Env) (o : owner) (url : string)
  (r : Resolution) (params0 options0 : obj) (w w' : World)
  (params' : obj) (headers' : value) (options' : obj) :
  materializeBody env o (Some url) r params0 options0 w
    = (inl (params', headers', options'), w') ->
  truthy (VStr url) = true ->
  truthy (member (res_media r) "body") = true ->
  truthy (res_resource r) = false ->
  lookup params' "uploadType" = Some (VStr "media") /\
  lookup options' "url" = Some (VStr url) /\
  lookup options' "data" = Some (member (res_media r) "body").
Proof.
  unfold materializeBody. cbv zeta. intros H Hu Hb Hr.
  rewrite Hu, Hb, Hr in H. cbn [andb] in H.
  apply bind_inl in H. destruct H as (h & w1 & _ & H).
  unfold ret in H. injection H as <- <- <- <-.
  split; [apply lookup_set_prop_eq|].
  split; [|apply lookup_set_prop_eq].
  rewrite lookup_set_prop_neq by discriminate. apply lookup_set_prop_eq.
Qed.

Lemma assembleHeaders_params (env : Env) (options0 : obj) (headers : value)
  (params0 : obj) (w w' : World) (options' : obj) :
  assembleHeaders env options0 headers params0 w = (inl options', w') ->
  lookup options' "params" = Some (VObj params0).
Proof.
  unfold assembleHeaders. cbv zeta. intros H.
  apply bind_inl in H. destruct H as ([] & w1 & _ & H).
  destruct (isBrowser env).
  - unfold ret in H. injection H as <- <-. apply lookup_set_prop_eq.
  - apply bind_inl in H. destruct H as ([] & w2 & _ & H).
    match type of H with
    | (match ?x with _ => _ end) _ = _ => destruct x; try discriminate
    end.
    apply bind_inl in H. destruct H as ([] & w3 & _ & H).
    apply bind_inl in H. destruct H as (lines & w4 & _ & H).
    apply bind_inl in H. destruct H as ([] & w5 & _ & H).
    unfold ret in H. injection H as <- <-.
    rewrite lookup_set_prop_neq by discriminate.
    destruct (truthy _);
      rewrite ?lookup_set_prop_neq by discriminate;
      apply lookup_set_prop_eq.
Qed.

(** The options a prepared request carries, before the merge with the
    options of the context: all that the phases leave of a key. *)
Lemma finalOptions_lookup (options3 : obj) (k : string) :
  k <> "validateStatus" -> k <> "retry" ->
  lookup
    (set_prop
       (if truthy (get options3 "validateStatus") then options3
        else set_prop options3 "validateStatus" validateStatus)
       "retry"
       (if is_undefined
             (get (if truthy (get options3 "validateStatus") then options3
                   else set_prop options3 "validateStatus" validateStatus)
                "retry")
        then VBool true
        else get (if truthy (get options3 "validateStatus") then options3
                  else set_prop options3 "validateStatus" validateStatus)
               "retry")) k
    = lookup options3 k.
Proof.
  intros H1 H2. rewrite lookup_set_prop_neq by congruence.
  destruct (truthy _); [reflexivity|].
  now rewrite lookup_set_prop_neq by congruence.
Qed.

Lemma expandUrls_frame (env : Env) (parameters : APIRequestParams)
  (opts vars : obj) (w w1 : World) (urls : obj * option string) :
  expandUrls env parameters opts vars w = (inl urls, w1) ->
  forall k, k <> "url" -> lookup (fst urls) k = lookup opts k.
Proof.
  unfold expandUrls. intros H k Hk.
  apply bind_inl in H. destruct H as (options1 & w2 & Ho & H).
  apply bind_inl in H. destruct H as (mediaUrl1 & w3 & _ & H).
  unfold ret in H. injection H as <- <-. cbn [fst].
  destruct (truthy (get opts "url")).
  - apply bind_inl in Ho. destruct Ho as (url & w4 & _ & Ho).
    unfold ret in Ho. injection Ho as <- <-.
    now apply lookup_set_prop_neq.
  - unfold ret in Ho. now injection Ho as <- <-.
Qed.

Lemma lookup_options_copy (o : obj) (k : string) :
  lookup (Object_assign [] [VObj o]) k = lookup o k.
Proof.
  unfold Object_assign. simpl. rewrite lookup_assign_from. simpl.
  now destruct (lookup o k).
Qed.

(** An option that no phase writes is, when the headers are assembled, what
    the caller gave. *)
Lemma prepared_option (env : Env) (parameters : APIRequestParams)
  (urls : obj * option string) (w1 w2 w3 w4 : World)
  (params2 : obj) (headers2 : value) (options2 options3 : obj) (k : string) :
  expandUrls env parameters (Object_assign [] [VObj (options parameters)])
    (res_params (resolve parameters)) (mkWorld parameters [])
    = (inl urls, w1) ->
  materializeBody env (headersOwner parameters) (snd urls)
    (resolve parameters) (resolvedParams parameters)
    (set_prop (fst urls) "paramsSerializer" paramsSerializer) w2
    = (inl (params2, headers2, options2), w3) ->
  assembleHeaders env options2 headers2 params2 w3 = (inl options3, w4) ->
  k <> "url" -> k <> "data" -> k <> "paramsSerializer" -> k <> "headers" ->
  k <> "params" -> k <> "userAgentDirectives" ->
  lookup options3 k = lookup (options parameters) k.
Proof.
  intros Hurls Hbody Hhdrs H1 H2 H3 H4 H5 H6.
  destruct (assembleHeaders_result _ _ _ _ _ _ _ Hhdrs) as (hdrs & _ & Hf & _).
  rewrite Hf by assumption.
  destruct (materializeBody_frame _ _ _ _ _ _ _ _ _ _ _ Hbody) as [_ Ho].
  rewrite Ho by assumption.
  rewrite lookup_set_prop_neq by congruence.
  rewrite (expandUrls_frame _ _ _ _ _ _ _ Hurls) by assumption.
  apply lookup_options_copy.
Qed.

(** ** The request that is dispatched *)

(** X7.  Every resolved parameter whose value is neither an object nor an
    array nor [undefined] is in the params of the request that is prepared,
    with its value, [uploadType] apart. *)
Theorem resolved_param_is_dispatched (env : Env) (parameters : APIRequestParams)
  (a : value) (opts : obj) (w : World) (k : string) (v : value) :
  prepareRequest env (mkWorld parameters []) = (inl (a, opts), w) ->
  k <> "uploadType" ->
  lookup (resolvedParams parameters) k = Some v ->
  leaf v = true ->
  member (get opts "params") k = v.
Proof.
  intros H Hk Hl Hleaf.
  destruct (prepareRequest_phases _ _ _ _ _ H)
    as (urls & w1 & w2 & params2 & headers2 & options2 & w3 & options3
        & Hurls & Hbody & Hhdrs & ->).
  apply (mergeOptions_member _ _ params2); [discriminate | | | exact Hleaf].
  - rewrite finalOptions_lookup by discriminate.
    apply (assembleHeaders_params _ _ _ _ _ _ _ Hhdrs).
  - destruct (materializeBody_frame _ _ _ _ _ _ _ _ _ _ _ Hbody) as [Hp _].
    now rewrite Hp.
Qed.

Lemma resolved_param_is_dispatched_witness :
  member (get (snd (fst preparedMedia)) "params") "q" = VStr "x".
Proof.
  apply (resolved_param_is_dispatched node uploadMedia
           (fst (fst preparedMedia)) (snd (fst preparedMedia))
           (snd preparedMedia) "q" (VStr "x"));
    [vm_compute; reflexivity | discriminate | vm_compute; reflexivity
    | reflexivity].
Defined.

(** X8.  On the simple media path (an upload URL, a media body, no request
    body) the request goes to the expanded upload URL with the query
    parameter [uploadType=media], and its data is the media body as it is,
    string or stream. *)
Theorem simple_media_upload (env : Env) (parameters : APIRequestParams)
  (a : value) (opts : obj) (w : World) (url : string) :
  prepareRequest env (mkWorld parameters []) = (inl (a, opts), w) ->
  isUpload env parameters url ->
  truthy (res_resource (resolve parameters)) = false ->
  member (get opts "params") "uploadType" = VStr "media" /\
  get opts "url" = VStr url /\
  (leaf (member (res_media (resolve parameters)) "body") = true ->
   get opts "data" = member (res_media (resolve parameters)) "body").
Proof.
  intros H (Hurl & Htruthy & Hbody) Hres.
  destruct (prepareRequest_phases _ _ _ _ _ H)
    as (urls & w1 & w2 & params2 & headers2 & options2 & w3 & options3
        & Hurls & Hmat & Hhdrs & ->).
  assert (Hsnd : snd urls = Some url).
  { rewrite (expandUrls_result _ _ _ _ _ _ _ Hurls). exact Hurl. }
  rewrite Hsnd in Hmat.
  destruct (materializeBody_media _ _ _ _ _ _ _ _ _ _ _ Hmat Htruthy Hbody Hres)
    as (Hup & Hu & Hd).
  destruct (assembleHeaders_result _ _ _ _ _ _ _ Hhdrs) as (hdrs & _ & Hf & _).
  split; [|split].
  - apply (mergeOptions_member _ _ params2);
      [discriminate | | exact Hup | reflexivity].
    rewrite finalOptions_lookup by discriminate.
    apply (assembleHeaders_params _ _ _ _ _ _ _ Hhdrs).
  - unfold get at 1. rewrite (mergeOptions_leaf _ _ "url" (VStr url));
      [reflexivity | discriminate | | reflexivity].
    rewrite finalOptions_lookup by discriminate.
    rewrite Hf by discriminate. exact Hu.
  - intros Hleaf. unfold get at 1.
    rewrite (mergeOptions_leaf _ _ "data"
               (member (res_media (resolve parameters)) "body"));
      [reflexivity | discriminate | | exact Hleaf].
    rewrite finalOptions_lookup by discriminate.
    rewrite Hf by discriminate. exact Hd.
Qed.

Lemma simple_media_upload_witness :
  member (get (snd (fst preparedMedia)) "params") "uploadType" = VStr "media" /\
  get (snd (fst preparedMedia)) "url"
    = VStr "https://www.googleapis.com/upload/drive/v3/files/42" /\
  (leaf (member (res_media (resolve uploadMedia)) "body") = true ->
   get (snd (fst preparedMedia)) "data"
     = member (res_media (resolve uploadMedia)) "body").
Proof.
  apply (simple_media_upload node uploadMedia (fst (fst preparedMedia))
           (snd (fst preparedMedia)) (snd preparedMedia)
           "https://www.googleapis.com/upload/drive/v3/files/42");
    [vm_compute; reflexivity | repeat split; vm_compute; reflexivity
    | vm_compute; reflexivity].
Defined.

(** X9.  The options a request is dispatched with never hold [auth],
    whatever the caller's options and the options of the context hold. *)
Theorem merged_options_hold_no_auth (env : Env) (parameters : APIRequestParams)
  (a : value) (opts : obj) (w : World) :
  prepareRequest env (mkWorld parameters []) = (inl (a, opts), w) ->
  lookup opts "auth" = None.
Proof.
  intros H.
  destruct (prepareRequest_phases _ _ _ _ _ H)
    as (urls & w1 & w2 & params2 & headers2 & options2 & w3 & options3
        & _ & _ & _ & ->).
  unfold mergeOptions. apply lookup_delete_eq.
Qed.

Lemma merged_options_hold_no_auth_witness :
  lookup (snd (fst preparedMedia)) "auth" = None.
Proof.
  apply (merged_options_hold_no_auth node uploadMedia
           (fst (fst preparedMedia)) (snd (fst preparedMedia))
           (snd preparedMedia)).
  vm_compute. reflexivity.
Defined.

(** X10.  The request is always serialized with the serializer of this
    program; it is retried unless the caller's options say otherwise, and
    its status is validated by the caller's predicate when there is one,
    by the default predicate when the caller's [validateStatus] is falsy. *)
Theorem option_defaults (env : Env) (parameters : APIRequestParams)
  (a : value) (opts : obj) (w : World) :
  prepareRequest env (mkWorld parameters []) = (inl (a, opts), w) ->
  get opts "paramsSerializer" = paramsSerializer /\
  (get (options parameters) "retry" = VUndef -> get opts "retry" = VBool true) /\
  (forall b, get (options parameters) "retry" = VBool b ->
     get opts "retry" = VBool b) /\
  (truthy (get (options parameters) "validateStatus") = false ->
   get opts "validateStatus" = validateStatus) /\
  (forall f, get (options parameters) "validateStatus" = VFun f ->
     get opts "validateStatus" = VFun f).
Proof.
  intros H.
  destruct (prepareRequest_phases _ _ _ _ _ H)
    as (urls & w1 & w2 & params2 & headers2 & options2 & w3 & options3
        & Hurls & Hbody & Hhdrs & ->).
  assert (Hkeep : forall k, k <> "url" -> k <> "data" ->
            k <> "paramsSerializer" -> k <> "headers" -> k <> "params" ->
            k <> "userAgentDirectives" ->
            get options3 k = get (options parameters) k).
  { intros k H1 H2 H3 H4 H5 H6. unfold get.
    now rewrite (prepared_option _ _ _ _ _ _ _ _ _ _ _ k Hurls Hbody Hhdrs). }
  assert (Hvalid : forall k, k <> "validateStatus" ->
            get (if truthy (get options3 "validateStatus") then options3
                 else set_prop options3 "validateStatus" validateStatus) k
              = get options3 k).
  { intros k Hk. destruct (truthy _); [reflexivity|].
    unfold get. now rewrite lookup_set_prop_neq by congruence. }
  split; [|split; [|split; [|split]]].
  - unfold get at 1. rewrite (mergeOptions_leaf _ _ _ paramsSerializer);
      [reflexivity | discriminate | | reflexivity].
    rewrite finalOptions_lookup by discriminate.
    destruct (assembleHeaders_result _ _ _ _ _ _ _ Hhdrs) as (hdrs & _ & Hf & _).
    rewrite Hf by discriminate.
    destruct (materializeBody_frame _ _ _ _ _ _ _ _ _ _ _ Hbody) as [_ Ho].
    rewrite Ho by discriminate. apply lookup_set_prop_eq.
  - intros Hr. unfold get at 1.
    rewrite (mergeOptions_leaf _ _ _ (VBool true));
      [reflexivity | discriminate | | reflexivity].
    rewrite lookup_set_prop_eq, Hvalid by discriminate.
    now rewrite Hkeep, Hr by discriminate.
  - intros b Hr. unfold get at 1.
    rewrite (mergeOptions_leaf _ _ _ (VBool b));
      [reflexivity | discriminate | | reflexivity].
    rewrite lookup_set_prop_eq, Hvalid by discriminate.
    now rewrite Hkeep, Hr by discriminate.
  - intros Hv. unfold get at 1.
    rewrite (mergeOptions_leaf _ _ _ validateStatus);
      [reflexivity | discriminate | | reflexivity].
    rewrite lookup_set_prop_neq by discriminate.
    rewrite Hkeep, Hv by discriminate. apply lookup_set_prop_eq.
  - intros f Hv. unfold get at 1.
    rewrite (mergeOptions_leaf _ _ _ (VFun f));
      [reflexivity | discriminate | | reflexivity].
    rewrite lookup_set_prop_neq by discriminate.
    rewrite Hkeep, Hv by discriminate. cbn [truthy].
    assert (Hg : get options3 "validateStatus" = VFun f)
      by (now rewrite Hkeep by discriminate).
    unfold get in Hg.
    destruct (lookup options3 "validateStatus"); congruence.
Qed.

Lemma option_defaults_witness :
  get (snd (fst preparedMedia)) "paramsSerializer" = paramsSerializer /\
  get (snd (fst preparedMedia)) "retry" = VBool false /\
  get (snd (fst preparedMedia)) "validateStatus" = validateStatus.
Proof.
  destruct (option_defaults node uploadMedia (fst (fst preparedMedia))
              (snd (fst preparedMedia)) (snd preparedMedia))
    as (Hs & _ & Hr & Hv & _); [vm_compute; reflexivity|].
  split; [exact Hs|]. split; [apply Hr; reflexivity | apply Hv; reflexivity].
Defined.

(** ** The credential and the dispatch *)

(** X11.  A truthy [auth] given with the call is the credential, whatever
    credential the client or the top-level object are configured with. *)
Theorem per_call_auth_wins (parameters : APIRequestParams) (c : value) :
  lookup (params parameters) "auth" = Some c ->
  truthy c = true ->
  res_authClient (resolve parameters) = c.
Proof.
  intros Hl Ht.
  assert (Hres : res_authClient (resolve parameters) =
                 resolveAuth parameters (snd (resolveBody (mergeParams parameters)))).
  { unfold resolve. now destruct (resolveBody (mergeParams parameters)). }
  rewrite Hres. unfold resolveAuth, or_else.
  assert (Hget : get (snd (resolveBody (mergeParams parameters))) "auth" = c).
  { unfold get, resolveBody. cbn [snd].
    rewrite lookup_delete_neq by discriminate.
    assert (Hm : lookup (mergeParams parameters) "auth" = Some c).
    { unfold mergeParams, Object_assign. simpl.
      rewrite lookup_assign_from. simpl. now rewrite Hl. }
    destruct (_ && _);
      rewrite ?lookup_delete_neq by discriminate; now rewrite Hm. }
  now rewrite Hget, Ht.
Qed.

Lemma per_call_auth_wins_witness :
  res_authClient (resolve getWithClient) = oauth2Client.
Proof.
  apply (per_call_auth_wins getWithClient oauth2Client); reflexivity.
Defined.

(** X12.  When the credential is an object with a [request] method, the
    params are left without a [key] of the program's, and a request that is
    prepared is dispatched through that object, with the merged options, and
    through nothing else. *)
Theorem object_credential_dispatches (env : Env) (parameters : APIRequestParams)
  (o : obj) (f : string) (a : value) (opts : obj) (w : World) :
  res_authClient (resolve parameters) = VObj o ->
  get o "request" = VFun f ->
  prepareRequest env (mkWorld parameters []) = (inl (a, opts), w) ->
  resolvedParams parameters = strippedParams parameters /\
  a = VObj o /\
  run env parameters =
    (client_request env (VObj o) opts,
     mkWorld (caller w) (calls w ++ [ClientRequest (VObj o) opts])%list).
Proof.
  intros Hcred Hreq H.
  assert (Ha : a = VObj o).
  { rewrite (prepareRequest_credential _ _ _ _ _ H), Hcred. reflexivity. }
  split; [unfold resolvedParams, strippedParams; now rewrite Hcred|].
  split; [exact Ha|].
  rewrite (run_prepared _ _ _ _ _ H). subst a.
  unfold dispatch, bind, record, settle. cbn [truthy typeof andb member].
  rewrite Hreq. cbn.
  now destruct (client_request env (VObj o) opts).
Qed.

Lemma object_credential_dispatches_witness :
  resolvedParams getWithClient = strippedParams getWithClient /\
  fst (fst preparedWithClient) = oauth2Client /\
  run node getWithClient =
    (client_request node oauth2Client (snd (fst preparedWithClient)),
     mkWorld (caller (snd preparedWithClient))
       (calls (snd preparedWithClient)
        ++ [ClientRequest oauth2Client (snd (fst preparedWithClient))])%list).
Proof.
  apply (object_credential_dispatches node getWithClient
           [("request", VFun "request"); ("credentials", VObj [])] "request"
           (fst (fst preparedWithClient)) (snd (fst preparedWithClient))
           (snd preparedWithClient));
    vm_compute; reflexivity.
Defined.

(** X13.  A run makes template expansions and then at most one request; a
    promise that is fulfilled comes from exactly one request, the last
    call. *)
Theorem at_most_one_request (env : Env) (parameters : APIRequestParams) :
  exists expansions tail,
    calls (snd (run env parameters)) = (expansions ++ tail)%list /\
    Forall isExpand expansions /\
    (tail = [] \/ exists c, tail = [c] /\ isRequest c) /\
    (forall response,
       fst (run env parameters) = Fulfilled response ->
       exists c, tail = [c] /\ isRequest c).
Proof.
  destruct (prepareRequest_expandsOnly env (mkWorld parameters []))
    as (added & Hcalls & Hall).
  simpl in Hcalls.
  destruct (prepareRequest env (mkWorld parameters [])) as [[[a opts]|e] w] eqn:H.
  - rewrite (run_prepared _ _ _ _ _ H). simpl in Hcalls.
    unfold dispatch.
    destruct (truthy a && _).
    + destruct (member a "request");
        try (exists added, []; cbn; rewrite app_nil_r;
             repeat split; auto; discriminate).
      exists added, [ClientRequest a opts].
      unfold bind, record, settle. cbn.
      destruct (client_request env a opts); cbn; rewrite Hcalls;
        repeat split; auto; intros; try discriminate;
        try (right; eexists; split; [reflexivity | exact I]);
        eexists; split; [reflexivity | exact I].
    + exists added, [TransporterRequest opts].
      unfold bind, record, settle. cbn.
      destruct (transporter_request env opts); cbn; rewrite Hcalls;
        repeat split; auto; intros; try discriminate;
        try (right; eexists; split; [reflexivity | exact I]);
        eexists; split; [reflexivity | exact I].
  - rewrite (run_not_prepared _ _ _ _ H). simpl in Hcalls |- *.
    exists added, []. rewrite app_nil_r.
    repeat split; auto. discriminate.
Qed.

(** ** The expansion of the URLs and the per-client default params *)

Lemma sameCalls_refl (w : World) : sameCalls w w.
Proof. reflexivity. Qed.

Lemma sameCalls_trans (a b c : World) :
  sameCalls a b -> sameCalls b c -> sameCalls a c.
Proof. unfold sameCalls. congruence. Qed.

Lemma completeRequest_sameCalls (env : Env) (parameters : APIRequestParams)
  (r : Resolution) (options0 : obj) (mediaUrl0 : option string) :
  keeps sameCalls (completeRequest env parameters r options0 mediaUrl0).
Proof.
  apply keeps_completeRequest;
    [ exact sameCalls_refl | exact sameCalls_trans
    | intros ps w | intros o h w | intros k v Hk w ];
    reflexivity.
Qed.

(** What is left of a computation's world when what follows keeps a
    relation. *)
Lemma bind_keeps (P : World -> World -> Prop) {A B} (m : M A) (k : A -> M B)
  (w : World) :
  (forall w, P w w) ->
  (forall a, keeps P (k a)) ->
  P (snd (m w)) (snd (bind m k w)).
Proof.
  intros Hrefl Hk. unfold bind. destruct (m w) as [[a|e] w1]; cbn [snd].
  - apply Hk.
  - apply Hrefl.
Qed.

(** X14.  When the required parameters are there and [options.url] is
    absent or a string, the templates are expanded against the params as
    they are before the path parameters are stripped, [options.url] first
    and then the upload URL, and no other call is made before the
    dispatch. *)
Theorem urls_expand_before_stripping (env : Env) (parameters : APIRequestParams) :
  getMissingParams (res_params (resolve parameters)) (requiredParams parameters)
    = None ->
  urlExpands parameters = true ->
  calls (snd (prepareRequest env (mkWorld parameters []))) =
    ((if truthy (get (options parameters) "url")
      then [Expand (to_string (get (options parameters) "url"))
              (res_params (resolve parameters))]
      else [])
     ++ match mediaUrl parameters with
        | Some template =>
            if truthy (VStr template)
            then [Expand template (res_params (resolve parameters))]
            else []
        | None => []
        end)%list.
Proof.
  intros Hcheck Hurl. unfold urlExpands in Hurl.
  unfold prepareRequest, bind at 1, read. cbn [caller fst snd]. cbv zeta.
  rewrite Hcheck.
  pose proof (bind_keeps sameCalls
                (expandUrls env parameters
                   (Object_assign [] [VObj (options parameters)])
                   (res_params (resolve parameters)))
                (fun urls =>
                   completeRequest env parameters (resolve parameters)
                     (fst urls) (snd urls))
                (mkWorld parameters []) sameCalls_refl
                (fun urls => completeRequest_sameCalls env parameters
                               (resolve parameters) (fst urls) (snd urls)))
    as Hk.
  unfold sameCalls in Hk. rewrite Hk.
  destruct (expandUrls_succeeds env parameters
              (Object_assign [] [VObj (options parameters)])
              (res_params (resolve parameters)) (mkWorld parameters []))
    as (options1 & w1 & Hex & _ & _ & _ & Hc).
  { now rewrite get_options_copy. }
  rewrite Hex. cbn [snd]. rewrite Hc. cbn [calls app].
  now rewrite get_options_copy.
Qed.

Lemma urls_expand_before_stripping_witness :
  calls (snd (prepareRequest node (mkWorld uploadMedia []))) =
    [Expand "https://www.googleapis.com/upload/drive/v3/files/{fileId}"
       (res_params (resolve uploadMedia))] /\
  lookup (res_params (resolve uploadMedia)) "fileId" = Some (VStr "42").
Proof.
  split; [|reflexivity].
  rewrite (urls_expand_before_stripping node uploadMedia); reflexivity.
Defined.
Section AfterStrip.

Variable P : World -> World -> Prop.
Hypothesis P_refl : forall w, P w w.
Hypothesis P_trans : forall a b c, P a b -> P b c -> P a c.
Hypothesis P_headers : forall o h, keeps P (write (shareHeaders o h)).
Hypothesis P_option : forall k v,
  k = "headers" \/ k = "userAgentDirectives" ->
  keeps P (write (fun p => with_options (set_existing (options p) k v) p)).

(** What follows the stripping of the per-client default params keeps every
    relation that the writes to the shared headers and options keep. *)
Lemma completeRequest_after_strip (env : Env) (parameters : APIRequestParams)
  (r : Resolution) (options0 : obj) (mediaUrl0 : option string) (w : World) :
  P (mkWorld (stripContext (pathParams parameters) (caller w)) (calls w))
    (snd (completeRequest env parameters r options0 mediaUrl0 w)).
Proof.
  unfold completeRequest. cbv zeta. unfold bind at 1, write.
  destruct (injectKey _ _) as [params1 authClient].
  match goal with
  | |- P ?w0 _ => generalize w0
  end.
  apply (keeps_bind P P_trans); [now apply keeps_materializeBody|].
  intros [[params2 headers2] options2].
  apply (keeps_bind P P_trans); [now apply keeps_assembleHeaders|].
  intros options3.
  apply (keeps_bind P P_trans); [now apply keeps_read|].
  intros current. now apply keeps_ret.
Qed.

Lemma dispatch_keeps (P_record : forall c, keeps P (record c))
  (env : Env) (authClient : value) (opts : obj) :
  keeps P (dispatch env authClient opts).
Proof.
  unfold dispatch.
  destruct (_ && _); [destruct (member authClient "request")|];
    try (now apply keeps_throw);
    (apply keeps_bind;
       [ exact P_trans | apply P_record
       | intro; now apply keeps_settle ]).
Qed.

End AfterStrip.

Lemma snd_run (env : Env) (parameters : APIRequestParams) :
  snd (run env parameters)
    = snd (createAPIRequestAsync env (mkWorld parameters [])).
Proof.
  unfold run. now destruct (createAPIRequestAsync _ _) as [[x|x] w'].
Qed.

Lemma clientStore_in_member (p : APIRequestParams) (f : obj -> obj) :
  clientStore
    (with_context
       (mkContext (google (context p))
          (in_member (_options (context p)) "params" f)) p)
    = match get (_options (context p)) "params" with
      | VObj store => f store
      | _ => []
      end.
Proof.
  unfold clientStore, in_member, get. simpl.
  destruct (lookup (_options (context p)) "params") as [v|] eqn:Hl.
  - destruct v; rewrite ?Hl; try reflexivity.
    now rewrite lookup_set_prop_eq.
  - now rewrite Hl.
Qed.

Lemma lookup_set_existing_kept (o : obj) (k k' : string) (v : value) :
  k <> k' \/ lookup o k' = None ->
  lookup (set_existing o k v) k' = lookup o k'.
Proof.
  intros H. unfold set_existing, has_own.
  destruct (lookup o k) eqn:Hl; [|reflexivity].
  apply lookup_set_prop_neq. destruct H as [H|H]; [exact H|].
  intros ->. congruence.
Qed.

Lemma storeKept_refl (w : World) : storeKept w w.
Proof. intros k _. reflexivity. Qed.

Lemma storeKept_trans (a b c : World) :
  storeKept a b -> storeKept b c -> storeKept a c.
Proof.
  intros Hab Hbc k Hk. rewrite <- (Hab k Hk). apply Hbc.
  destruct Hk as [Hk|Hk]; [now left | right].
  now rewrite (Hab k (or_intror Hk)).
Qed.

Lemma storeKept_shareHeaders (o : owner) (h : obj) :
  keeps storeKept (write (shareHeaders o h)).
Proof.
  intros w k Hk. unfold write. cbn [snd caller].
  destruct o; unfold shareHeaders; try reflexivity.
  rewrite clientStore_in_member. unfold clientStore.
  destruct (get (_options (context (caller w))) "params") eqn:Hg;
    try reflexivity.
  apply lookup_set_existing_kept.
  unfold clientStore in Hk. rewrite Hg in Hk.
  destruct Hk as [Hk|Hk]; [left; congruence | now right].
Qed.

Lemma storeKept_shareOption (k : string) (v : value) :
  keeps storeKept
    (write (fun p => with_options (set_existing (options p) k v) p)).
Proof. intros w k' _. reflexivity. Qed.

(** X15.  When the required parameters are there and [options.url] is
    absent or a string, the request deletes every path parameter from the
    caller's per-client default params, for good, and leaves them every
    other binding but that of a [headers] object. *)
Theorem path_params_leave_client_store (env : Env)
  (parameters : APIRequestParams) :
  getMissingParams (res_params (resolve parameters)) (requiredParams parameters)
    = None ->
  urlExpands parameters = true ->
  (forall k, In k (pathParams parameters) ->
     lookup (clientStore (caller (snd (run env parameters)))) k = None) /\
  (forall k, ~ In k (pathParams parameters) -> k <> "headers" ->
     lookup (clientStore (caller (snd (run env parameters)))) k
       = lookup (clientStore parameters) k).
Proof.
  intros Hcheck Hurl. unfold urlExpands in Hurl.
  assert (Hkept : exists w1,
    context (caller w1) = context parameters /\
    storeKept
      (mkWorld (stripContext (pathParams parameters) (caller w1)) (calls w1))
      (snd (run env parameters))).
  { destruct (expandUrls_succeeds env parameters
                (Object_assign [] [VObj (options parameters)])
                (res_params (resolve parameters)) (mkWorld parameters []))
      as (options1 & w1 & Hex & _ & Hctx & _ & _).
    { now rewrite get_options_copy. }
    exists w1. split; [exact Hctx|].
    rewrite snd_run. unfold createAPIRequestAsync.
    eapply storeKept_trans;
      [|apply (bind_keeps storeKept); [exact storeKept_refl|];
        intros request;
        apply (dispatch_keeps storeKept storeKept_refl storeKept_trans);
        intros c w k _; reflexivity].
    unfold prepareRequest, bind at 1, read. cbn [caller fst snd]. cbv zeta.
    rewrite Hcheck. unfold bind at 1. rewrite Hex.
    apply (completeRequest_after_strip storeKept storeKept_refl
             storeKept_trans storeKept_shareHeaders).
    intros k v _. apply storeKept_shareOption. }
  destruct Hkept as (w1 & Hctx & Hkept).
  assert (Hstore : forall k,
    lookup
      (clientStore (stripContext (pathParams parameters) (caller w1))) k
      = if existsb (String.eqb k) (pathParams parameters) then None
        else lookup (clientStore parameters) k).
  { intros k. unfold stripContext. rewrite clientStore_in_member.
    unfold clientStore. rewrite Hctx.
    destruct (get (_options (context parameters)) "params");
      try (now destruct (existsb _ _)).
    apply lookup_stripPathParams. }
  split.
  - intros k Hin. apply existsb_eqb_In in Hin.
    rewrite (Hkept k); cbn [caller]; rewrite Hstore, Hin; auto.
  - intros k Hnot Hk.
    assert (He : existsb (String.eqb k) (pathParams parameters) = false).
    { destruct (existsb _ _) eqn:He; [|reflexivity].
      apply existsb_eqb_In in He. contradiction. }
    rewrite (Hkept k (or_introl Hk)). cbn [caller]. now rewrite Hstore, He.
Qed.

Lemma path_params_leave_client_store_witness :
  lookup (clientStore getWithClient) "fileId" = Some (VStr "7") /\
  lookup (clientStore (caller (snd (run node getWithClient)))) "fileId" = None /\
  lookup (clientStore (caller (snd (run node getWithClient)))) "fields"
    = Some (VStr "id").
Proof.
  destruct (path_params_leave_client_store node getWithClient)
    as [Hgone Hkept]; [reflexivity | reflexivity |].
  split; [reflexivity|].
  split; [apply Hgone; simpl; auto|].
  rewrite Hkept; [reflexivity | simpl; intuition discriminate | discriminate].
Defined.

(** ** The multipart body of a stream upload *)

Lemma append_nil_r (a : string) : a ++ "" = a.
Proof.
  induction a as [|x a IH]; simpl; [reflexivity | now rewrite IH].
Qed.

Lemma concat_app (a b : list string) :
  String.concat "" (a ++ b) = String.concat "" a ++ String.concat "" b.
Proof.
  induction a as [|x a IH]; [reflexivity|].
  destruct a as [|y a].
  - simpl. destruct b; simpl; [now rewrite append_nil_r | reflexivity].
  - change (String.concat "" ((x :: y :: a) ++ b))
      with (x ++ "" ++ String.concat "" ((y :: a) ++ b)).
    change (String.concat "" (x :: y :: a))
      with (x ++ "" ++ String.concat "" (y :: a)).
    rewrite IH. simpl. now rewrite append_assoc.
Qed.

Lemma length_append (a b : string) :
  String.length (a ++ b) = String.length a + String.length b.
Proof.
  induction a as [|x a IH]; simpl; [reflexivity | now rewrite IH].
Qed.

(** X16.  For a media body that is a readable stream, the two preambles
    and the JSON text are pushed at once, the stream is piped in behind
    them and the assembled stream is not ended: the closing delimiter
    follows the last chunk of the media stream, so that the content is the
    preambles, the chunks in their order, a line end and [--B--].  The
    default media type is then [application/octet-stream]. *)
Theorem assemble_stream_body (env : Env) (media resource : value)
  (source : Stream) (json : string) (w : World) :
  member media "body" = VStream source ->
  JSON_stringify (stream_json env) resource = Some json ->
  exists st,
    assemble env media resource (defaultMimeOf media) w = (inl st, w) /\
    ended st = false /\
    pushed st =
      ["--" ++ uuid_v4 env ++ crlf ++ "Content-Type: application/json"
         ++ crlf ++ crlf;
       json; crlf;
       "--" ++ uuid_v4 env ++ crlf ++ "Content-Type: "
         ++ to_string
              (or_else (member media "mimeType")
                 (or_else (member resource "mimeType")
                    (VStr "application/octet-stream")))
         ++ crlf ++ crlf] /\
    piped st = Some (stream_chunks source) /\
    stream_content st =
      String.concat "" (pushed st) ++ stream_content source
        ++ crlf ++ "--" ++ uuid_v4 env ++ "--".
Proof.
  intros Hbody Hjson.
  unfold assemble, stringified, defaultMimeOf. rewrite Hbody, Hjson. simpl.
  eexists. split; [reflexivity|]. split; [reflexivity|].
  split; [cbn; rewrite ?append_assoc; reflexivity|].
  split; [cbn; now rewrite throughProgress_forwards|].
  unfold stream_content at 1. unfold stream_chunks at 1.
  cbn [pipe_into push pushed piped trailer].
  rewrite throughProgress_forwards, !concat_app.
  cbn. rewrite ?append_assoc. reflexivity.
Qed.

Lemma assemble_stream_body_witness :
  exists st,
    assemble node (VObj [("body", VStream (mkStream ["hel"; "lo"] true None []))])
      (VObj [("title", VStr "t")])
      (defaultMimeOf
         (VObj [("body", VStream (mkStream ["hel"; "lo"] true None []))]))
      (mkWorld uploadStream [])
      = (inl st, mkWorld uploadStream []) /\
    ended st = false /\
    piped st = Some ["hel"; "lo"] /\
    stream_content st = multipartHello "application/octet-stream".
Proof.
  destruct (assemble_stream_body node
              (VObj [("body", VStream (mkStream ["hel"; "lo"] true None []))])
              (VObj [("title", VStr "t")])
              (mkStream ["hel"; "lo"] true None [])
              ("{" ++ dquote ++ "title" ++ dquote ++ ":" ++ dquote ++ "t"
                 ++ dquote ++ "}") (mkWorld uploadStream []) eq_refl eq_refl)
    as (st & Hrun & Hended & Hpushed & Hpiped & Hcontent).
  exists st. split; [exact Hrun|]. split; [exact Hended|].
  split; [exact Hpiped|].
  rewrite Hcontent, Hpushed. reflexivity.
Defined.

(** X17.  The progress stream forwards every chunk as it is and in order,
    one output for each chunk read and none besides, and the count it
    reports with a chunk is the count it started from plus the length of
    all the chunks read so far, that chunk included. *)
Theorem progress_counts (bytesRead : nat) (chunks : list string)
  (i : nat) (chunk : string) :
  nth_error chunks i = Some chunk ->
  nth_error (throughProgress bytesRead chunks) i
    = Some (bytesRead + totalLength (firstn (S i) chunks), chunk) /\
  length (throughProgress bytesRead chunks) = length chunks /\
  map snd (throughProgress bytesRead chunks) = chunks.
Proof.
  intros H. split; [|split].
  - revert bytesRead i H. induction chunks as [|c r IH]; intros n i H.
    + destruct i; discriminate.
    + destruct i as [|i]; cbn [throughProgress ProgressStream_transform].
      * cbn in H. injection H as ->. reflexivity.
      * cbn [nth_error] in H |- *. rewrite (IH _ _ H).
        assert (Hlen : totalLength (firstn (S (S i)) (c :: r))
                       = String.length c + totalLength (firstn (S i) r)).
        { unfold totalLength.
          change (firstn (S (S i)) (c :: r)) with ([c] ++ firstn (S i) r)%list.
          now rewrite concat_app, length_append. }
        rewrite Hlen. do 2 f_equal. lia.
  - rewrite <- (throughProgress_forwards bytesRead chunks) at 2.
    now rewrite length_map.
  - apply throughProgress_forwards.
Qed.

Lemma progress_counts_witness :
  nth_error (throughProgress 0 ["hel"; "lo"]) 1 = Some (5, "lo") /\
  length (throughProgress 0 ["hel"; "lo"]) = 2 /\
  map snd (throughProgress 0 ["hel"; "lo"]) = ["hel"; "lo"].
Proof.
  apply (progress_counts 0 ["hel"; "lo"] 1 "lo"). reflexivity.
Defined.

(** ** A media body that cannot be piped *)

Lemma materializeBody_unstreamable (env : Env) (o : owner) (url : string)
  (r : Resolution) (params0 options0 : obj) (w : World) :
  truthy (VStr url) = true ->
  truthy (member (res_media r) "body") = true ->
  truthy (res_resource r) = true ->
  is_string (member (res_media r) "body") = false ->
  isReadableStream (member (res_media r) "body") = false ->
  exists w',
    materializeBody env o (Some url) r params0 options0 w = (inr TypeError, w').
Proof.
  intros Hu Hb Hr Hs Hst. unfold materializeBody. cbv zeta.
  rewrite Hu, Hb, Hr. cbn [andb]. unfold bind at 1.
  destruct (assignHeader o (res_headers r) "Content-Type" _ w)
    as [[h|e] w1] eqn:Ha.
  - unfold bind, assemble, pushPart, bind, ret, throw.
    destruct (stringified env (res_resource r));
      destruct (member (res_media r) "body"); try discriminate;
      eexists; reflexivity.
  - exists w1. f_equal. f_equal. unfold assignHeader in Ha.
    destruct (res_headers r); try (unfold throw in Ha; congruence);
      unfold bind, write, ret in Ha; cbn in Ha; discriminate.
Qed.

(** X18.  On the multipart path, a media body that is neither a string nor
    a readable stream (an array of bytes, a number, an object without a
    [pipe] method) makes the request fail with a [TypeError]: nothing is
    dispatched. *)
Theorem unstreamable_media_is_rejected (env : Env)
  (parameters : APIRequestParams) (url : string) :
  getMissingParams (res_params (resolve parameters)) (requiredParams parameters)
    = None ->
  urlExpands parameters = true ->
  isUpload env parameters url ->
  truthy (res_resource (resolve parameters)) = true ->
  is_string (member (res_media (resolve parameters)) "body") = false ->
  isReadableStream (member (res_media (resolve parameters)) "body") = false ->
  (forall f, member (member (res_media (resolve parameters)) "body") "pipe"
               <> VFun f) ->
  fst (run env parameters) = Rejected TypeError /\
  Forall isExpand (calls (snd (run env parameters))).
Proof.
  intros Hcheck Hurl (Hmedia & Htruthy & Hbody) Hres Hstr Hstream _.
  unfold urlExpands in Hurl.
  assert (Hprep : exists w',
    prepareRequest env (mkWorld parameters []) = (inr TypeError, w')).
  { unfold prepareRequest, bind at 1, read. cbn [caller fst snd]. cbv zeta.
    rewrite Hcheck. unfold bind at 1.
    destruct (expandUrls_succeeds env parameters
                (Object_assign [] [VObj (options parameters)])
                (res_params (resolve parameters)) (mkWorld parameters []))
      as (options1 & w1 & Hex & _).
    { now rewrite get_options_copy. }
    rewrite Hex. cbn [fst snd].
    unfold expandedMediaUrl in Hmedia. rewrite Hmedia.
    unfold completeRequest. cbv zeta. unfold bind at 1, write.
    destruct (injectKey _ _) as [params1 authClient]. unfold bind at 1.
    match goal with
    | |- context [materializeBody ?e ?o ?m ?r ?p ?op ?w0] =>
        destruct (materializeBody_unstreamable e o url r p op w0
                    Htruthy Hbody Hres Hstr Hstream) as (w' & Hm)
    end.
    rewrite Hm. now exists w'. }
  destruct Hprep as (w' & Hprep).
  rewrite (run_not_prepared _ _ _ _ Hprep). split; [reflexivity|].
  destruct (prepareRequest_expandsOnly env (mkWorld parameters []))
    as (added & Hcalls & Hall).
  rewrite Hprep in Hcalls. cbn in Hcalls |- *. now rewrite Hcalls.
Qed.

Lemma unstreamable_media_is_rejected_witness :
  fst (run node uploadBytes) = Rejected TypeError /\
  Forall isExpand (calls (snd (run node uploadBytes))).
Proof.
  apply (unstreamable_media_is_rejected node uploadBytes
           "https://www.googleapis.com/upload/drive/v3/files");
    try reflexivity.
  - repeat split; reflexivity.
  - intros f. discriminate.
Defined.

(** ** The directives of the User-Agent *)

Lemma shareOption_world (shared : bool) (k : string) (v : value)
  (w w' : World) (u : unit) :
  shareOption shared k v w = (inl u, w') ->
  forall k',
    lookup (options (caller w')) k' =
      if shared && has_own (options (caller w)) k && String.eqb k k'
      then Some v
      else lookup (options (caller w)) k'.
Proof.
  unfold shareOption, write, ret. intros H k'.
  destruct shared; injection H as _ <-; cbn [andb]; [|reflexivity].
  cbn [caller options with_options]. unfold set_existing.
  destruct (has_own (options (caller w)) k); cbn [andb]; [|reflexivity].
  apply lookup_set_prop.
Qed.

Lemma directiveLines_world (ds : list value) (w w' : World)
  (r : list string + reason) :
  directiveLines ds w = (r, w') -> w' = w.
Proof.
  revert w w' r. induction ds as [|d ds IH]; intros w w' r H; simpl in H.
  - unfold ret in H. congruence.
  - unfold bind in H.
    assert (Hd : snd (directiveLine d w) = w).
    { unfold directiveLine. destruct d; reflexivity. }
    destruct (directiveLine d w) as [[line|e] w1]; cbn in Hd; subst w1;
      [|congruence].
    destruct (directiveLines ds w) as [[lines|e] w2] eqn:Hr.
    + apply IH in Hr. unfold ret in H. congruence.
    + apply IH in Hr. congruence.
Qed.

(** The directives in the caller's options once the headers are
    assembled. *)
Lemma assembleHeaders_directives (env : Env) (options2 : obj)
  (headers2 : value) (params2 : obj) (w3 w : World) (options3 : obj)
  (ds : list value) :
  assembleHeaders env options2 headers2 params2 w3 = (inl options3, w) ->
  isBrowser env = false ->
  lookup options2 "userAgentDirectives" = Some (VArr ds) ->
  lookup (options (caller w3)) "userAgentDirectives" = Some (VArr ds) ->
  lookup (options (caller w)) "userAgentDirectives"
    = Some (VArr (ds ++ [ownDirective env])).
Proof.
  unfold assembleHeaders. cbv zeta. intros H Hb Hl Hc.
  apply bind_inl in H. destruct H as (u1 & w1 & H1 & H).
  rewrite Hb in H.
  apply bind_inl in H. destruct H as (u2 & w2 & H2 & H).
  assert (Hget : get
            (set_prop
               (set_prop
                  (set_prop options2 "headers"
                     (VObj
                        (extend (or_else (get options2 "headers") (VObj []))
                           [headers2])))
                  "params" (VObj params2))
               "headers"
               (VObj
                  (set_prop
                     (extend (or_else (get options2 "headers") (VObj []))
                        [headers2])
                     "Accept-Encoding" (VStr "gzip"))))
            "userAgentDirectives" = VArr ds).
  { unfold get. rewrite !lookup_set_prop_neq by discriminate. now rewrite Hl. }
  rewrite Hget in H. cbn [or_else truthy] in H.
  apply bind_inl in H. destruct H as (u3 & w3' & H3 & H).
  apply bind_inl in H. destruct H as (lines & w4 & Hlines & H).
  apply bind_inl in H. destruct H as (u5 & w5 & H5 & H).
  unfold ret in H. injection H as _ <-.
  apply directiveLines_world in Hlines. subst w4.
  rewrite (shareOption_world _ _ _ _ _ _ H5).
  rewrite (shareOption_world _ _ _ _ _ _ H3).
  rewrite (shareOption_world _ _ _ _ _ _ H2).
  rewrite (shareOption_world _ _ _ _ _ _ H1).
  cbn [String.eqb Ascii.eqb Bool.eqb andb].
  unfold has_own at 2.
  rewrite (shareOption_world _ _ _ _ _ _ H2).
  rewrite (shareOption_world _ _ _ _ _ _ H1).
  cbn [String.eqb Ascii.eqb Bool.eqb andb].
  rewrite Hc. rewrite !andb_false_r. reflexivity.
Qed.

Lemma sameOptions_refl (w : World) : sameOptions w w.
Proof. reflexivity. Qed.

Lemma sameOptions_trans (a b c : World) :
  sameOptions a b -> sameOptions b c -> sameOptions a c.
Proof. unfold sameOptions. congruence. Qed.

Lemma sameOptions_shareHeaders (o : owner) (h : obj) :
  keeps sameOptions (write (shareHeaders o h)).
Proof. intros w. unfold sameOptions. now destruct o. Qed.

(** The phases of a prepared request, with the world each one starts
    from. *)
Lemma prepareRequest_worlds (env : Env) (parameters : APIRequestParams)
  (a : value) (opts : obj) (w : World) :
  prepareRequest env (mkWorld parameters []) = (inl (a, opts), w) ->
  exists urls w1 params2 headers2 options2 w3 options3,
    expandUrls env parameters (Object_assign [] [VObj (options parameters)])
      (res_params (resolve parameters)) (mkWorld parameters [])
      = (inl urls, w1) /\
    materializeBody env (headersOwner parameters) (snd urls)
      (resolve parameters) (resolvedParams parameters)
      (set_prop (fst urls) "paramsSerializer" paramsSerializer)
      (mkWorld (stripContext (pathParams parameters) (caller w1)) (calls w1))
      = (inl (params2, headers2, options2), w3) /\
    assembleHeaders env options2 headers2 params2 w3 = (inl options3, w).
Proof.
  unfold prepareRequest. intros H.
  apply bind_inl in H. destruct H as (p & w0 & Hread & H).
  unfold read in Hread. simpl in Hread. injection Hread as <- <-.
  cbv zeta in H. destruct (getMissingParams _ _); [discriminate|].
  apply bind_inl in H. destruct H as (urls & w1 & Hurls & H).
  unfold completeRequest in H. cbv zeta in H.
  apply bind_inl in H. destruct H as ([] & w2 & Hwrite & H).
  unfold write in Hwrite. injection Hwrite as <-.
  unfold resolvedParams.
  destruct (injectKey _ _) as [params1 authClient]. cbn [fst].
  apply bind_inl in H. destruct H as ([[params2 headers2] options2] & w3 & Hbody & H).
  apply bind_inl in H. destruct H as (options3 & w4 & Hhdrs & H).
  apply bind_inl in H. destruct H as (current & w5 & Hread & H).
  unfold read in Hread. injection Hread as <- <-.
  unfold ret in H. injection H as <- <- <-.
  exists urls, w1, params2, headers2, options2, w3, options3.
  repeat split; assumption.
Qed.

(** X19.  On a target other than a browser, a request that is prepared
    appends the directive of this client to the [userAgentDirectives] array
    of the caller's own options: the array grows by one with every request
    made with these options. *)
Theorem directives_accumulate (env : Env) (parameters : APIRequestParams)
  (a : value) (opts : obj) (w : World) (ds : list value) :
  prepareRequest env (mkWorld parameters []) = (inl (a, opts), w) ->
  isBrowser env = false ->
  lookup (options parameters) "userAgentDirectives" = Some (VArr ds) ->
  lookup (options (caller (snd (run env parameters)))) "userAgentDirectives"
    = Some (VArr (ds ++ [ownDirective env])).
Proof.
  intros H Hb Hds.
  assert (Hrun : options (caller (snd (run env parameters)))
                 = options (caller w)).
  { rewrite (run_prepared _ _ _ _ _ H).
    pose proof (dispatch_keeps sameOptions sameOptions_refl sameOptions_trans
                  (fun c w0 => eq_refl) env a opts w) as Hk.
    unfold sameOptions in Hk.
    destruct (dispatch env a opts w) as [[x|x] w']; exact Hk. }
  rewrite Hrun.
  destruct (prepareRequest_worlds _ _ _ _ _ H)
    as (urls & w1 & params2 & headers2 & options2 & w3 & options3
        & Hurls & Hbody & Hhdrs).
  apply (assembleHeaders_directives _ _ _ _ _ _ _ _ Hhdrs Hb).
  - destruct (materializeBody_frame _ _ _ _ _ _ _ _ _ _ _ Hbody) as [_ Ho].
    rewrite Ho by discriminate.
    rewrite lookup_set_prop_neq by discriminate.
    rewrite (expandUrls_frame _ _ _ _ _ _ _ Hurls) by discriminate.
    now rewrite lookup_options_copy.
  - pose proof (keeps_materializeBody sameOptions sameOptions_refl
                  sameOptions_trans sameOptions_shareHeaders
                  env (headersOwner parameters) (snd urls)
                  (resolve parameters) (resolvedParams parameters)
                  (set_prop (fst urls) "paramsSerializer" paramsSerializer)
                  (mkWorld (stripContext (pathParams parameters) (caller w1))
                     (calls w1))) as Hm.
    rewrite Hbody in Hm. unfold sameOptions in Hm. cbn in Hm. rewrite Hm.
    pose proof (keeps_expandUrls sameOptions sameOptions_refl
                  sameOptions_trans (fun t vars w0 => eq_refl)
                  (fun u w0 => eq_refl) env parameters
                  (Object_assign [] [VObj (options parameters)])
                  (res_params (resolve parameters)) (mkWorld parameters []))
      as He.
    rewrite Hurls in He. unfold sameOptions in He. cbn in He.
    now rewrite He.
Qed.

Lemma directives_accumulate_witness :
  lookup (options (caller (snd (run node withDirectives)))) "userAgentDirectives"
    = Some (VArr [VObj [("product", VStr "my-app"); ("version", VStr "2.0")];
                  ownDirective node]).
Proof.
  apply (directives_accumulate node withDirectives
           (fst (fst preparedDirectives)) (snd (fst preparedDirectives))
           (snd preparedDirectives)
           [VObj [("product", VStr "my-app"); ("version", VStr "2.0")]]);
    [vm_compute; reflexivity | reflexivity | reflexivity].
Defined.

Lemma directiveLines_text (ds : list value) (w w' : World)
  (lines : list string) :
  directiveLines ds w = (inl lines, w') ->
  lines = map directiveText ds.
Proof.
  revert w w' lines. induction ds as [|d ds IH]; intros w w' lines H.
  - cbn in H. unfold ret in H. now injection H as <-.
  - cbn [directiveLines] in H.
    apply bind_inl in H. destruct H as (line & w1 & Hd & H).
    apply bind_inl in H. destruct H as (rest & w2 & Hr & H).
    unfold ret in H. injection H as <- _.
    rewrite (IH _ _ _ Hr). cbn [map]. f_equal.
    unfold directiveLine in Hd. unfold directiveText.
    destruct d; try discriminate; unfold ret in Hd; now injection Hd as <-.
Qed.

Lemma assembleHeaders_userAgent (env : Env) (options2 : obj)
  (headers2 : value) (params2 : obj) (w3 w : World) (options3 : obj)
  (ds : list value) :
  assembleHeaders env options2 headers2 params2 w3 = (inl options3, w) ->
  isBrowser env = false ->
  or_else (get options2 "userAgentDirectives") (VArr []) = VArr ds ->
  exists hdrs,
    lookup options3 "headers" = Some (VObj hdrs) /\
    lookup hdrs "User-Agent"
      = Some (VStr (join " " (map directiveText (ds ++ [ownDirective env])))).
Proof.
  unfold assembleHeaders. cbv zeta. intros H Hb Hds.
  apply bind_inl in H. destruct H as (u1 & w1 & _ & H).
  rewrite Hb in H.
  apply bind_inl in H. destruct H as (u2 & w2 & _ & H).
  match type of H with
  | (match or_else (get ?o _) _ with _ => _ end) _ = _ =>
      assert (Hget : get o "userAgentDirectives"
                     = get options2 "userAgentDirectives")
        by (unfold get; now rewrite !lookup_set_prop_neq by discriminate)
  end.
  rewrite Hget, Hds in H.
  apply bind_inl in H. destruct H as (u3 & w3' & _ & H).
  apply bind_inl in H. destruct H as (lines & w4 & Hlines & H).
  apply bind_inl in H. destruct H as (u5 & w5 & _ & H).
  unfold ret in H. injection H as <- _.
  rewrite (directiveLines_text _ _ _ _ Hlines).
  eexists. split; apply lookup_set_prop_eq.
Qed.

(** X20.  On a target other than a browser, the [User-Agent] of a request
    that is prepared is the texts of the caller's directives, in their
    order, and then that of this client, joined by spaces; each text is
    [product/version], followed by the comment in parentheses when the
    directive has one. *)
Theorem user_agent_is_assembled (env : Env) (parameters : APIRequestParams)
  (a : value) (opts : obj) (w : World) (ds : list value) :
  prepareRequest env (mkWorld parameters []) = (inl (a, opts), w) ->
  isBrowser env = false ->
  callerDirectives parameters = Some ds ->
  member (get opts "headers") "User-Agent"
    = VStr (join " " (map directiveText (ds ++ [ownDirective env]))).
Proof.
  intros H Hb Hds.
  destruct (prepareRequest_phases _ _ _ _ _ H)
    as (urls & w1 & w2 & params2 & headers2 & options2 & w3 & options3
        & Hurls & Hbody & Hhdrs & ->).
  assert (Hget : get options2 "userAgentDirectives"
                 = get (options parameters) "userAgentDirectives").
  { unfold get.
    destruct (materializeBody_frame _ _ _ _ _ _ _ _ _ _ _ Hbody) as [_ Ho].
    rewrite Ho by discriminate.
    rewrite lookup_set_prop_neq by discriminate.
    rewrite (expandUrls_frame _ _ _ _ _ _ _ Hurls) by discriminate.
    now rewrite lookup_options_copy. }
  assert (Hor : or_else (get options2 "userAgentDirectives") (VArr []) = VArr ds).
  { rewrite Hget. unfold callerDirectives in Hds.
    destruct (or_else _ _); try discriminate. now injection Hds as ->. }
  destruct (assembleHeaders_userAgent _ _ _ _ _ _ _ _ Hhdrs Hb Hor)
    as (hdrs & Hh & Hua).
  apply (mergeOptions_member _ _ hdrs); [discriminate | | exact Hua | reflexivity].
  now rewrite finalOptions_lookup by discriminate.
Qed.

Lemma user_agent_is_assembled_witness :
  member (get (snd (fst preparedDirectives)) "headers") "User-Agent"
    = VStr "my-app/2.0 google-api-nodejs-client/1.0.0 (gzip)".
Proof.
  apply (user_agent_is_assembled node withDirectives
           (fst (fst preparedDirectives)) (snd (fst preparedDirectives))
           (snd preparedDirectives)
           [VObj [("product", VStr "my-app"); ("version", VStr "2.0")]]);
    [vm_compute; reflexivity | reflexivity | reflexivity].
Defined.

(** ** The API key and the URL of the request *)

Lemma dispatched_param (env : Env) (parameters : APIRequestParams)
  (a : value) (opts : obj) (w : World) (k : string) (v : value) :
  prepareRequest env (mkWorld parameters []) = (inl (a, opts), w) ->
  k <> "uploadType" ->
  lookup (resolvedParams parameters) k = Some v ->
  leaf v = true ->
  member (get opts "params") k = v.
Proof.
  intros H Hk Hl Hleaf.
  destruct (prepareRequest_phases _ _ _ _ _ H)
    as (urls & w1 & w2 & params2 & headers2 & options2 & w3 & options3
        & Hurls & Hbody & Hhdrs & ->).
  apply (mergeOptions_member _ _ params2); [discriminate | | | exact Hleaf].
  - rewrite finalOptions_lookup by discriminate.
    apply (assembleHeaders_params _ _ _ _ _ _ _ Hhdrs).
  - destruct (materializeBody_frame _ _ _ _ _ _ _ _ _ _ _ Hbody) as [Hp _].
    now rewrite Hp.
Qed.

(** X21.  A string credential is sent as the query parameter [key] of the
    request, unless the params hold a truthy [key] of their own. *)
Theorem api_key_is_dispatched (env : Env) (parameters : APIRequestParams)
  (a : value) (opts : obj) (w : World) (s : string) :
  prepareRequest env (mkWorld parameters []) = (inl (a, opts), w) ->
  res_authClient (resolve parameters) = VStr s ->
  truthy (get (strippedParams parameters) "key") = false ->
  member (get opts "params") "key" = VStr s.
Proof.
  intros H Hcred Hkey.
  apply (dispatched_param env parameters a opts w);
    [exact H | discriminate | | reflexivity].
  unfold resolvedParams. rewrite Hcred. cbn [injectKey fst].
  rewrite lookup_set_prop_eq. unfold or_else.
  unfold strippedParams in Hkey. now rewrite Hkey.
Qed.

Lemma api_key_is_dispatched_witness :
  member (get (snd (fst preparedApiKey)) "params") "key" = VStr "APIKEY".
Proof.
  apply (api_key_is_dispatched node apiKeyOnly (fst (fst preparedApiKey))
           (snd (fst preparedApiKey)) (snd preparedApiKey) "APIKEY");
    [vm_compute; reflexivity | reflexivity | reflexivity].
Defined.

Lemma expandUrls_url (env : Env) (parameters : APIRequestParams)
  (opts vars : obj) (w w1 : World) (urls : obj * option string) (u : string) :
  expandUrls env parameters opts vars w = (inl urls, w1) ->
  get opts "url" = VStr u ->
  truthy (VStr u) = true ->
  lookup (fst urls) "url" = Some (VStr (expand env u vars)).
Proof.
  unfold expandUrls. intros H Hu Ht.
  apply bind_inl in H. destruct H as (options1 & w2 & Ho & H).
  apply bind_inl in H. destruct H as (mediaUrl1 & w3 & _ & H).
  unfold ret in H. injection H as <- <-. cbn [fst].
  rewrite Hu, Ht in Ho.
  apply bind_inl in Ho. destruct Ho as (url & w4 & Hx & Ho).
  rewrite expandUrl_string in Hx. injection Hx as <- _.
  unfold ret in Ho. injection Ho as <- _. apply lookup_set_prop_eq.
Qed.

Lemma materializeBody_url (env : Env) (o : owner) (mediaUrl0 : option string)
  (r : Resolution) (params0 options0 : obj) (w w' : World)
  (params' : obj) (headers' : value) (options' : obj) :
  materializeBody env o mediaUrl0 r params0 options0 w
    = (inl (params', headers', options'), w') ->
  lookup options' "url" =
    match mediaUrl0 with
    | Some url =>
        if truthy (VStr url) && truthy (member (res_media r) "body")
        then Some (VStr url)
        else lookup options0 "url"
    | None => lookup options0 "url"
    end.
Proof.
  unfold materializeBody. cbv zeta. intros H.
  destruct mediaUrl0 as [url|];
    [destruct (truthy (VStr url) && truthy (member (res_media r) "body"));
     [destruct (truthy (res_resource r))|]|].
  - apply bind_inl in H. destruct H as (h & w1 & _ & H).
    apply bind_inl in H. destruct H as (st & w2 & _ & H).
    unfold ret in H. injection H as <- <- <- <-.
    rewrite lookup_set_prop_neq by discriminate. apply lookup_set_prop_eq.
  - apply bind_inl in H. destruct H as (h & w1 & _ & H).
    unfold ret in H. injection H as <- <- <- <-.
    rewrite lookup_set_prop_neq by discriminate. apply lookup_set_prop_eq.
  - unfold ret in H. injection H as <- <- <- <-.
    now rewrite lookup_set_prop_neq by discriminate.
  - unfold ret in H. injection H as <- <- <- <-.
    now rewrite lookup_set_prop_neq by discriminate.
Qed.

(** X22.  The URL of a request that is prepared is the expanded upload URL
    on the media paths, with or without a request body, and otherwise the
    expansion of [options.url] against the params as they are before the
    path parameters are stripped. *)
Theorem request_url (env : Env) (parameters : APIRequestParams)
  (a : value) (opts : obj) (w : World) :
  prepareRequest env (mkWorld parameters []) = (inl (a, opts), w) ->
  (forall url, isUpload env parameters url -> get opts "url" = VStr url) /\
  (forall u,
     (forall url, ~ isUpload env parameters url) ->
     get (options parameters) "url" = VStr u ->
     truthy (VStr u) = true ->
     get opts "url" = VStr (expand env u (res_params (resolve parameters)))).
Proof.
  intros H.
  destruct (prepareRequest_phases _ _ _ _ _ H)
    as (urls & w1 & w2 & params2 & headers2 & options2 & w3 & options3
        & Hurls & Hbody & Hhdrs & ->).
  destruct (assembleHeaders_result _ _ _ _ _ _ _ Hhdrs) as (hdrs & _ & Hf & _).
  pose proof (materializeBody_url _ _ _ _ _ _ _ _ _ _ _ Hbody) as Hurl.
  rewrite (expandUrls_result _ _ _ _ _ _ _ Hurls) in Hurl.
  fold (expandedMediaUrl env parameters) in Hurl.
  assert (Hsent : forall v, lookup options2 "url" = Some (VStr v) ->
    get
      (mergeOptions (context (caller w))
         (set_prop
            (if truthy (get options3 "validateStatus") then options3
             else set_prop options3 "validateStatus" validateStatus)
            "retry"
            (if is_undefined
                  (get (if truthy (get options3 "validateStatus") then options3
                        else set_prop options3 "validateStatus" validateStatus)
                     "retry")
             then VBool true
             else get (if truthy (get options3 "validateStatus") then options3
                       else set_prop options3 "validateStatus" validateStatus)
                    "retry")))
      "url" = VStr v).
  { intros v Hv. unfold get at 1.
    rewrite (mergeOptions_leaf _ _ "url" (VStr v));
      [reflexivity | discriminate | | reflexivity].
    rewrite finalOptions_lookup by discriminate.
    now rewrite Hf by discriminate. }
  split.
  - intros url (Hm & Ht & Hb). apply Hsent.
    rewrite Hurl, Hm, Ht, Hb. reflexivity.
  - intros u Hnot Hu Ht. apply Hsent. rewrite Hurl.
    assert (Hexp : lookup (fst urls) "url"
                   = Some (VStr (expand env u (res_params (resolve parameters))))).
    { apply (expandUrls_url _ _ _ _ _ _ _ _ Hurls); [|exact Ht].
      now rewrite get_options_copy. }
    destruct (expandedMediaUrl env parameters) as [url|] eqn:Hm.
    + destruct (truthy (VStr url) && truthy _) eqn:Hc.
      * exfalso. apply andb_true_iff in Hc. destruct Hc as [Hc1 Hc2].
        apply (Hnot url). repeat split; assumption.
      * now rewrite lookup_set_prop_neq by discriminate.
    + now rewrite lookup_set_prop_neq by discriminate.
Qed.

Lemma request_url_witness :
  get (snd (fst preparedGetFile)) "url"
    = VStr "https://www.googleapis.com/drive/v3/files/42".
Proof.
  destruct (request_url node getFile (fst (fst preparedGetFile))
              (snd (fst preparedGetFile)) (snd preparedGetFile))
    as [_ Hplain]; [vm_compute; reflexivity|].
  apply (Hplain "https://www.googleapis.com/drive/v3/files/{id}");
    [|reflexivity | reflexivity].
  intros url (Hm & _). discriminate.
Defined.

(** ** The multipart upload as a request *)

Lemma materializeBody_multipart (env : Env) (o : owner) (url : string)
  (r : Resolution) (params0 options0 : obj) (w w' : World)
  (params' : obj) (headers' : value) (options' : obj) :
  materializeBody env o (Some url) r params0 options0 w
    = (inl (params', headers', options'), w') ->
  truthy (VStr url) = true ->
  truthy (member (res_media r) "body") = true ->
  truthy (res_resource r) = true ->
  lookup params' "uploadType" = Some (VStr "multipart") /\
  exists st w1,
    assemble env (res_media r) (res_resource r) (res_defaultMime r) w1
      = (inl st, w') /\
    lookup options' "data" = Some (VStream st).
Proof.
  unfold materializeBody. cbv zeta. intros H Hu Hb Hr.
  rewrite Hu, Hb, Hr in H. cbn [andb] in H.
  apply bind_inl in H. destruct H as (h & w1 & _ & H).
  apply bind_inl in H. destruct H as (st & w2 & Hst & H).
  unfold ret in H. injection H as <- <- <- <-.
  split; [apply lookup_set_prop_eq|].
  exists st, w1. split; [exact Hst | apply lookup_set_prop_eq].
Qed.

(** X23.  On the multipart path (an upload URL, a media body and a request
    body) the request carries the query parameter [uploadType=multipart]
    and its data is the stream that the multipart assembly built from the
    media and the request body. *)
Theorem multipart_upload (env : Env) (parameters : APIRequestParams)
  (a : value) (opts : obj) (w : World) (url : string) :
  prepareRequest env (mkWorld parameters []) = (inl (a, opts), w) ->
  isUpload env parameters url ->
  truthy (res_resource (resolve parameters)) = true ->
  member (get opts "params") "uploadType" = VStr "multipart" /\
  exists st w1 w2,
    assemble env (res_media (resolve parameters))
      (res_resource (resolve parameters))
      (res_defaultMime (resolve parameters)) w1 = (inl st, w2) /\
    get opts "data" = VStream st.
Proof.
  intros H (Hurl & Htruthy & Hbody) Hres.
  destruct (prepareRequest_phases _ _ _ _ _ H)
    as (urls & w1 & w2 & params2 & headers2 & options2 & w3 & options3
        & Hurls & Hmat & Hhdrs & ->).
  assert (Hsnd : snd urls = Some url).
  { rewrite (expandUrls_result _ _ _ _ _ _ _ Hurls). exact Hurl. }
  rewrite Hsnd in Hmat.
  destruct (materializeBody_multipart _ _ _ _ _ _ _ _ _ _ _ Hmat Htruthy
              Hbody Hres) as (Hup & st & w4 & Hst & Hd).
  destruct (assembleHeaders_result _ _ _ _ _ _ _ Hhdrs) as (hdrs & _ & Hf & _).
  split.
  - apply (mergeOptions_member _ _ params2);
      [discriminate | | exact Hup | reflexivity].
    rewrite finalOptions_lookup by discriminate.
    apply (assembleHeaders_params _ _ _ _ _ _ _ Hhdrs).
  - exists st, w4, w3. split; [exact Hst|]. unfold get at 1.
    rewrite (mergeOptions_leaf _ _ "data" (VStream st));
      [reflexivity | discriminate | | reflexivity].
    rewrite finalOptions_lookup by discriminate.
    now rewrite Hf by discriminate.
Qed.

Lemma multipart_upload_witness :
  member (get (snd (fst preparedUpload)) "params") "uploadType"
    = VStr "multipart" /\
  exists st w1 w2,
    assemble node (res_media (resolve uploadWithHeaders))
      (res_resource (resolve uploadWithHeaders))
      (res_defaultMime (resolve uploadWithHeaders)) w1 = (inl st, w2) /\
    get (snd (fst preparedUpload)) "data" = VStream st.
Proof.
  apply (multipart_upload node uploadWithHeaders (fst (fst preparedUpload))
           (snd (fst preparedUpload)) (snd preparedUpload)
           "https://www.googleapis.com/upload/drive/v3/files");
    [vm_compute; reflexivity | repeat split; vm_compute; reflexivity
    | vm_compute; reflexivity].
Defined.

(** ** C5: the headers of the request *)

(** On the simple media path [Content-Type] is assigned to the headers
    (line 232). *)
Lemma materializeBody_simple_header (env : Env) (o : owner) (url : string)
  (r : Resolution) (params0 options0 : obj) (w w' : World)
  (params' : obj) (headers' : value) (options' : obj) :
  materializeBody env o (Some url) r params0 options0 w
    = (inl (params', headers', options'), w') ->
  truthy (VStr url) = true ->
  truthy (member (res_media r) "body") = true ->
  truthy (res_resource r) = false ->
  takesProperties (res_headers r) = true ->
  lookup (props_of headers') "Content-Type"
    = Some (or_else (member (res_media r) "mimeType")
              (VStr (res_defaultMime r))).
Proof.
  unfold materializeBody. cbv zeta. intros H Hu Hb Hr Ht.
  rewrite Hu, Hb, Hr in H. cbn [andb] in H.
  apply bind_inl in H. destruct H as (h & w1 & Ha & H).
  unfold ret in H. injection H as <- <- <- <-.
  unfold assignHeaders in Ha.
  destruct (res_headers r); try discriminate Ht;
    apply (assignHeader_result _ _ _ _ _ _ _ Ha).
Qed.

(** Off the media paths the headers are left as they are. *)
Lemma materializeBody_plain_header (env : Env) (o : owner)
  (mediaUrl0 : option string) (r : Resolution) (params0 options0 : obj)
  (w w' : World) (params' : obj) (headers' : value) (options' : obj) :
  materializeBody env o mediaUrl0 r params0 options0 w
    = (inl (params', headers', options'), w') ->
  (forall url, mediaUrl0 = Some url ->
     truthy (VStr url) = true ->
     truthy (member (res_media r) "body") = true -> False) ->
  headers' = res_headers r.
Proof.
  unfold materializeBody. cbv zeta. intros H Hno.
  destruct mediaUrl0 as [url|].
  - destruct (truthy (VStr url)) eqn:Hu;
      [destruct (truthy (member (res_media r) "body")) eqn:Hb|];
      cbn [andb] in H.
    + destruct (Hno url eq_refl Hu eq_refl).
    + unfold ret in H. now injection H as <- <- <- <-.
    + unfold ret in H. now injection H as <- <- <- <-.
  - unfold ret in H. now injection H as <- <- <- <-.
Qed.

(** The caller asks for the [identity] encoding and the request goes out
    with [gzip]: a generated header overrides the caller's. *)
Lemma generated_header_overrides_caller :
  member (res_headers (resolve identityEncoding)) "Accept-Encoding"
    = VStr "identity" /\
  requestHeader node identityEncoding "Accept-Encoding" = VStr "gzip".
Proof.
  split; vm_compute; reflexivity.
Qed.

(** C5, amended.  In the headers the request is sent with, the generated
    headers override the caller's: on a target other than a browser
    [Accept-Encoding] is [gzip] and [User-Agent] ends with the product of
    this client; on the multipart path [Content-Type] is
    [multipart/related] with the boundary, and on the simple media path it
    is the media's [mimeType], else the default MIME type; all this
    whatever the caller supplied under these names.  A string header that
    the caller supplies in the [headers] parameter under another name, or
    as [Content-Type] when there is no upload, is sent as it is; and so is
    a string header of [options.headers] under a name that is neither
    generated nor bound in the [headers] parameter: the [headers]
    parameter is merged over [options.headers]. *)
Theorem generated_headers_override (env : Env) (parameters : APIRequestParams)
  (a : value) (opts : obj) (w : World) :
  prepareRequest env (mkWorld parameters []) = (inl (a, opts), w) ->
  (isBrowser env = false ->
     member (get opts "headers") "Accept-Encoding" = VStr "gzip" /\
     exists before,
       member (get opts "headers") "User-Agent"
         = VStr (join " " (before ++ [ownProduct env]))) /\
  (isMultipart env parameters ->
     member (get opts "headers") "Content-Type"
       = VStr ("multipart/related; boundary=" ++ uuid_v4 env)) /\
  (forall url t,
     isUpload env parameters url ->
     truthy (res_resource (resolve parameters)) = false ->
     takesProperties (res_headers (resolve parameters)) = true ->
     or_else (member (res_media (resolve parameters)) "mimeType")
       (VStr (res_defaultMime (resolve parameters))) = VStr t ->
     member (get opts "headers") "Content-Type" = VStr t) /\
  (forall k s,
     k <> "Content-Type" \/ (forall url, ~ isUpload env parameters url) ->
     isBrowser env = true \/ (k <> "Accept-Encoding" /\ k <> "User-Agent") ->
     lookup (props_of (res_headers (resolve parameters))) k = Some (VStr s) ->
     member (get opts "headers") k = VStr s) /\
  (forall own k s,
     lookup (options parameters) "headers" = Some (VObj own) ->
     lookup own k = Some (VStr s) ->
     k <> "Content-Type" \/ (forall url, ~ isUpload env parameters url) ->
     isBrowser env = true \/ (k <> "Accept-Encoding" /\ k <> "User-Agent") ->
     lookup (props_of (res_headers (resolve parameters))) k = None ->
     member (get opts "headers") k = VStr s).
Proof.
  intros H.
  destruct (prepareRequest_phases _ _ _ _ _ H)
    as (urls & w1 & w2 & params2 & headers2 & options2 & w3 & options3
        & Hurls & Hbody & Hhdrs & ->).
  destruct (materializeBody_headers _ _ _ _ _ _ _ _ _ _ _ Hbody)
    as (Hother & Hkept & Hct).
  destruct (assembleHeaders_result _ _ _ _ _ _ _ Hhdrs)
    as (hdrs & Hfinal & _ & Hgen & Hrest).
  assert (Hsnd : snd urls = expandedMediaUrl env parameters).
  { rewrite (expandUrls_result _ _ _ _ _ _ _ Hurls). reflexivity. }
  assert (Hsent : forall k s, lookup hdrs k = Some (VStr s) ->
    member
      (get
         (mergeOptions (context (caller w))
            (set_prop
               (if truthy (get options3 "validateStatus") then options3
                else set_prop options3 "validateStatus" validateStatus)
               "retry"
               (if is_undefined
                     (get (if truthy (get options3 "validateStatus")
                           then options3
                           else set_prop options3 "validateStatus" validateStatus)
                        "retry")
                then VBool true
                else get (if truthy (get options3 "validateStatus")
                          then options3
                          else set_prop options3 "validateStatus" validateStatus)
                       "retry")))
         "headers") k = VStr s).
  { intros k s Hk. apply (mergeOptions_header _ _ hdrs); [|exact Hk].
    rewrite finalOptions_lookup by discriminate. exact Hfinal. }
  assert (Hparam : forall k,
    k <> "Content-Type" \/ (forall url, ~ isUpload env parameters url) ->
    lookup (props_of headers2) k
      = lookup (props_of (res_headers (resolve parameters))) k).
  { intros k [Hk|Hno]; [now apply Hother|].
    rewrite (materializeBody_plain_header _ _ _ _ _ _ _ _ _ _ _ Hbody);
      [reflexivity|].
    intros url Hm Hu Hb. apply (Hno url). unfold isUpload.
    now rewrite <- Hsnd. }
  split; [|split; [|split; [|split]]].
  - intros Hb. destruct (Hgen Hb) as (Hae & before & Hua).
    split; [now apply Hsent|]. exists before. now apply Hsent.
  - intros (t & Hm & Ht & Hurl & Hmedia & Hres).
    apply Hsent. rewrite Hrest by (right; split; discriminate).
    apply lookup_extend_string. apply Hct.
    exists (expand env t (res_params (resolve parameters))).
    rewrite (expandUrls_result _ _ _ _ _ _ _ Hurls), Hm, Ht. auto.
  - intros url t (Hurl & Hu & Hmedia) Hres Htakes Htype.
    apply Hsent. rewrite Hrest by (right; split; discriminate).
    apply lookup_extend_string. rewrite <- Htype.
    rewrite Hsnd, Hurl in Hbody.
    exact (materializeBody_simple_header _ _ _ _ _ _ _ _ _ _ _
             Hbody Hu Hmedia Hres Htakes).
  - intros k s Hk Hgenk Hcaller.
    apply Hsent. rewrite Hrest by exact Hgenk.
    apply lookup_extend_string. rewrite Hparam by exact Hk. exact Hcaller.
  - intros own k s Hown Hks Hk Hgenk Hnone.
    apply Hsent. rewrite Hrest by exact Hgenk.
    assert (Hget : get options2 "headers" = VObj own).
    { unfold get. rewrite Hkept, lookup_set_prop_neq by discriminate.
      rewrite (expandUrls_frame _ _ _ _ _ _ _ Hurls) by discriminate.
      now rewrite lookup_options_copy, Hown. }
    rewrite Hget. unfold extend. simpl. rewrite lookup_extend_from.
    rewrite Hparam by exact Hk. rewrite Hnone. exact Hks.
Qed.

Lemma generated_headers_override_witness :
  (member (get (snd (fst preparedOverOptions)) "headers") "Accept-Encoding"
     = VStr "gzip" /\
   member (get (snd (fst preparedOverOptions)) "headers") "Content-Type"
     = VStr "multipart/related; boundary=B" /\
   member (get (snd (fst preparedOverOptions)) "headers") "X-Goog-Trace"
     = VStr "1" /\
   member (get (snd (fst preparedOverOptions)) "headers") "X-Goog-Api-Client"
     = VStr "app") /\
  member (get (snd (fst preparedMediaTyped)) "headers") "Content-Type"
    = VStr "text/csv".
Proof.
  split.
  - destruct (generated_headers_override node uploadOverOptions
                (fst (fst preparedOverOptions)) (snd (fst preparedOverOptions))
                (snd preparedOverOptions))
      as (Hgen & Hct & _ & Hcaller & Hoption); [vm_compute; reflexivity|].
    split; [apply Hgen; reflexivity|].
    split; [|split].
    + apply Hct.
      exists "https://www.googleapis.com/upload/drive/v3/files".
      repeat split; vm_compute; reflexivity.
    + apply Hcaller;
        [ left; discriminate | right; split; discriminate
        | vm_compute; reflexivity ].
    + apply (Hoption
               [("X-Goog-Trace", VStr "0"); ("X-Goog-Api-Client", VStr "app")]);
        [ reflexivity | reflexivity | left; discriminate
        | right; split; discriminate | vm_compute; reflexivity ].
  - destruct (generated_headers_override node uploadMediaTyped
                (fst (fst preparedMediaTyped)) (snd (fst preparedMediaTyped))
                (snd preparedMediaTyped))
      as (_ & _ & Hsimple & _); [vm_compute; reflexivity|].
    apply (Hsimple "https://www.googleapis.com/upload/drive/v3/files");
      [ repeat split; vm_compute; reflexivity | vm_compute; reflexivity
      | vm_compute; reflexivity | vm_compute; reflexivity ].
Defined.

(** ** C9: what the request leaves of the caller's descriptor *)








































(** The objects the call shares with the caller are written.  The headers
    object of the per-client default params: an upload leaves its
    [Content-Type] there, and the path parameter is gone.  The headers
    object of the per-call params: its [Content-Type] is overwritten.  The
    caller's [options.headers]: the headers of the request are merged into
    it. *)
Lemma shared_objects_are_written :
  clientStore uploadWithClient
    = [("fileId", VStr "7"); ("headers", VObj [("X-Goog-Trace", VStr "1")])] /\
  clientStore (caller (snd (run node uploadWithClient)))
    = [("headers",
        VObj [("X-Goog-Trace", VStr "1");
              ("Content-Type", VStr "multipart/related; boundary=B")])] /\
  lookup (params (caller (snd (run node uploadOverOptions)))) "headers"
    = Some (VObj [("Content-Type", VStr "multipart/related; boundary=B");
                  ("Accept-Encoding", VStr "identity");
                  ("X-Goog-Trace", VStr "1")]) /\
  lookup (options (caller (snd (run node uploadOverOptions)))) "headers"
    = Some (VObj [("X-Goog-Trace", VStr "1");
                  ("X-Goog-Api-Client", VStr "app");
                  ("Content-Type", VStr "multipart/related; boundary=B");
                  ("Accept-Encoding", VStr "gzip");
                  ("User-Agent",
                   VStr "google-api-nodejs-client/1.0.0 (gzip)")]).
Proof.
  repeat split; vm_compute; reflexivity.
Qed.

(** ** C10: the two calling conventions *)

(** The promise of the request settles as the promise of the transport
    does, and is rejected with what the body throws. *)
Lemma run_body (env : Env) (parameters : APIRequestParams) :
  run env parameters =
    match createAPIRequestAsync_body env (mkWorld parameters []) with
    | (inl outcome, w) => (outcome, w)
    | (inr e, w) => (Rejected e, w)
    end.
Proof.
  unfold run, createAPIRequestAsync, createAPIRequestAsync_body, bind.
  destruct (prepareRequest env (mkWorld parameters [])) as [[[a o]|e] w];
    [|reflexivity].
  cbn [fst snd]. unfold dispatch, dispatched.
  destruct (_ && _); [destruct (member a "request")|];
    unfold bind, record, throw, ret, settle; cbn; try reflexivity.
  - now destruct (client_request env a o).
  - now destruct (transporter_request env o).
Qed.

Lemma step_callbackPhase (src : string) (s : settled) (i : phase) (e : event) :
  step (callbackPhase (VFun src) s i) e
    = callbackPhase (VFun src) s (nextPhase i e).
Proof.
  destruct i, e, s; reflexivity.
Qed.

Lemma step_promisePhase (s : settled) (i : phase) (e : event) :
  step (promisePhase s i) e = promisePhase s (nextPhase i e).
Proof.
  destruct i, e, s; reflexivity.
Qed.

Lemma advance_callbackPhase (src : string) (s : settled)
  (schedule : list event) (i : phase) :
  advance (callbackPhase (VFun src) s i) schedule
    = callbackPhase (VFun src) s (fold_left nextPhase schedule i).
Proof.
  unfold advance. revert i.
  induction schedule as [|e r IH]; intros i; cbn [fold_left]; [reflexivity|].
  now rewrite step_callbackPhase, IH.
Qed.

Lemma advance_promisePhase (s : settled) (schedule : list event) (i : phase) :
  advance (promisePhase s i) schedule
    = promisePhase s (fold_left nextPhase schedule i).
Proof.
  unfold advance. revert i.
  induction schedule as [|e r IH]; intros i; cbn [fold_left]; [reflexivity|].
  now rewrite step_promisePhase, IH.
Qed.

Lemma phase_stays_settled (schedule : list event) (i : phase) :
  transportSettled i = true ->
  transportSettled (fold_left nextPhase schedule i) = true.
Proof.
  revert i. induction schedule as [|e r IH]; intros i Hi; cbn [fold_left];
    [exact Hi|].
  apply IH. destruct i, e; try discriminate; reflexivity.
Qed.

Lemma phase_settles (schedule : list event) (i : phase) :
  In TransportSettles schedule ->
  transportSettled (fold_left nextPhase schedule i) = true.
Proof.
  revert i. induction schedule as [|e r IH]; intros i Hin; [destruct Hin|].
  cbn [fold_left]. destruct Hin as [->|Hin]; [|now apply IH].
  apply phase_stays_settled. now destruct i.
Qed.

Lemma phase_waits (schedule : list event) (i : phase) :
  ~ In TransportSettles schedule ->
  transportSettled i = false ->
  transportSettled (fold_left nextPhase schedule i) = false.
Proof.
  revert i. induction schedule as [|e r IH]; intros i Hin Hi; cbn [fold_left];
    [exact Hi|].
  apply IH; [intros H; apply Hin; now right|].
  destruct e; [|exfalso; apply Hin; now left].
  destruct i; try discriminate; reflexivity.
Qed.

Lemma phase_finishes (i : phase) :
  transportSettled i = true ->
  fold_left nextPhase [Tick; Tick; Tick] i = Finished.
Proof.
  destruct i; try discriminate; reflexivity.
Qed.

Lemma phase_is_settled (i : phase) :
  transportSettled i = true ->
  nextPhase (nextPhase i Tick) Tick = Notifying \/
  nextPhase (nextPhase i Tick) Tick = Finished.
Proof.
  destruct i; try discriminate; cbn; auto.
Qed.

Lemma phase_stays_finished (schedule : list event) :
  fold_left nextPhase schedule Finished = Finished.
Proof.
  induction schedule as [|[] r IH]; cbn [fold_left nextPhase]; auto.
Qed.

Lemma phase_stays_notified (schedule : list event) (i : phase) :
  i = Notifying \/ i = Finished ->
  fold_left nextPhase schedule i = Notifying \/
  fold_left nextPhase schedule i = Finished.
Proof.
  revert i. induction schedule as [|e r IH]; intros i Hi; cbn [fold_left];
    [exact Hi|].
  apply IH. destruct Hi as [->| ->], e; cbn; auto.
Qed.

Lemma step_thrownPhase (src : string) (e : reason) (called : bool)
  (ev : event) :
  step (thrownPhase (VFun src) e called) ev
    = thrownPhase (VFun src) e
        (called || match ev with Tick => true | TransportSettles => false end).
Proof.
  destruct called, ev; reflexivity.
Qed.

Lemma advance_thrownPhase (src : string) (e : reason) (schedule : list event)
  (called : bool) :
  advance (thrownPhase (VFun src) e called) schedule
    = thrownPhase (VFun src) e
        (called || existsb (fun ev => match ev with Tick => true | _ => false end)
                     schedule).
Proof.
  unfold advance. revert called.
  induction schedule as [|ev r IH]; intros called; cbn [fold_left existsb].
  - now rewrite orb_false_r.
  - rewrite step_thrownPhase, IH. now rewrite orb_assoc.
Qed.

(** A promise that was rejected at once stays as it is. *)
Lemma advance_rejected (e : reason) (schedule : list event) :
  advance (mkLoop [Settled (Rejected e)] [] None []) schedule
    = mkLoop [Settled (Rejected e)] [] None [].
Proof.
  unfold advance. induction schedule as [|[] r IH]; cbn [fold_left]; auto.
Qed.

Lemma createAPIRequest_callback (env : Env) (parameters : APIRequestParams)
  (src : string) :
  createAPIRequest env parameters (VFun src) =
    match createAPIRequestAsync_body env (mkWorld parameters []) with
    | (inl s, w) =>
        mkOutcome ReturnsUndefined (callbackPhase (VFun src) s Waiting) w
    | (inr e, w) =>
        mkOutcome ReturnsUndefined (thrownPhase (VFun src) e false) w
    end.
Proof.
  unfold createAPIRequest, callAsync. cbn.
  now destruct (createAPIRequestAsync_body env (mkWorld parameters []))
    as [[s|e] w].
Qed.

Lemma createAPIRequest_promise (env : Env) (parameters : APIRequestParams)
  (callback : value) :
  truthy callback = false ->
  createAPIRequest env parameters callback =
    match createAPIRequestAsync_body env (mkWorld parameters []) with
    | (inl s, w) => mkOutcome (ReturnsPromise 0) (promisePhase s Waiting) w
    | (inr e, w) =>
        mkOutcome (ReturnsPromise 0) (mkLoop [Settled (Rejected e)] [] None []) w
    end.
Proof.
  intros Hc. unfold createAPIRequest, callAsync. rewrite Hc. cbn.
  now destruct (createAPIRequestAsync_body env (mkWorld parameters []))
    as [[s|e] w].
Qed.

(** C10.  Called with a callback, [createAPIRequest] returns [undefined]
    without having called it.  Whatever happens next, jobs running and the
    transport settling its promise in any order, the callback has been
    called not at all or exactly once, with [null] and the response when the
    request is fulfilled and with the error alone when it is rejected; it is
    not called before the promise of the request is settled (the body threw,
    or the transport has settled its promise), it has been called once three
    jobs after that at the latest, and it is never called again.  Called
    without a callback, [createAPIRequest] returns a promise and calls
    nothing; the promise is pending or settled as the request is, it is
    settled two jobs after the request at the latest and stays so.  Both
    conventions run the same resolution and leave the same descriptor and
    the same calls. *)
Theorem createAPIRequest_conventions (env : Env) (parameters : APIRequestParams)
  (callback : value) (schedule : list event) :
  let outcome := fst (run env parameters) in
  let called := createAPIRequest env parameters callback in
  (isCallable callback = true ->
   result called = ReturnsUndefined /\
   invocations (loop called) = [] /\
   (invocations (advance (loop called) schedule) = [] \/
    invocations (advance (loop called) schedule) = [callbackArguments outcome]) /\
   (~ requestSettles (loop called) schedule ->
    invocations (advance (loop called) schedule) = []) /\
   (requestSettles (loop called) schedule ->
    invocations (advance (loop called) (schedule ++ [Tick; Tick; Tick]))
      = [callbackArguments outcome]) /\
   (forall more,
      invocations (advance (loop called) schedule) = [callbackArguments outcome] ->
      invocations (advance (loop called) (schedule ++ more))
        = [callbackArguments outcome]) /\
   world called = snd (run env parameters)) /\
  (truthy callback = false ->
   exists p,
     result called = ReturnsPromise p /\
     (forall more, invocations (advance (loop called) more) = []) /\
     (stateOf (advance (loop called) schedule) p = Settled outcome \/
      stateOf (advance (loop called) schedule) p = Pending []) /\
     (~ requestSettles (loop called) schedule ->
      stateOf (advance (loop called) schedule) p = Pending []) /\
     (requestSettles (loop called) schedule ->
      stateOf (advance (loop called) (schedule ++ [Tick; Tick])) p
        = Settled outcome) /\
     (forall more,
        stateOf (advance (loop called) schedule) p = Settled outcome ->
        stateOf (advance (loop called) (schedule ++ more)) p = Settled outcome) /\
     world called = snd (run env parameters)).
Proof.
  intros outcome called. subst outcome called. rewrite run_body. split.
  - intros Hc. destruct callback as [| | | | | | |src|]; try discriminate Hc.
    rewrite createAPIRequest_callback.
    destruct (createAPIRequestAsync_body env (mkWorld parameters []))
      as [[s|e] w]; cbn [result loop world fst snd].
    + split; [reflexivity|]. split; [reflexivity|].
      rewrite !advance_callbackPhase.
      split; [|split; [|split; [|split; [|reflexivity]]]].
      * destruct (fold_left nextPhase schedule Waiting); cbn; auto.
      * intros Hnot.
        assert (Hw : transportSettled (fold_left nextPhase schedule Waiting)
                     = false).
        { apply phase_waits; [|reflexivity].
          intros Hin. apply Hnot. now right. }
        destruct (fold_left nextPhase schedule Waiting);
          try discriminate Hw; reflexivity.
      * intros [Hnone|Hin]; [discriminate Hnone|].
        rewrite fold_left_app, phase_finishes; [reflexivity|].
        now apply phase_settles.
      * intros more Hdone. rewrite advance_callbackPhase, fold_left_app.
        destruct (fold_left nextPhase schedule Waiting);
          try discriminate Hdone.
        now rewrite phase_stays_finished.
    + split; [reflexivity|]. split; [reflexivity|].
      rewrite !advance_thrownPhase. cbn [orb].
      split; [|split; [|split; [|split; [|reflexivity]]]].
      * destruct (existsb _ schedule); cbn; auto.
      * intros Hnot. exfalso. apply Hnot. now left.
      * intros _. rewrite existsb_app. cbn. now rewrite orb_true_r.
      * intros more Hdone. rewrite advance_thrownPhase, existsb_app. cbn [orb].
        destruct (existsb _ schedule); [reflexivity | discriminate Hdone].
  - intros Hc. rewrite (createAPIRequest_promise _ _ _ Hc).
    destruct (createAPIRequestAsync_body env (mkWorld parameters []))
      as [[s|e] w]; cbn [result loop world fst snd]; exists 0.
    + split; [reflexivity|].
      split; [intros more; rewrite advance_promisePhase;
              now destruct (fold_left nextPhase more Waiting)|].
      rewrite !advance_promisePhase.
      split; [|split; [|split; [|split; [|reflexivity]]]].
      * destruct (fold_left nextPhase schedule Waiting); cbn; auto.
      * intros Hnot.
        assert (Hw : transportSettled (fold_left nextPhase schedule Waiting)
                     = false).
        { apply phase_waits; [|reflexivity].
          intros Hin. apply Hnot. now right. }
        destruct (fold_left nextPhase schedule Waiting);
          try discriminate Hw; reflexivity.
      * intros [Hnone|Hin]; [discriminate Hnone|].
        rewrite fold_left_app. cbn [fold_left].
        destruct (phase_is_settled (fold_left nextPhase schedule Waiting)
                    (phase_settles schedule Waiting Hin)) as [-> | ->];
          reflexivity.
      * intros more Hdone. rewrite advance_promisePhase, fold_left_app.
        assert (Hn : fold_left nextPhase schedule Waiting = Notifying \/
                     fold_left nextPhase schedule Waiting = Finished).
        { destruct (fold_left nextPhase schedule Waiting);
            try discriminate Hdone; auto. }
        destruct (phase_stays_notified more _ Hn) as [-> | ->]; reflexivity.
    + split; [reflexivity|].
      split; [intros more; now rewrite advance_rejected|].
      rewrite !advance_rejected.
      split; [now left|].
      split; [intros Hnot; exfalso; apply Hnot; now left|].
      split; [reflexivity|]. split; [|reflexivity].
      intros more _. now rewrite advance_rejected.
Qed.

Lemma createAPIRequest_conventions_witness :
  result (createAPIRequest node listFiles (VFun "callback")) = ReturnsUndefined /\
  invocations
    (advance (loop (createAPIRequest node listFiles (VFun "callback")))
       [Tick; TransportSettles]) = [] /\
  invocations
    (advance (loop (createAPIRequest node listFiles (VFun "callback")))
       ([Tick; TransportSettles] ++ [Tick; Tick; Tick]))
    = [callbackArguments (fst (run node listFiles))] /\
  invocations
    (advance (loop (createAPIRequest node withoutId (VFun "callback")))
       ([] ++ [Tick; Tick; Tick]))
    = [[ArgError (Error "Missing required parameters: id")]] /\
  stateOf
    (advance (loop (createAPIRequest node listFiles VUndef))
       ([TransportSettles] ++ [Tick; Tick])) 0
    = Settled (fst (run node listFiles)).
Proof.
  destruct (createAPIRequest_conventions node listFiles (VFun "callback")
              [Tick; TransportSettles]) as [Hcb _].
  destruct (Hcb eq_refl) as (Hret & _ & Hsafe & _ & Hlive & _).
  destruct (createAPIRequest_conventions node withoutId (VFun "callback") [])
    as [Hcb' _].
  destruct (Hcb' eq_refl) as (_ & _ & _ & _ & Hlive' & _).
  destruct (createAPIRequest_conventions node listFiles VUndef
              [TransportSettles]) as [_ Hpr].
  destruct (Hpr eq_refl) as (p & Hp & _ & _ & _ & Hsettles & _).
  split; [exact Hret|].
  split; [vm_compute; reflexivity|].
  split; [apply Hlive; right; right; left; reflexivity|].
  split; [apply Hlive'; left; reflexivity|].
  injection Hp as <-. apply Hsettles. right. left. reflexivity.
Defined.
